(** * The INI document model ([IniMap]) of [@std/ini]

    A shallow embedding of [IniMap] (its [set], [parse] and [toObject]
    methods with their private helpers) and the properties of the
    natural-language specification that were settled against it.

    Conventions of the embedding.
    - A JavaScript string is its sequence of UTF-16 code units, a [list N].
    - Line records are objects with identity: they live in a heap (an
      arena indexed by [nat]); the line array and the three maps hold
      references into it, so a record reachable from a map and from the
      line array is one cell, as in the source.
    - A JavaScript [Map] is an association list in insertion order.
    - [num] and [end] are integers, modelled in [Z].
    - A thrown exception is a result of its own; the model at the time of
      the throw is kept next to it. *)

From Stdlib Require Import ZArith NArith QArith List Ascii String Decimal Lia.
From Stdlib Require SpecFloat.
From stdpp Require Import base option list.

Local Open Scope nat_scope.

(** ** Strings as sequences of UTF-16 code units *)

Module JsString.

Abbreviation jsstring := (list N) (only parsing).

(** The code units of an ASCII literal. *)
Definition js (s : string) : jsstring :=
  map N_of_ascii (list_ascii_of_string s).

Definition LF : N := 10%N.
Definition CR : N := 13%N.
Definition SPACE : N := 32%N.
Definition DQUOTE : N := 34%N.

(** [a === b] on strings. *)
Definition str_eqb (a b : jsstring) : bool := bool_decide (a = b).

(** [s.startsWith(p)] *)
Fixpoint startsWith (s p : jsstring) : bool :=
  match p, s with
  | [], _ => true
  | _ :: _, [] => false
  | c :: p', d :: s' => (c =? d)%N && startsWith s' p'
  end.

(** [s.endsWith(p)] *)
Definition endsWith (s p : jsstring) : bool :=
  startsWith (rev s) (rev p).

(** [s.indexOf(p)], [None] standing for [-1]. *)
Fixpoint indexOf_from (s p : jsstring) (i : nat) : option nat :=
  if startsWith s p then Some i
  else match s with
       | [] => None
       | _ :: s' => indexOf_from s' p (S i)
       end.

Definition indexOf (s p : jsstring) : Z :=
  match indexOf_from s p 0 with
  | Some i => Z.of_nat i
  | None => (-1)%Z
  end.

(** [s.includes(p)] *)
Definition includes (s p : jsstring) : bool :=
  bool_decide (indexOf s p ≠ (-1)%Z).

(** Clamping of an index argument to [0 .. len], as [substring] does. *)
Definition clamp (len : nat) (i : Z) : nat :=
  Nat.min (Z.to_nat i) len.

(** [s.substring(a, b)]: both ends clamped, swapped when out of order. *)
Definition substring (s : jsstring) (a b : Z) : jsstring :=
  let a' := clamp (length s) a in
  let b' := clamp (length s) b in
  let from := Nat.min a' b' in
  let to := Nat.max a' b' in
  take (to - from) (drop from s).

(** [s.substring(a)] *)
Definition substring_from (s : jsstring) (a : Z) : jsstring :=
  drop (clamp (length s) a) s.

(** A relative index of [slice]: negative counts from the end. *)
Definition relative (len : nat) (i : Z) : nat :=
  if (i <? 0)%Z then Z.to_nat (Z.max (Z.of_nat len + i) 0)
  else Nat.min (Z.to_nat i) len.

(** [s.slice(a, b)] *)
Definition slice (s : jsstring) (a b : Z) : jsstring :=
  let from := relative (length s) a in
  let to := relative (length s) b in
  take (to - from) (drop from s).

(** WhiteSpace and LineTerminator of ECMA-262: what [trim] removes, what
    [\s] matches and what [StringToNumber] skips. *)
Definition isWhiteSpace (c : N) : bool :=
  ((c =? 9) || (c =? 10) || (c =? 11) || (c =? 12) || (c =? 13)
   || (c =? 32) || (c =? 160) || (c =? 5760)
   || ((8192 <=? c) && (c <=? 8202))
   || (c =? 8232) || (c =? 8233) || (c =? 8239) || (c =? 8287)
   || (c =? 12288) || (c =? 65279))%N.

Fixpoint trimStart (s : jsstring) : jsstring :=
  match s with
  | c :: s' => if isWhiteSpace c then trimStart s' else s
  | [] => []
  end.

Definition trimEnd (s : jsstring) : jsstring :=
  rev (trimStart (rev s)).

(** [s.trim()] *)
Definition trim (s : jsstring) : jsstring := trimEnd (trimStart s).

(** [/\S/.test(s)] *)
Definition hasNonWhiteSpace (s : jsstring) : bool :=
  existsb (fun c => negb (isWhiteSpace c)) s.

(** Decimal digits of a [Decimal.uint], most significant first. *)
Fixpoint uint_digits (u : uint) : jsstring :=
  match u with
  | Nil => []
  | D0 u => 48%N :: uint_digits u
  | D1 u => 49%N :: uint_digits u
  | D2 u => 50%N :: uint_digits u
  | D3 u => 51%N :: uint_digits u
  | D4 u => 52%N :: uint_digits u
  | D5 u => 53%N :: uint_digits u
  | D6 u => 54%N :: uint_digits u
  | D7 u => 55%N :: uint_digits u
  | D8 u => 56%N :: uint_digits u
  | D9 u => 57%N :: uint_digits u
  end.

(** The text a template literal produces for an integer. *)
Definition int_to_string (z : Z) : jsstring :=
  match Z.to_int z with
  | Pos u => uint_digits u
  | Neg u => 45%N :: uint_digits u
  end.

End JsString.

Import JsString.

(** ** Numbers: the conversion [+value] of a string

    [StringToNumber] of ECMA-262 over the [StringNumericLiteral] grammar.
    A Number is a binary64: the mathematical value of a literal is rounded
    to the nearest one, ties to even, and to an infinity beyond the
    largest.  The rounding is the one of the Standard Library's
    [SpecFloat] at precision 53 and [emax] 1024, applied to the exact
    value of the literal, whatever the number of its digits.  A finite
    Number is written as the rational it is, in lowest terms. *)

Module JsNumber.

Inductive number :=
| NaN
| PosInf
| NegInf
| NegZero
| Fin (q : Q).

Definition isNaN (n : number) : bool :=
  match n with NaN => true | _ => false end.

(** The Number of an integer a binary64 holds exactly (up to [2^53] in
    magnitude). *)
Definition ofZ (z : Z) : number := Fin (inject_Z z).

(** A binary64 as a Number. *)
Definition ofFloat (f : SpecFloat.spec_float) : number :=
  match f with
  | SpecFloat.S754_zero s => if s then NegZero else Fin 0
  | SpecFloat.S754_infinity s => if s then NegInf else PosInf
  | SpecFloat.S754_nan => NaN
  | SpecFloat.S754_finite s m e =>
      let q := Qred (Qmult (inject_Z (Zpos m)) (Qpower (inject_Z 2) e)) in
      Fin (if s then Qopp q else q)
  end.

(** The Number value for the quotient [a / b] of a natural number by a
    positive one, with the sign [neg]: the quotient is brought to the
    precision of a binary64, with what is cut off remembered, and
    rounded. *)
Definition numberValue (neg : bool) (a b : Z) : number :=
  let '(q, e, l) := SpecFloat.SFdiv_core_binary 53 1024 a 0 b 0 in
  ofFloat (SpecFloat.binary_round_aux 53 1024 neg q e l).

Definition isDigit (c : N) : bool := ((48 <=? c) && (c <=? 57))%N.
Definition isBinaryDigit (c : N) : bool := ((c =? 48) || (c =? 49))%N.
Definition isOctalDigit (c : N) : bool := ((48 <=? c) && (c <=? 55))%N.
Definition isHexDigit (c : N) : bool :=
  (isDigit c || ((97 <=? c) && (c <=? 102)) || ((65 <=? c) && (c <=? 70)))%N.

Definition digitValue (c : N) : Z :=
  (if isDigit c then Z.of_N c - 48
   else if (97 <=? c)%N then Z.of_N c - 87
   else Z.of_N c - 55)%Z.

(** The integer a run of digits denotes in the given base. *)
Definition digitsValue (base : Z) (ds : jsstring) : Z :=
  fold_left (fun acc c => acc * base + digitValue c)%Z ds 0%Z.

(** The longest prefix of [s] whose code units satisfy [p], and the rest. *)
Fixpoint span (p : N → bool) (s : jsstring) : jsstring * jsstring :=
  match s with
  | c :: s' =>
      if p c then let '(a, b) := span p s' in (c :: a, b) else ([], s)
  | [] => ([], [])
  end.

Definition nonEmpty (s : jsstring) : bool :=
  match s with [] => false | _ => true end.

(** A non-empty run of digits and nothing else. *)
Definition allDigits (p : N → bool) (s : jsstring) : bool :=
  nonEmpty s && forallb p s.

(** A sign, if the text starts with one, and the text after it. *)
Definition PLUS : N := 43%N.
Definition MINUS : N := 45%N.
Definition DOT : N := 46%N.
Definition ZERO : N := 48%N.

Definition optionalSign (s : jsstring) : bool * jsstring :=
  match s with
  | c :: r =>
      if (c =? PLUS)%N then (false, r)
      else if (c =? MINUS)%N then (true, r)
      else (false, s)
  | [] => (false, s)
  end.

Definition isExponentIndicator (c : N) : bool := ((c =? 101) || (c =? 69))%N.

(** [ExponentPart], optional: [e] or [E], an optional sign, digits. *)
Definition exponentPart (s : jsstring) : option Z :=
  match s with
  | [] => Some 0%Z
  | c :: r =>
      if isExponentIndicator c then
        let '(neg, ds) := optionalSign r in
        if allDigits isDigit ds
        then Some (if neg then - digitsValue 10 ds else digitsValue 10 ds)%Z
        else None
      else None
  end.

(** The magnitude of a [StrUnsignedDecimalLiteral]. *)
Inductive magnitude :=
| MInfinity
| MFinite (mantissa : Z) (exponent : Z).

(** The fraction after the integer part: whether there is a dot, the
    digits after it, and the rest. *)
Definition fractionPart (s : jsstring) : bool * jsstring * jsstring :=
  match s with
  | c :: r =>
      if (c =? DOT)%N then let '(f, r') := span isDigit r in (true, f, r')
      else (false, [], s)
  | [] => (false, [], s)
  end.

Definition unsignedDecimal (s : jsstring) : option magnitude :=
  if str_eqb s (js "Infinity") then Some MInfinity
  else
    let '(ip, r1) := span isDigit s in
    let '(dot, fp, r2) := fractionPart r1 in
    if nonEmpty ip || (dot && nonEmpty fp) then
      match exponentPart r2 with
      | Some e =>
          Some (MFinite (digitsValue 10 (ip ++ fp)) (e - Z.of_nat (length fp)))
      | None => None
      end
    else None.

Definition magnitudeValue (neg : bool) (m : magnitude) : number :=
  match m with
  | MInfinity => if neg then NegInf else PosInf
  | MFinite mant e =>
      if (mant =? 0)%Z then (if neg then NegZero else Fin 0)
      else
        numberValue neg (mant * 10 ^ Z.max e 0)%Z (10 ^ Z.max (- e) 0)%Z
  end.

(** [StrDecimalLiteral]: an optional sign before the unsigned literal. *)
Definition strDecimalLiteral (s : jsstring) : option number :=
  let '(neg, r) := optionalSign s in
  magnitudeValue neg <$> unsignedDecimal r.

(** The base a prefix letter announces: [b], [o] or [x], in either case. *)
Definition radixOf (p : N) : option (Z * (N → bool)) :=
  if ((p =? 98) || (p =? 66))%N then Some (2%Z, isBinaryDigit)
  else if ((p =? 111) || (p =? 79))%N then Some (8%Z, isOctalDigit)
  else if ((p =? 120) || (p =? 88))%N then Some (16%Z, isHexDigit)
  else None.

(** [NonDecimalIntegerLiteral]: [0b], [0o] or [0x] and digits, unsigned. *)
Definition nonDecimalIntegerLiteral (s : jsstring) : option number :=
  match s with
  | z :: p :: ds =>
      if (z =? ZERO)%N then
        match radixOf p with
        | Some (base, digit) =>
            if allDigits digit ds
            then Some (numberValue false (digitsValue base ds) 1)
            else None
        | None => None
        end
      else None
  | _ => None
  end.

(** [StrNumericLiteral]: the two alternatives never overlap. *)
Definition strNumericLiteral (s : jsstring) : option number :=
  match nonDecimalIntegerLiteral s with
  | Some n => Some n
  | None => strDecimalLiteral s
  end.

(** [+s]: white space around the literal is skipped, the empty string
    and the all-white-space string are [0], and anything that is not a
    literal is [NaN]. *)
Definition toNumber (s : jsstring) : number :=
  match trim s with
  | [] => Fin 0
  | t => match strNumericLiteral t with
         | Some n => n
         | None => NaN
         end
  end.

End JsNumber.

Import JsNumber.


(** ** The document model *)

Module Ini.

(** [IniValue]: what a key may hold. *)
Inductive IniValue :=
| VString (s : jsstring)
| VNumber (n : number)
| VBoolean (b : bool)
| VNull
| VUndefined.

(** A reference to a line record in the heap. *)
Abbreviation loc := nat (only parsing).

(** A JavaScript [Map] keyed by strings: entries in insertion order,
    [set] on a present key replacing the value where it stands. *)
Abbreviation JsMap V := (list (jsstring * V)) (only parsing).

Fixpoint map_get {V} (m : JsMap V) (k : jsstring) : option V :=
  match m with
  | [] => None
  | (k', v) :: m' => if str_eqb k' k then Some v else map_get m' k
  end.

Fixpoint map_set {V} (m : JsMap V) (k : jsstring) (v : V) : JsMap V :=
  match m with
  | [] => [(k, v)]
  | (k', v') :: m' =>
      if str_eqb k' k then (k', v) :: m' else (k', v') :: map_set m' k v
  end.

(** [Line = LineComment | LineSection | LineValue] *)
Inductive Line :=
| LineComment (num : Z) (val : jsstring)
| LineSection (num : Z) (sec : jsstring) (map : JsMap loc) (end_ : Z)
| LineValue (num : Z) (sec : option jsstring) (key : jsstring) (val : IniValue).

Definition line_num (l : Line) : Z :=
  match l with
  | LineComment n _ | LineSection n _ _ _ | LineValue n _ _ _ => n
  end.

Definition isSectionLine (l : Line) : bool :=
  match l with LineSection _ _ _ _ => true | _ => false end.

Definition isCommentLine (l : Line) : bool :=
  match l with LineComment _ _ => true | _ => false end.

(** [line.num = n] *)
Definition set_num (n : Z) (l : Line) : Line :=
  match l with
  | LineComment _ v => LineComment n v
  | LineSection _ s m e => LineSection n s m e
  | LineValue _ s k v => LineValue n s k v
  end.

(** [line.num += op] *)
Definition add_num (op : Z) (l : Line) : Line :=
  set_num (line_num l + op) l.

(** [section.end = e] and [section.end += op] *)
Definition set_end (e : Z) (l : Line) : Line :=
  match l with
  | LineSection n s m _ => LineSection n s m e
  | _ => l
  end.

Definition add_end (op : Z) (l : Line) : Line :=
  match l with
  | LineSection n s m e => LineSection n s m (e + op)
  | _ => l
  end.

(** [lineValue.val = v] *)
Definition set_val (v : IniValue) (l : Line) : Line :=
  match l with
  | LineValue n s k _ => LineValue n s k v
  | _ => l
  end.

(** [section.map.set(k, r)] *)
Definition set_key (k : jsstring) (r : loc) (l : Line) : Line :=
  match l with
  | LineSection n s m e => LineSection n s (map_set m k r) e
  | _ => l
  end.

(** Truthiness of an optional string: [undefined] and [""] are falsy. *)
Definition truthy (o : option jsstring) : bool :=
  match o with
  | Some (_ :: _) => true
  | _ => false
  end.

Record FormattingOptions := {
  lineBreak : option jsstring;
  pretty : option bool
}.

Record IniMap := {
  heap : list Line;
  global : JsMap loc;
  sections : JsMap loc;
  lines : list loc;
  formatting : FormattingOptions
}.

Definition with_heap (m : IniMap) (h : list Line) : IniMap :=
  {| heap := h; global := global m; sections := sections m;
     lines := lines m; formatting := formatting m |}.

Definition with_lines (m : IniMap) (ls : list loc) : IniMap :=
  {| heap := heap m; global := global m; sections := sections m;
     lines := ls; formatting := formatting m |}.

Definition with_global (m : IniMap) (g : JsMap loc) : IniMap :=
  {| heap := heap m; global := g; sections := sections m;
     lines := lines m; formatting := formatting m |}.

Definition with_sections (m : IniMap) (s : JsMap loc) : IniMap :=
  {| heap := heap m; global := global m; sections := s;
     lines := lines m; formatting := formatting m |}.

Definition with_formatting (m : IniMap) (f : FormattingOptions) : IniMap :=
  {| heap := heap m; global := global m; sections := sections m;
     lines := lines m; formatting := f |}.

(** A record is mutated through its reference. *)
Definition update (m : IniMap) (r : loc) (f : Line → Line) : IniMap :=
  with_heap m (alter f r (heap m)).

(** A new record gets the next free reference. *)
Definition alloc (m : IniMap) (l : Line) : IniMap * loc :=
  (with_heap m (heap m ++ [l]), length (heap m)).

(** [new IniMap(formatting)] *)
Definition new_IniMap (f : FormattingOptions) : IniMap :=
  {| heap := []; global := []; sections := []; lines := []; formatting := f |}.

Definition noFormatting : FormattingOptions :=
  {| lineBreak := None; pretty := None |}.

(** [lines.length] as the number it is in the source. *)
Definition lines_length (m : IniMap) : Z := Z.of_nat (length (lines m)).

(** *** Array primitives *)

(** [a.splice(start, 0, x)] *)
Definition splice_insert {A} (a : list A) (start : Z) (x : A) : list A :=
  let i := relative (length a) start in
  take i a ++ x :: drop i a.

(** [a.splice(start, 1)] *)
Definition splice_delete {A} (a : list A) (start : Z) : list A :=
  let i := relative (length a) start in
  take i a ++ drop (S i) a.

(** [a.slice(start)] *)
Definition slice_from {A} (a : list A) (start : Z) : list A :=
  drop (relative (length a) start) a.

(** *** [#appendOrDeleteLine] *)

Inductive LineOp := Del | Add.

Definition op_value (op : LineOp) : Z :=
  match op with Del => (-1)%Z | Add => 1%Z end.

(** One turn of the renumbering loop on the record [r]; the state is the
    heap and the flag [updateSection]. *)
Definition shift_step (secs : JsMap loc) (op : Z)
    (st : list Line * bool) (r : loc) : list Line * bool :=
  let '(h, upd) := st in
  match h !! r with
  | None => st
  | Some line =>
      let h1 := alter (add_num op) r h in
      let '(h2, upd2) :=
        if isSectionLine line then (alter (add_end op) r h1, false)
        else (h1, upd) in
      if upd2 then
        match line with
        | LineValue _ (Some (c :: s)) _ _ =>
            match map_get secs (c :: s) with
            | Some ls => (alter (add_end op) ls h2, false)
            | None => (h2, true)
            end
        | _ => (h2, true)
        end
      else (h2, false)
  end.

Definition appendOrDeleteLine (m : IniMap) (input : loc) (op : LineOp) : IniMap :=
  match heap m !! input with
  | None => m
  | Some inp =>
      let num := line_num inp in
      let lines1 :=
        match op with
        | Add => splice_insert (lines m) (num - 1) input
        | Del => splice_delete (lines m) (num - 1)
        end in
      let updateSection := isCommentLine inp in
      let start := match op with Add => num | Del => (num - 1)%Z end in
      let '(h, _) :=
        fold_left (shift_step (sections m) (op_value op))
                  (slice_from lines1 start) (heap m, updateSection) in
      with_lines (with_heap m h) lines1
  end.

(** *** [#appendValue] *)

(** The position of the first section record among the lines. *)
Fixpoint first_section (h : list Line) (ls : list loc) (i : nat) : option nat :=
  match ls with
  | [] => None
  | r :: ls' =>
      match h !! r with
      | Some (LineSection _ _ _ _) => Some i
      | _ => first_section h ls' (S i)
      end
  end.

Definition line_sec (l : Line) : option jsstring :=
  match l with
  | LineValue _ s _ _ => s
  | LineSection _ s _ _ => Some s
  | LineComment _ _ => None
  end.

Definition appendValue (m : IniMap) (lineValue : loc) : IniMap :=
  if bool_decide (length (lines m) = 0) then
    with_lines (update m lineValue (set_num 1)) (lines m ++ [lineValue])
  else if truthy (heap m !! lineValue ≫= line_sec) then
    appendOrDeleteLine m lineValue Add
  else
    let num :=
      match first_section (heap m) (lines m) 0 with
      | Some i => (Z.of_nat i + 1)%Z
      | None => (lines_length m + 1)%Z
      end in
    appendOrDeleteLine (update m lineValue (set_num num)) lineValue Add.

(** *** [#getOrCreateSection] *)

Definition getOrCreateSection (m : IniMap) (section : jsstring) : IniMap * loc :=
  match map_get (sections m) section with
  | Some existing => (m, existing)
  | None =>
      let n := (lines_length m + 1)%Z in
      let '(m1, lineSection) := alloc m (LineSection n section [] n) in
      let m2 := with_lines m1 (lines m1 ++ [lineSection]) in
      (with_sections m2 (map_set (sections m2) section lineSection), lineSection)
  end.

(** *** [set] *)

(** The branch of [set] taken for [set(section, key, value)]. *)
Definition set_section (m : IniMap) (keyOrSection key : jsstring)
    (value : IniValue) : IniMap :=
  let '(m1, section) := getOrCreateSection m keyOrSection in
  match heap m1 !! section with
  | Some (LineSection _ sec map end_) =>
      match map_get map key with
      | Some exists_ => update m1 exists_ (set_val value)
      | None =>
          let m2 := update m1 section (add_end 1) in
          let '(m3, lineValue) :=
            alloc m2 (LineValue (end_ + 1) (Some sec) key value) in
          let m4 := appendValue m3 lineValue in
          update m4 section (set_key key lineValue)
      end
  | _ => m1 (* the section map only ever holds section records *)
  end.

(** The branch of [set] taken for [set(key, value)]. *)
Definition set_global (m : IniMap) (keyOrSection : jsstring)
    (valueOrKey : IniValue) : IniMap :=
  let '(m1, lineValue) := alloc m (LineValue 0 None keyOrSection valueOrKey) in
  let m2 := appendValue m1 lineValue in
  with_global m2 (map_set (global m2) keyOrSection lineValue).

(** [set(keyOrSection, valueOrKey, value)]; an absent third argument is
    [VUndefined]. *)
Definition set (m : IniMap) (keyOrSection : jsstring)
    (valueOrKey : IniValue) (value : IniValue) : IniMap :=
  match valueOrKey, value with
  | VString _, VUndefined => set_global m keyOrSection valueOrKey
  | VString key, _ => set_section m keyOrSection key value
  | _, _ => set_global m keyOrSection valueOrKey
  end.

(** *** [#readTextLines] *)

(** What the generator does between two of its [yield]s: when it is
    resumed after a line that a terminator ended, it records the
    terminator as [formatting.lineBreak] unless one is set.  A token is
    the yielded line and the terminator seen after it ([None] for the
    last line, after which the generator returns). *)
Abbreviation Token := (jsstring * option jsstring)%type (only parsing).

Fixpoint readTextLines_from (text line : jsstring) : list Token :=
  match text with
  | [] => [(line, None)]
  | char :: rest =>
      if ((char =? LF) || (char =? CR))%N then
        if (char =? CR)%N then
          match rest with
          | next :: rest' =>
              if (next =? LF)%N
              then (line, Some [CR; LF]) :: readTextLines_from rest' []
              else (line, Some [char]) :: readTextLines_from rest []
          | [] => (line, Some [char]) :: readTextLines_from rest []
          end
        else (line, Some [char]) :: readTextLines_from rest []
      else readTextLines_from rest (line ++ [char])
  end.

Definition readTextLines (text : jsstring) : list Token :=
  readTextLines_from text [].

(** The generator resumed after a token. *)
Definition resume (m : IniMap) (terminator : option jsstring) : IniMap :=
  match terminator with
  | Some lb =>
      if truthy (lineBreak (formatting m)) then m
      else with_formatting m
             {| lineBreak := Some lb; pretty := pretty (formatting m) |}
  | None => m
  end.

(** *** Exceptions *)

Inductive Exn :=
| SyntaxError (message : jsstring)
| TypeError (message : jsstring).

(** How a call completes; a throw leaves the model as it was then. *)
Inductive Completion :=
| Return (m : IniMap)
| Throw (e : Exn) (m : IniMap).

(** *** Line classification *)

(** [isComment] *)
Definition isComment (input : jsstring) : bool :=
  str_eqb input []
  || startsWith input (js "#")
  || startsWith input (js ";")
  || startsWith input (js "//").

(** [isSection]: a boolean, or the error it throws. *)
Definition isSection (input : jsstring) (lineNumber : Z) : Exn + bool :=
  if startsWith input (js "[") then
    if endsWith input (js "]") then inr true
    else inl (SyntaxError
                (js "Unexpected end of INI section at line "
                 ++ int_to_string lineNumber))
  else inr false.

(** [`${s[0]}`] *)
Definition first_char_text (s : jsstring) : jsstring :=
  match s with
  | c :: _ => [c]
  | [] => js "undefined"
  end.

(** *** [parse] *)

(** [(key, value, section) => unknown], a pure function here. *)
Definition ReviverFunction := jsstring → jsstring → option jsstring → IniValue.

(** [trimQuotes] *)
Definition trimQuotes (value : jsstring) : jsstring :=
  if startsWith value [DQUOTE] && endsWith value [DQUOTE]
  then slice value 1 (-1)
  else value.

(** The reviver [parse] supplies when it is given none. *)
Definition defaultReviver : ReviverFunction :=
  fun _key value _section =>
    if negb (isNaN (toNumber value)) && negb (includes value [DQUOTE])
    then VNumber (toNumber value)
    else if str_eqb value (js "null") then VNull
    else if str_eqb value (js "true") || str_eqb value (js "false")
    then VBoolean (str_eqb value (js "true"))
    else VString (trimQuotes value).

(** The body of the loop over the lines: the model and the current
    section after the line, or the error thrown on it. *)
Definition parseLine (reviver : ReviverFunction) (m : IniMap)
    (currentSection : option loc) (lineNumber : Z) (line : jsstring)
    : Exn + (IniMap * option loc) :=
  let trimmed := trim line in
  if isComment trimmed then
    let '(m1, r) := alloc m (LineComment lineNumber trimmed) in
    inr (with_lines m1 (lines m1 ++ [r]), currentSection)
  else
    match isSection trimmed lineNumber with
    | inl e => inl e
    | inr true =>
        let sec := substring trimmed 1 (Z.of_nat (length trimmed) - 1) in
        if negb (hasNonWhiteSpace sec) then
          inl (SyntaxError
                 (js "Unexpected empty section name at line "
                  ++ int_to_string lineNumber))
        else
          let '(m1, r) := alloc m (LineSection lineNumber sec [] lineNumber) in
          let m2 := with_lines m1 (lines m1 ++ [r]) in
          inr (with_sections m2 (map_set (sections m2) sec r), Some r)
    | inr false =>
        let assignmentPos := indexOf trimmed (js "=") in
        if (assignmentPos =? -1)%Z then
          inl (SyntaxError
                 (js "Unexpected token " ++ first_char_text trimmed
                  ++ js " in INI at line " ++ int_to_string lineNumber))
        else if (assignmentPos =? 0)%Z then
          inl (SyntaxError
                 (js "Unexpected empty key name at line "
                  ++ int_to_string lineNumber))
        else
          let leftHand := substring trimmed 0 assignmentPos in
          let rightHand := substring_from trimmed (assignmentPos + 1) in
          let m0 :=
            match pretty (formatting m) with
            | None =>
                with_formatting m
                  {| lineBreak := lineBreak (formatting m);
                     pretty := Some (endsWith leftHand [SPACE]
                                     && startsWith rightHand [SPACE]) |}
            | Some _ => m
            end in
          let key := trim leftHand in
          let value := trim rightHand in
          match currentSection with
          | Some cs =>
              let sec := default [] (heap m0 !! cs ≫= line_sec) in
              let '(m1, r) :=
                alloc m0 (LineValue lineNumber (Some sec) key
                            (reviver key value (Some sec))) in
              let m2 := update m1 cs (set_key key r) in
              let m3 := with_lines m2 (lines m2 ++ [r]) in
              inr (update m3 cs (set_end lineNumber), currentSection)
          | None =>
              let '(m1, r) :=
                alloc m0 (LineValue lineNumber None key
                            (reviver key value None)) in
              let m2 := with_global m1 (map_set (global m1) key r) in
              inr (with_lines m2 (lines m2 ++ [r]), currentSection)
          end
    end.

(** The loop over the lines: the model and the current section when the
    lines are used up, or the error and the model at the throw. *)
Fixpoint parseLines (reviver : ReviverFunction) (m : IniMap)
    (currentSection : option loc) (lineNumber : Z) (tokens : list Token)
    : Exn * IniMap + IniMap * option loc :=
  match tokens with
  | [] => inr (m, currentSection)
  | (line, terminator) :: rest =>
      match parseLine reviver m currentSection lineNumber line with
      | inl e => inl (e, m)
      | inr (m1, cs) =>
          parseLines reviver (resume m1 terminator) cs (lineNumber + 1) rest
      end
  end.

(** The argument of [parse] as a caller may pass it: a string, or a
    value of another type.  Of such a value only its conversion to a
    string in a template literal matters; numbers, objects and the rest
    are given by what that conversion completes with. *)
Inductive JsValue :=
| JString (s : jsstring)
| JUndefined
| JNull
| JBoolean (b : bool)
| JSymbol
| JOther (text : Exn + jsstring).

(** [`${v}`] *)
Definition template_text (v : JsValue) : Exn + jsstring :=
  match v with
  | JString s => inr s
  | JUndefined => inr (js "undefined")
  | JNull => inr (js "null")
  | JBoolean b => inr (if b then js "true" else js "false")
  | JSymbol => inl (TypeError (js "Cannot convert a Symbol value to a string"))
  | JOther t => t
  end.

(** [parse(text, reviver)] *)
Definition parse (m : IniMap) (text : JsValue)
    (reviver : option ReviverFunction) : Completion :=
  match text with
  | JString s =>
      match parseLines (default defaultReviver reviver) m None 1
              (readTextLines s) with
      | inl (e, m') => Throw e m'
      | inr (m', _) => Return m'
      end
  | _ =>
      match template_text text with
      | inl e => Throw e m
      | inr t =>
          Throw (SyntaxError (js "Unexpected token " ++ t
                              ++ js " in INI at line 0")) m
      end
  end.

(** *** [toObject] *)

(** A property of the result: a value, or the object of a section. *)
Inductive Property :=
| PValue (v : IniValue)
| PSection (props : JsMap IniValue).

(** [Object.defineProperty(obj, key, {value, ...})] on an object whose
    properties are all configurable: an own property is redefined where
    it stands, a new one is added last. *)
Definition defineProperty {V} (obj : JsMap V) (key : jsstring) (v : V) : JsMap V :=
  map_set obj key v.

Definition define_value (h : list Line) (obj : JsMap IniValue)
    (entry : jsstring * loc) : JsMap IniValue :=
  match h !! entry.2 with
  | Some (LineValue _ _ key val) => defineProperty obj key val
  | _ => obj
  end.

Definition define_global (h : list Line) (obj : JsMap Property)
    (entry : jsstring * loc) : JsMap Property :=
  match h !! entry.2 with
  | Some (LineValue _ _ key val) => defineProperty obj key (PValue val)
  | _ => obj
  end.

Definition define_section (h : list Line) (obj : JsMap Property)
    (entry : jsstring * loc) : JsMap Property :=
  match h !! entry.2 with
  | Some (LineSection _ sec map _) =>
      defineProperty obj sec (PSection (fold_left (define_value h) map []))
  | _ => obj
  end.

Definition toObject (m : IniMap) : JsMap Property :=
  fold_left (define_section (heap m)) (sections m)
    (fold_left (define_global (heap m)) (global m) []).

End Ini.

Import Ini.

(** * Vocabulary of the properties

    The notions the statements below are written in: readings of the
    specification's words, invariants, and the documents and texts of the
    examples. *)

(** ** Lines and terminators *)

(** A code unit that ends a line. *)
Definition isTerminatorChar (c : N) : bool := ((c =? LF) || (c =? CR))%N.

(** The number of line terminators of a text, counted on the text
    itself: every carriage return, and every line feed that does not
    complete a carriage return into one [\r\n]. *)
Fixpoint terminators (afterCR : bool) (text : jsstring) : nat :=
  match text with
  | [] => 0
  | c :: rest =>
      (if (c =? CR)%N then 1
       else if (c =? LF)%N && negb afterCR then 1 else 0)
      + terminators (c =? CR)%N rest
  end.

(** The text a token stands for: its line and the terminator after it. *)
Definition token_text (t : Token) : jsstring := t.1 ++ default [] t.2.

(** No code unit of the text ends a line. *)
Definition terminator_free (s : jsstring) : Prop :=
  Forall (fun c => isTerminatorChar c = false) s.

(** Every token but the last carries one of the three terminators, and
    the last carries none. *)
Definition isTerminator (t : jsstring) : Prop :=
  t = [LF] ∨ t = [CR] ∨ t = [CR; LF].

(** The text [a=1] followed by a line feed. *)
Definition text_a1_newline : jsstring := js "a=1" ++ [LF].

(** ** The ends of a string *)

(** The first code unit is [c]; the last code unit is [c]. *)
Definition first_is (c : N) (s : jsstring) : bool :=
  match s with
  | d :: _ => (d =? c)%N
  | [] => false
  end.

Definition last_is (c : N) (s : jsstring) : bool :=
  match last s with
  | Some d => (d =? c)%N
  | None => false
  end.

(** What lies between the first and the last code unit. *)
Definition inner (s : jsstring) : jsstring := removelast (tail s).

(** ** Malformed lines *)

Definition LBRACKET : N := 91%N.

Definition RBRACKET : N := 93%N.

Definition EQUALS : N := 61%N.

(** The four ways a line can be malformed. *)
Inductive Malformation :=
| UnterminatedSection
| EmptySectionName
| MissingAssignment (first : N)
| EmptyKey.

(** The specification's reading of a trimmed line: a comment is never
    malformed; a line that starts with [[] is malformed when it does not
    end with []], or when the name between the brackets is empty or all
    white space; any other line is malformed when it holds no [=], or
    when its first character is [=]. *)
Definition malformation (t : jsstring) : option Malformation :=
  if isComment t then None
  else
    match t with
    | [] => None
    | c :: _ =>
        if (c =? LBRACKET)%N then
          if negb (last_is RBRACKET t) then Some UnterminatedSection
          else if forallb isWhiteSpace (inner t) then Some EmptySectionName
          else None
        else if negb (existsb (fun d => (d =? EQUALS)%N) t)
        then Some (MissingAssignment c)
        else if (c =? EQUALS)%N then Some EmptyKey
        else None
    end.

(** The message of the error thrown for a malformation at a line. *)
Definition malformation_message (k : Malformation) (lineNumber : Z) : jsstring :=
  match k with
  | UnterminatedSection =>
      js "Unexpected end of INI section at line " ++ int_to_string lineNumber
  | EmptySectionName =>
      js "Unexpected empty section name at line " ++ int_to_string lineNumber
  | MissingAssignment c =>
      js "Unexpected token " ++ [c] ++ js " in INI at line "
      ++ int_to_string lineNumber
  | EmptyKey =>
      js "Unexpected empty key name at line " ++ int_to_string lineNumber
  end.

(** A token whose line is not malformed. *)
Definition well_formed_token (t : Token) : Prop :=
  malformation (trim t.1) = None.

(** The text [[section], a line feed, [key=1]. *)
Definition text_unterminated : jsstring := js "[section" ++ [LF] ++ js "key=1".

(** ** One turn of the parse loop *)

(** The part of a line before its first [c], and the part after it. *)
Fixpoint leftOf (c : N) (s : jsstring) : jsstring :=
  match s with
  | [] => []
  | d :: s' => if (d =? c)%N then [] else d :: leftOf c s'
  end.

Fixpoint rightOf (c : N) (s : jsstring) : jsstring :=
  match s with
  | [] => []
  | d :: s' => if (d =? c)%N then s' else rightOf c s'
  end.

(** The model after a comment line, a section header and a key/value
    line. *)
Definition push_comment (m : IniMap) (n : Z) (t : jsstring) : IniMap :=
  with_lines (with_heap m (heap m ++ [LineComment n t]))
    (lines m ++ [length (heap m)]).

Definition push_section (m : IniMap) (n : Z) (sec : jsstring) : IniMap :=
  with_sections
    (with_lines (with_heap m (heap m ++ [LineSection n sec [] n]))
       (lines m ++ [length (heap m)]))
    (map_set (sections m) sec (length (heap m))).

(** The pretty flag set to [b] unless it is configured. *)
Definition infer_pretty (m : IniMap) (b : bool) : IniMap :=
  match pretty (formatting m) with
  | None =>
      with_formatting m
        {| lineBreak := lineBreak (formatting m); pretty := Some b |}
  | Some _ => m
  end.

(** The model after a key/value line with the given key and raw value,
    in the current section [cs] or in the global scope. *)
Definition push_value (reviver : ReviverFunction) (m : IniMap) (cs : option loc) (n : Z)
    (key value : jsstring) : IniMap :=
  match cs with
  | Some s =>
      let sec := default [] (heap m !! s ≫= line_sec) in
      let lv := LineValue n (Some sec) key (reviver key value (Some sec)) in
      update
        (with_lines (update (with_heap m (heap m ++ [lv])) s
                       (set_key key (length (heap m))))
           (lines m ++ [length (heap m)]))
        s (set_end n)
  | None =>
      let lv := LineValue n None key (reviver key value None) in
      with_lines
        (with_global (with_heap m (heap m ++ [lv]))
           (map_set (global m) key (length (heap m))))
        (lines m ++ [length (heap m)])
  end.

(** A line that is neither a comment nor a section header. *)
Definition isKeyValueLine (t : jsstring) : bool :=
  negb (isComment t) && negb (first_is LBRACKET t).

(** Whether a key/value line pads its [=] with a space on both sides. *)
Definition padded (t : jsstring) : bool :=
  last_is SPACE (leftOf EQUALS t) && first_is SPACE (rightOf EQUALS t).

(** The first key/value line of a text, trimmed as the parser sees it. *)
Definition first_key_value (tokens : list Token) : option jsstring :=
  (fun t : Token => trim t.1)
    <$> find (fun t : Token => isKeyValueLine (trim t.1)) tokens.

(** The flag after a parse: the configured one if there is one, else
    what the first key/value line shows. *)
Definition inferred_pretty (configured : option bool) (tokens : list Token)
    : option bool :=
  match configured with
  | Some b => Some b
  | None => padded <$> first_key_value tokens
  end.

(** ** Records up to renumbering *)

(** A record without its line number and its end: the renumbering
    changes nothing else. *)
Definition shape (l : Line) : Line := set_end 0 (set_num 0 l).

(** The number 1 as a value. *)
Definition one : IniValue := VNumber (ofZ 1).

(** ** Plain keys *)

(** A string that [trim] leaves as it is. *)
Definition is_trimmed (s : jsstring) : bool :=
  match s with
  | [] => true
  | c :: _ => negb (isWhiteSpace c)
  end
  && match last s with
     | None => true
     | Some c => negb (isWhiteSpace c)
     end.

(** A key as it can stand on a line of its own before [=]: not empty,
    trimmed, free of [=] and of line terminators, and starting neither a
    comment nor a section header. *)
Definition plain_key (k : jsstring) : bool :=
  nonEmpty k && is_trimmed k && negb (isComment k) && negb (first_is LBRACKET k)
  && forallb (fun c => negb (c =? EQUALS)%N && negb (isTerminatorChar c)) k.

(** ** The grammar of numeric literals

    [StrNumericLiteral] of ECMA-262, stated on the text. *)

(** A non-empty run of digits of one kind. *)
Definition digit_run (digit : N → bool) (s : jsstring) : Prop :=
  s ≠ [] ∧ forallb digit s = true.

(** Nothing, [+] or [-]. *)
Definition sign_text (s : jsstring) : Prop :=
  s = [] ∨ s = [PLUS] ∨ s = [MINUS].

(** Nothing, or [e] or [E], a sign and decimal digits. *)
Inductive ExponentPart : jsstring → Prop :=
| exponent_absent : ExponentPart []
| exponent_present c sg ds :
    isExponentIndicator c = true → sign_text sg → digit_run isDigit ds →
    ExponentPart (c :: sg ++ ds).

(** [Infinity], or decimal digits with an optional fraction and an
    optional exponent; the digits before or after the dot may be missing,
    not both. *)
Inductive StrUnsignedDecimalLiteral : jsstring → Prop :=
| unsigned_infinity : StrUnsignedDecimalLiteral (js "Infinity")
| unsigned_int_dot ip fp ex :
    digit_run isDigit ip → forallb isDigit fp = true → ExponentPart ex →
    StrUnsignedDecimalLiteral (ip ++ DOT :: fp ++ ex)
| unsigned_dot fp ex :
    digit_run isDigit fp → ExponentPart ex →
    StrUnsignedDecimalLiteral (DOT :: fp ++ ex)
| unsigned_int ip ex :
    digit_run isDigit ip → ExponentPart ex →
    StrUnsignedDecimalLiteral (ip ++ ex).

(** A signed decimal literal, or an unsigned binary, octal or
    hexadecimal integer with its prefix. *)
Inductive StrNumericLiteral : jsstring → Prop :=
| literal_decimal sg s :
    sign_text sg → StrUnsignedDecimalLiteral s → StrNumericLiteral (sg ++ s)
| literal_binary p ds :
    p = 98%N ∨ p = 66%N → digit_run isBinaryDigit ds →
    StrNumericLiteral (ZERO :: p :: ds)
| literal_octal p ds :
    p = 111%N ∨ p = 79%N → digit_run isOctalDigit ds →
    StrNumericLiteral (ZERO :: p :: ds)
| literal_hex p ds :
    p = 120%N ∨ p = 88%N → digit_run isHexDigit ds →
    StrNumericLiteral (ZERO :: p :: ds).

(** The next code unit, if any, fails [p]. *)
Definition stops (p : N → bool) (s : jsstring) : Prop :=
  match s with
  | [] => True
  | c :: _ => p c = false
  end.

(** A text that does not start with a sign. *)
Definition unsigned_start (s : jsstring) : Prop :=
  match s with
  | [] => True
  | c :: _ => c ≠ PLUS ∧ c ≠ MINUS
  end.

(** ** Coercion of values *)

(** A string without the double quote it has at each end. *)
Definition strip_quotes (s : jsstring) : jsstring :=
  if first_is DQUOTE s && last_is DQUOTE s then inner s else s.

(** What counts as numeric for the reviver: the empty text or a numeric
    literal (white space around it aside), without a double quote. *)
Definition numeric_text (value : jsstring) : Prop :=
  (trim value = [] ∨ StrNumericLiteral (trim value)) ∧ DQUOTE ∉ value.

(** The five lines [a=1], [b=true], [c=null], [d="x"], [e=plain]. *)
Definition text_coercion : jsstring :=
  js "a=1" ++ [LF] ++ js "b=true" ++ [LF] ++ js "c=null" ++ [LF]
  ++ js "d=" ++ [DQUOTE] ++ js "x" ++ [DQUOTE] ++ [LF] ++ js "e=plain".

(** ** Insertion of a line *)

(** What the renumbering does to a record it passes over. *)
Definition bump (op : Z) (l : Line) : Line := add_end op (add_num op l).

(** The heap after the renumbering has passed over the records [rs]. *)
Definition shifted (op : Z) (rs : list loc) (h : list Line) : list Line :=
  fold_left (fun h r => alter (bump op) r h) rs h.

(** The lines with [r] put in at position [i]. *)
Definition inserted (i : nat) (r : loc) (rs : list loc) : list loc :=
  take i rs ++ r :: drop i rs.

(** ** Invariants of the document *)

(** The end of a section record. *)
Definition line_end (l : Line) : Z :=
  match l with
  | LineSection _ _ _ e => e
  | _ => 0%Z
  end.

(** [l] is the record of a section named [name]. *)
Definition section_named (name : jsstring) (l : Line) : Prop :=
  match l with
  | LineSection _ s _ _ => s = name
  | _ => False
  end.

(** The record of the line at position [i] carries the number [i + 1]. *)
Definition numbered_lines (h : list Line) (rs : list loc) : Prop :=
  ∀ i r, rs !! i = Some r →
    ∃ l, h !! r = Some l ∧ line_num l = (Z.of_nat i + 1)%Z.

(** A section the map knows by a non-empty name is a line of the
    document, and its end lies between its header and the last line.
    [slack] is the room the end of a section ahead of position [i] is
    given while a line is being inserted at [i]. *)
Definition sections_within (slack : nat → Z) (m : IniMap) : Prop :=
  ∀ name r, map_get (sections m) name = Some r →
    ∃ l, heap m !! r = Some l ∧ section_named name l
         ∧ (name ≠ [] →
            ∃ i, lines m !! i = Some r
                 ∧ (Z.of_nat i + 1 ≤ line_end l ≤ lines_length m + slack i)%Z).

(** The invariant behind the numbering of the lines. *)
Record numbered (m : IniMap) : Prop := {
  numbered_nodup : NoDup (lines m);
  numbered_nums : numbered_lines (heap m) (lines m);
  numbered_sections : sections_within (fun _ => 0%Z) m
}.

(** A record put after the last line, with the next number. *)
Definition pushed (m : IniMap) (l : Line) : IniMap :=
  with_lines (with_heap m (heap m ++ [l])) (lines m ++ [length (heap m)]).

(** The model with a new record put in as the line at position [i] and
    the lines from there on renumbered. *)
Definition insert_line (m : IniMap) (i : nat) (l : Line) : IniMap :=
  with_lines
    (with_heap m (shifted 1 (drop i (lines m)) (heap m ++ [l])))
    (inserted i (length (heap m)) (lines m)).

(** While a line is inserted at [i], the sections ahead of it may
    already end one line later. *)
Definition slack_before (i : nat) (p : nat) : Z :=
  if decide (p < i) then 1%Z else 0%Z.

(** Where a global value goes: before the first section, or after the
    last line when there is no section. *)
Definition global_position (h : list Line) (rs : list loc) : nat :=
  match first_section h rs 0 with
  | Some i => i
  | None => length rs
  end.

(** ** Documents and how they are reached *)

(** The numbers the line records carry, in line order. *)
Definition line_numbers (m : IniMap) : list (option Z) :=
  (fun r => line_num <$> heap m !! r) <$> lines m.

(** The numbers [1 .. n]. *)
Definition one_to (n : nat) : list (option Z) :=
  (fun i => Some (Z.of_nat i)) <$> seq 1 n.

(** The models obtained from an empty one by a parse of a text, if any,
    as the first operation, and by calls of [set] after it. *)
Inductive reachable : IniMap → Prop :=
| reachable_new f : reachable (new_IniMap f)
| reachable_parse f text reviver m :
    parse (new_IniMap f) (JString text) reviver = Return m → reachable m
| reachable_set m keyOrSection valueOrKey value :
    reachable m → reachable (set m keyOrSection valueOrKey value).

(** The three lines [[s]], [a=1], [[t]]. *)
Definition text_three_lines : jsstring :=
  js "[s]" ++ [LF] ++ js "a=1" ++ [LF] ++ js "[t]".

(** Every section record on a line ends between its header and the last
    line, and before the header of any section further down. *)
Definition ordered (m : IniMap) : Prop :=
  ∀ p r l, lines m !! p = Some r → heap m !! r = Some l →
    isSectionLine l = true →
    (Z.of_nat p + 1 ≤ line_end l ≤ lines_length m)%Z
    ∧ ∀ q r' l', p < q → lines m !! q = Some r' → heap m !! r' = Some l' →
        isSectionLine l' = true → (line_end l ≤ Z.of_nat q)%Z.

(** No section header stands on a line after line [p]. *)
Definition no_section_after (m : IniMap) (p : nat) : Prop :=
  ∀ q r l, p < q → lines m !! q = Some r → heap m !! r = Some l →
    isSectionLine l = false.

(** The current section of the parse loop is the last section so far. *)
Definition cursor_last (m : IniMap) (cs : option loc) : Prop :=
  match cs with
  | Some s => ∃ p, lines m !! p = Some s ∧ no_section_after m p
  | None => True
  end.

(** The well-formedness a document keeps while it is parsed and while
    keys are set in named sections. *)
Definition well_formed (m : IniMap) : Prop := numbered m ∧ ordered m.

(** The key [set] is given when it takes the section branch. *)
Definition section_key (valueOrKey value : IniValue) : option jsstring :=
  match valueOrKey, value with
  | VString _, VUndefined => None
  | VString key, _ => Some key
  | _, _ => None
  end.

(** The documents built from an empty model by a parse of a text, if
    any, as the first operation, and by calls of [set] that name no
    section by the empty string. *)
Inductive built : IniMap → Prop :=
| built_new f : built (new_IniMap f)
| built_parse f text reviver m :
    parse (new_IniMap f) (JString text) reviver = Return m → built m
| built_set m keyOrSection valueOrKey value :
    built m →
    (is_Some (section_key valueOrKey value) → keyOrSection ≠ []) →
    built (set m keyOrSection valueOrKey value).

(** A record of the document after a line was inserted at [i]: renumbered
    when it stood at or after [i], and as it was before otherwise. *)
Definition renumbered (i p : nat) (l : Line) : Line :=
  if decide (i ≤ p) then bump 1 l else l.

(** The document the three lines [[s]], [a=1], [[t]] parse into. *)
Definition doc_two_sections : IniMap :=
  {| heap := [LineSection 1 (js "s") [(js "a", 1)] 2;
              LineValue 2 (Some (js "s")) (js "a") (VNumber (Fin 1));
              LineSection 3 (js "t") [] 3];
     global := [];
     sections := [(js "s", 0); (js "t", 2)];
     lines := [0; 1; 2];
     formatting := {| lineBreak := Some [LF]; pretty := Some false |} |}.

(** ** The recorded line break *)

(** The first line terminator of a text, read off the text: [\n], [\r], or
    [\r\n] for a carriage return that a line feed follows. *)
Fixpoint first_terminator (text : jsstring) : option jsstring :=
  match text with
  | [] => None
  | c :: rest =>
      if (c =? LF)%N then Some [LF]
      else if (c =? CR)%N then
        match rest with
        | d :: _ => if (d =? LF)%N then Some [CR; LF] else Some [CR]
        | [] => Some [CR]
        end
      else first_terminator rest
  end.

(** The line break after the generator was resumed past the tokens. *)
Definition recorded (lb : option jsstring) (tokens : list Token) : option jsstring :=
  fold_left
    (fun lb (t : Token) =>
       match t.2 with
       | Some b => if truthy lb then lb else Some b
       | None => lb
       end)
    tokens lb.

(** ** Records added by a parse *)

(** [m] is [m0] with [j] new records, each the next line, and the records
    of [m0] as they were. *)
Definition appended (m0 m : IniMap) (j : nat) : Prop :=
  lines m = lines m0 ++ seq (length (heap m0)) j
  ∧ length (heap m) = length (heap m0) + j
  ∧ ∀ r l, heap m0 !! r = Some l → heap m !! r = Some l.

(** The current section of the loop, if any, is one of the new records. *)
Definition cursor_new (m0 : IniMap) (cs : option loc) : Prop :=
  match cs with
  | Some s => length (heap m0) ≤ s
  | None => True
  end.

(** ** The maps and their records *)

(** The key and the value of a Value record, the map of a Section
    record. *)
Definition line_key (l : Line) : option jsstring :=
  match l with LineValue _ _ k _ => Some k | _ => None end.

Definition line_val (l : Line) : option IniValue :=
  match l with LineValue _ _ _ v => Some v | _ => None end.

Definition line_map (l : Line) : option (JsMap loc) :=
  match l with LineSection _ _ map _ => Some map | _ => None end.

(** The keys of a map. *)
Definition keys {V} (map : JsMap V) : list jsstring := map.*1.

(** A map of the keys of the scope [sec] (a section, or the global scope):
    its keys are distinct, and every key refers to a Value record of that
    scope that carries the key. *)
Definition keyed (h : list Line) (sec : option jsstring) (map : JsMap loc) : Prop :=
  NoDup (keys map)
  ∧ ∀ k r, map_get map k = Some r → ∃ n v, h !! r = Some (LineValue n sec k v).

(** The maps of the model agree with its records. *)
Definition faithful (m : IniMap) : Prop :=
  keyed (heap m) None (global m)
  ∧ NoDup (keys (sections m))
  ∧ ∀ name r, map_get (sections m) name = Some r →
      ∃ n map e, heap m !! r = Some (LineSection n name map e)
                 ∧ keyed (heap m) (Some name) map.

(** A record without its line number, its end and its value. *)
Definition skeleton (l : Line) : Line := set_val VUndefined (shape l).

(** Every record of [h] is in [h'], up to numbers and values. *)
Definition keeps (h h' : list Line) : Prop :=
  ∀ r l, h !! r = Some l → ∃ l', h' !! r = Some l' ∧ skeleton l' = skeleton l.

(** The models obtained from an empty one by calls of [parse] and [set]
    in any order, a call of [parse] that throws included. *)
Inductive constructed : IniMap → Prop :=
| constructed_new f : constructed (new_IniMap f)
| constructed_parse m text reviver m' :
    constructed m → parse m text reviver = Return m' → constructed m'
| constructed_parse_throw m text reviver e m' :
    constructed m → parse m text reviver = Throw e m' → constructed m'
| constructed_set m keyOrSection valueOrKey value :
    constructed m → constructed (set m keyOrSection valueOrKey value).

(** The current section of the parse loop is one the map of the sections
    refers to. *)
Definition cursor_known (m : IniMap) (cs : option loc) : Prop :=
  match cs with
  | Some s => ∃ name, map_get (sections m) name = Some s
  | None => True
  end.

(** ** Readings of the model and of the object *)

(** The value the model holds for a global key and for a key of a
    section: the value of the record the map refers to. *)
Definition global_value (m : IniMap) (k : jsstring) : option IniValue :=
  map_get (global m) k ≫= fun r => heap m !! r ≫= line_val.

Definition section_map (m : IniMap) (name : jsstring) : option (JsMap loc) :=
  map_get (sections m) name ≫= fun r => heap m !! r ≫= line_map.

Definition section_value (m : IniMap) (name k : jsstring) : option IniValue :=
  section_map m name ≫= fun map =>
  map_get map k ≫= fun r => heap m !! r ≫= line_val.

(** [obj[name]] when it is a value, and [obj[name][k]] when [obj[name]]
    is the object of a section. *)
Definition object_global (obj : JsMap Property) (name : jsstring) : option IniValue :=
  match map_get obj name with
  | Some (PValue v) => Some v
  | _ => None
  end.

Definition object_value (obj : JsMap Property) (name k : jsstring) : option IniValue :=
  match map_get obj name with
  | Some (PSection props) => map_get props k
  | _ => None
  end.

Definition is_section (obj : JsMap Property) (name : jsstring) : Prop :=
  ∃ props, map_get obj name = Some (PSection props).

(** ** Stored text *)

(** What [parse] lets into a record: a comment is stored trimmed; the
    name of a section has a character that is no white space; a key is
    not empty, is trimmed and holds no [=]. *)
Definition stored_well (l : Line) : bool :=
  match l with
  | LineComment _ t => isComment t && is_trimmed t
  | LineSection _ sec _ _ => hasNonWhiteSpace sec
  | LineValue _ _ key _ =>
      nonEmpty key && is_trimmed key
      && negb (existsb (fun d => (d =? EQUALS)%N) key)
  end.

(** The records made since [m0] are stored well. *)
Definition stores_well (m0 m : IniMap) : Prop :=
  ∀ r l, length (heap m0) ≤ r → heap m !! r = Some l → stored_well l = true.

(** ** The section in force at a line *)

(** The name of a section header. *)
Definition header (l : Line) : option jsstring :=
  match l with LineSection _ s _ _ => Some s | _ => None end.

(** The section in force after the lines [rs], coming from [cur]: the name
    of the last header among them. *)
Definition scope_from (cur : option jsstring) (h : list Line) (rs : list loc)
    : option jsstring :=
  fold_left (fun cur r => match h !! r ≫= header with
                          | Some s => Some s
                          | None => cur
                          end) rs cur.

Definition scope (h : list Line) (rs : list loc) : option jsstring :=
  scope_from None h rs.

(** Every key/value line stands in the section its record names: the
    nearest header above it is the header of that section, and no header
    is above a global key. *)
Definition scoped (m : IniMap) : Prop :=
  ∀ p r n sec k v,
    lines m !! p = Some r → heap m !! r = Some (LineValue n sec k v) →
    scope (heap m) (take p (lines m)) = sec.

(** The current section of the parse loop is the section in force after
    the last line. *)
Definition cursor_scope (m : IniMap) (cs : option loc) : Prop :=
  match cs with
  | Some s => ∃ n name map e, heap m !! s = Some (LineSection n name map e)
                              ∧ scope (heap m) (lines m) = Some name
  | None => scope (heap m) (lines m) = None
  end.

(** ** Content and structure of a model *)

(** What a model holds apart from the line break of its formatting. *)
Definition content (m : IniMap)
    : list Line * JsMap loc * JsMap loc * list loc * option bool :=
  (heap m, global m, sections m, lines m, pretty (formatting m)).

(** The model with another line break. *)
Definition with_lineBreak (m : IniMap) (lb : option jsstring) : IniMap :=
  with_formatting m {| lineBreak := lb; pretty := pretty (formatting m) |}.

(** Two results of a parse with the same content: both returned, or both
    threw the same error. *)
Definition same_outcome (a b : Completion) : Prop :=
  match a, b with
  | Return m1, Return m2 => content m1 = content m2
  | Throw e1 m1, Throw e2 m2 => e1 = e2 ∧ content m1 = content m2
  | _, _ => False
  end.

(** What a model holds apart from the values of its records. *)
Definition structure (m : IniMap)
    : list Line * JsMap loc * JsMap loc * list loc * FormattingOptions :=
  (set_val VUndefined <$> heap m, global m, sections m, lines m, formatting m).

(** Two results of a parse with the same structure: both returned, or
    both threw the same error. *)
Definition same_structure (a b : Completion) : Prop :=
  match a, b with
  | Return m1, Return m2 => structure m1 = structure m2
  | Throw e1 m1, Throw e2 m2 => e1 = e2 ∧ structure m1 = structure m2
  | _, _ => False
  end.

(** ** The section of a line of the text *)

(** The name a line gives the current section when it is a section
    header. *)
Definition header_name (line : jsstring) : option jsstring :=
  let t := trim line in
  if negb (isComment t) && first_is LBRACKET t then Some (inner t) else None.

(** The section in force after the lines [tokens], coming from [cur]: the
    name of the last header among them. *)
Definition section_after (cur : option jsstring) (tokens : list Token)
    : option jsstring :=
  fold_left (fun cur (t : Token) => match header_name t.1 with
                                    | Some s => Some s
                                    | None => cur
                                    end) tokens cur.

(** The current section of the parse loop is a record of the section
    [cur]. *)
Definition cursor_named (m : IniMap) (cs : option loc) (cur : option jsstring)
    : Prop :=
  match cs with
  | Some s => ∃ n name map e, heap m !! s = Some (LineSection n name map e)
                              ∧ cur = Some name
  | None => cur = None
  end.

(** * Properties *)

(** ** The line tokenizer *)

Section Tokenizer.

Lemma terminators_after_other c rest :
  (c =? LF)%N = false →
  terminators true (c :: rest) = terminators false (c :: rest).
Proof. intros Hc. cbn [terminators]. now rewrite Hc. Qed.

(** Both facts below go through the tokenizer's two-character step, so
    they are proved for all texts up to a length. *)
Lemma readTextLines_from_length_le n : ∀ text line,
  length text ≤ n →
  length (readTextLines_from text line) = S (terminators false text).
Proof.
  induction n as [|n IH]; intros text line Hn.
  - destruct text; [reflexivity | cbn in Hn; lia].
  - destruct text as [|c rest]; [reflexivity|].
    cbn in Hn. cbn [readTextLines_from terminators].
    destruct (c =? LF)%N eqn:ELF; destruct (c =? CR)%N eqn:ECR; cbn.
    + apply N.eqb_eq in ELF, ECR. subst c. discriminate.
    + rewrite IH by lia. reflexivity.
    + destruct rest as [|d rest']; [reflexivity|].
      destruct (d =? LF)%N eqn:EdLF; cbn [length].
      * rewrite IH by (cbn in Hn; lia).
        cbn [terminators]. rewrite EdLF. cbn.
        apply N.eqb_eq in EdLF. subst d. reflexivity.
      * rewrite IH by lia.
        f_equal. rewrite terminators_after_other by exact EdLF. lia.
    + rewrite IH by lia. reflexivity.
Qed.

Lemma token_text_cons line lb (rest : list Token) :
  concat (map token_text ((line, Some lb) :: rest))
  = line ++ lb ++ concat (map token_text rest).
Proof. cbn. unfold token_text at 1. cbn. now rewrite <- app_assoc. Qed.

Lemma readTextLines_from_concat_le n : ∀ text line,
  length text ≤ n →
  concat (map token_text (readTextLines_from text line)) = line ++ text.
Proof.
  induction n as [|n IH]; intros text line Hn.
  - destruct text; [cbn; now rewrite !app_nil_r | cbn in Hn; lia].
  - destruct text as [|c rest]; [cbn; now rewrite !app_nil_r|].
    cbn in Hn. cbn [readTextLines_from].
    destruct (c =? LF)%N eqn:ELF; destruct (c =? CR)%N eqn:ECR; cbn [orb].
    + apply N.eqb_eq in ELF, ECR. subst c. discriminate.
    + rewrite token_text_cons, IH by lia. reflexivity.
    + apply N.eqb_eq in ECR. subst c.
      destruct rest as [|d rest']; [cbn; unfold token_text; cbn; now rewrite !app_nil_r|].
      destruct (d =? LF)%N eqn:EdLF.
      * rewrite token_text_cons, IH by (cbn in Hn; lia).
        apply N.eqb_eq in EdLF. subst d. reflexivity.
      * rewrite token_text_cons, IH by lia. reflexivity.
    + rewrite IH by lia. now rewrite <- app_assoc.
Qed.
Lemma readTextLines_from_lines_le n : ∀ text line,
  length text ≤ n →
  terminator_free line →
  Forall (fun t : Token => terminator_free t.1) (readTextLines_from text line).
Proof.
  induction n as [|n IH]; intros text line Hn Hline.
  - destruct text; [repeat constructor; exact Hline | cbn in Hn; lia].
  - destruct text as [|c rest]; [repeat constructor; exact Hline|].
    cbn in Hn. cbn [readTextLines_from].
    assert (Hnil : terminator_free []) by constructor.
    destruct ((c =? LF)%N || (c =? CR)%N) eqn:E.
    + destruct (c =? CR)%N; [destruct rest as [|d rest']; [|destruct (d =? LF)%N]|];
        constructor; try exact Hline; apply IH; try exact Hnil; cbn in *; lia.
    + apply IH; [lia|]. apply Forall_app. split; [exact Hline|].
      constructor; [exact E | constructor].
Qed.

Lemma readTextLines_from_shape_le n : ∀ text line,
  length text ≤ n →
  ∃ init final,
    readTextLines_from text line = init ++ [(final, None)]
    ∧ Forall (fun t : Token => ∃ lb, t.2 = Some lb ∧ isTerminator lb) init.
Proof.
  induction n as [|n IH]; intros text line Hn.
  - destruct text; [|cbn in Hn; lia]. exists [], line. split; [reflexivity|constructor].
  - destruct text as [|c rest].
    { exists [], line. split; [reflexivity|constructor]. }
    cbn in Hn. cbn [readTextLines_from].
    destruct (c =? LF)%N eqn:ELF; destruct (c =? CR)%N eqn:ECR; cbn [orb].
    + apply N.eqb_eq in ELF, ECR. subst c. discriminate.
    + apply N.eqb_eq in ELF. subst c.
      destruct (IH rest [] ltac:(lia)) as (init & final & -> & Hinit).
      exists ((line, Some [LF]) :: init), final. split; [reflexivity|].
      constructor; [|exact Hinit]. exists [LF]. split; [reflexivity|]. now left.
    + apply N.eqb_eq in ECR. subst c.
      destruct rest as [|d rest'].
      * exists [(line, Some [CR])], []. split; [reflexivity|].
        repeat constructor. exists [CR]. split; [reflexivity|]. right; now left.
      * destruct (d =? LF)%N.
        -- destruct (IH rest' [] ltac:(cbn in Hn; lia)) as (init & final & -> & Hinit).
           exists ((line, Some [CR; LF]) :: init), final. split; [reflexivity|].
           constructor; [|exact Hinit]. exists [CR; LF]. split; [reflexivity|].
           right; now right.
        -- destruct (IH (d :: rest') [] ltac:(lia)) as (init & final & -> & Hinit).
           exists ((line, Some [CR]) :: init), final. split; [reflexivity|].
           constructor; [|exact Hinit]. exists [CR]. split; [reflexivity|].
           right; now left.
    + apply IH. lia.
Qed.

Lemma readTextLines_length text :
  length (readTextLines text) = S (terminators false text).
Proof. now apply (readTextLines_from_length_le (length text)). Qed.

Lemma readTextLines_concat text :
  concat (map token_text (readTextLines text)) = text.
Proof. now apply (readTextLines_from_concat_le (length text)). Qed.

Lemma readTextLines_lines text :
  Forall (fun t : Token => terminator_free t.1) (readTextLines text).
Proof. apply (readTextLines_from_lines_le (length text)); [lia|constructor]. Qed.

Lemma readTextLines_shape text :
  ∃ init final,
    readTextLines text = init ++ [(final, None)]
    ∧ Forall (fun t : Token => ∃ lb, t.2 = Some lb ∧ isTerminator lb) init.
Proof. now apply (readTextLines_from_shape_le (length text)). Qed.

End Tokenizer.

(** ** The parse loop *)

Section ParseLoop.

Variable reviver : ReviverFunction.

(** The loop over a concatenation of tokens runs the first part, then
    the second from the state and the line number it reached. *)
Lemma parseLines_app t1 : ∀ t2 m cs n,
  parseLines reviver m cs n (t1 ++ t2)
  = match parseLines reviver m cs n t1 with
    | inl e => inl e
    | inr (m1, cs1) =>
        parseLines reviver m1 cs1 (n + Z.of_nat (length t1)) t2
    end.
Proof.
  induction t1 as [|[line lb] t1 IH]; intros t2 m cs n.
  - cbn. now rewrite Z.add_0_r.
  - cbn [app parseLines].
    destruct (parseLine reviver m cs n line) as [e|[m1 cs1]]; [reflexivity|].
    rewrite IH. destruct (parseLines reviver _ cs1 _ t1) as [?|[m2 cs2]]; [reflexivity|].
    f_equal. cbn [length]. lia.
Qed.

(** A blank line is stored as an empty comment. *)
Lemma parseLine_blank m cs n :
  parseLine reviver m cs n []
  = inr (with_lines (with_heap m (heap m ++ [LineComment n []]))
           (lines m ++ [length (heap m)]), cs).
Proof. reflexivity. Qed.

End ParseLoop.

Section TokenizerTail.

Lemma readTextLines_from_plain text : ∀ line,
  terminator_free text →
  readTextLines_from text line = [(line ++ text, None)].
Proof.
  induction text as [|c rest IH]; intros line Hfree.
  - cbn. now rewrite app_nil_r.
  - inversion Hfree as [|? ? Hc Hrest]; subst.
    cbn [readTextLines_from]. unfold isTerminatorChar in Hc. rewrite Hc.
    rewrite IH by exact Hrest. now rewrite <- app_assoc.
Qed.

(** The line after a final terminator is empty. *)
Lemma readTextLines_trailing pre c :
  isTerminatorChar c = true →
  ∃ init, readTextLines (pre ++ [c]) = init ++ [([], None)].
Proof.
  intros Hc.
  destruct (readTextLines_shape (pre ++ [c])) as (init & final & Heq & _).
  exists init. rewrite Heq. do 3 f_equal.
  pose proof (readTextLines_concat (pre ++ [c])) as Hcat.
  pose proof (readTextLines_lines (pre ++ [c])) as Hfree.
  rewrite Heq in Hcat, Hfree.
  rewrite map_app, concat_app in Hcat.
  change (concat (map token_text [(final, None)])) with ((final ++ []) ++ []) in Hcat.
  rewrite !app_nil_r in Hcat.
  apply Forall_app in Hfree as [_ Hfinal].
  inversion Hfinal as [|? ? Hf _]; subst. cbn in Hf.
  destruct (rev final) as [|x rfinal] eqn:Erev.
  - apply (f_equal (@rev N)) in Erev. rewrite rev_involutive in Erev. exact Erev.
  - exfalso. apply (f_equal (@rev N)) in Erev. rewrite rev_involutive in Erev.
    cbn in Erev. subst final.
    rewrite app_assoc in Hcat. apply app_inj_tail in Hcat as [_ ->].
    apply Forall_app in Hf as [_ Hx]. inversion Hx as [|? ? Hx' _]; subst.
    congruence.
Qed.

End TokenizerTail.

Section TrailingComment.

(** C10.  The tokenizer yields one line per terminator and one more
    after the last: the number of lines is the number of terminators
    plus one, the lines joined with their terminators are the text, no
    line holds a terminator character, and a text without terminator is
    its own single line.  A text that ends with a terminator therefore
    has an empty last line, which a successful [parse] stores as an empty
    Comment record numbered after the last line; parsing ["a=1\n"] gives
    two records, the second the empty Comment of line 2. *)
Theorem readTextLines_one_line_per_terminator (text : jsstring) :
  length (readTextLines text) = terminators false text + 1
  ∧ concat (map token_text (readTextLines text)) = text
  ∧ (∃ init final,
       readTextLines text = init ++ [(final, None)]
       ∧ Forall (fun t : Token => ∃ lb, t.2 = Some lb ∧ isTerminator lb) init
       ∧ Forall (fun t : Token => terminator_free t.1) init
       ∧ terminator_free final)
  ∧ (terminator_free text → readTextLines text = [(text, None)])
  ∧ (∀ m reviver m' pre c,
       text = pre ++ [c] → isTerminatorChar c = true →
       parse m (JString text) reviver = Return m' →
       ∃ r, last (lines m') = Some r
            ∧ heap m' !! r
              = Some (LineComment (Z.of_nat (length (readTextLines text))) []))
  ∧ parse (new_IniMap noFormatting) (JString text_a1_newline) None
    = Return
        {| heap := [LineValue 1 None (js "a") (VNumber (Fin 1)); LineComment 2 []];
           global := [(js "a", 0)];
           sections := [];
           lines := [0; 1];
           formatting := {| lineBreak := Some [LF]; pretty := Some false |} |}.
Proof.
  split; [rewrite readTextLines_length; lia|].
  split; [apply readTextLines_concat|].
  split.
  { destruct (readTextLines_shape text) as (init & final & Heq & Hterm).
    pose proof (readTextLines_lines text) as Hfree. rewrite Heq in Hfree.
    apply Forall_app in Hfree as [Hinit Hfinal].
    exists init, final. repeat split; try assumption.
    now inversion Hfinal. }
  split; [intros Hfree; now apply (readTextLines_from_plain text [])|].
  split; [|vm_compute; reflexivity].
  intros m reviver m' pre c -> Hc Hparse.
  destruct (readTextLines_trailing pre c Hc) as (init & Heq).
  cbn [parse] in Hparse. rewrite Heq in Hparse |- *.
  rewrite parseLines_app in Hparse.
  destruct (parseLines _ m None 1 init) as [[e m1]|[m1 cs1]]; [discriminate|].
  cbn [parseLines] in Hparse. rewrite parseLine_blank in Hparse.
  cbn [resume] in Hparse. injection Hparse as <-.
  exists (length (heap m1)). cbn [lines heap with_lines with_heap]. split.
  - apply last_snoc.
  - rewrite list_lookup_middle by reflexivity.
    rewrite length_app. cbn [length].
    replace (Z.of_nat (length init + 1)) with (1 + Z.of_nat (length init))%Z by lia.
    reflexivity.
Qed.

Lemma readTextLines_one_line_per_terminator_witness :
  ∃ r, last (lines
               {| heap := [LineValue 1 None (js "a") (VNumber (Fin 1)); LineComment 2 []];
                  global := [(js "a", 0)];
                  sections := [];
                  lines := [0; 1];
                  formatting := {| lineBreak := Some [LF]; pretty := Some false |} |})
       = Some r
       ∧ [LineValue 1 None (js "a") (VNumber (Fin 1)); LineComment 2 []] !! r
         = Some (LineComment 2 []).
Proof.
  destruct (readTextLines_one_line_per_terminator text_a1_newline)
    as (_ & _ & _ & _ & H & Hrun).
  exact (H (new_IniMap noFormatting) None _ (js "a=1") LF eq_refl eq_refl Hrun).
Defined.

End TrailingComment.

(** ** String primitives against their list readings *)

Section StringFacts.

Lemma startsWith_char s c : startsWith s [c] = first_is c s.
Proof.
  destruct s as [|d s]; [reflexivity|]. cbn.
  rewrite N.eqb_sym. destruct s; now rewrite andb_true_r.
Qed.

Lemma endsWith_char s c : endsWith s [c] = last_is c s.
Proof.
  unfold endsWith, last_is. cbn [rev app]. rewrite startsWith_char.
  destruct s as [|d s] using rev_ind; [reflexivity|].
  rewrite rev_unit, last_snoc. reflexivity.
Qed.

Lemma indexOf_from_char_ge c s : ∀ i j,
  indexOf_from s [c] i = Some j → i ≤ j.
Proof.
  induction s as [|d s IH]; intros i j; cbn [indexOf_from].
  - rewrite startsWith_char. cbn. discriminate.
  - destruct (startsWith (d :: s) [c]); [intros [= <-]; lia|].
    intros H. apply IH in H. lia.
Qed.

Lemma indexOf_from_char_None c s : ∀ i,
  indexOf_from s [c] i = None ↔ existsb (fun d => (d =? c)%N) s = false.
Proof.
  induction s as [|d s IH]; intros i; cbn [indexOf_from existsb].
  - rewrite startsWith_char. cbn. tauto.
  - rewrite startsWith_char. cbn [first_is].
    destruct (d =? c)%N; cbn; [split; discriminate|]. apply IH.
Qed.

(** [indexOf] finds the first occurrence: the code units before it are
    all different from [c]. *)
Lemma indexOf_from_char_Some c s : ∀ i j,
  indexOf_from s [c] i = Some j →
  ∃ before after,
    s = before ++ c :: after
    ∧ Forall (fun d => d ≠ c) before
    ∧ j = i + length before.
Proof.
  induction s as [|d s IH]; intros i j; cbn [indexOf_from].
  - rewrite startsWith_char. cbn. discriminate.
  - rewrite startsWith_char. cbn [first_is].
    destruct (d =? c)%N eqn:E.
    + intros [= <-]. apply N.eqb_eq in E. subst d.
      exists [], s. repeat split; [constructor | cbn; lia].
    + intros H. apply IH in H as (before & after & -> & Hb & ->).
      apply N.eqb_neq in E.
      exists (d :: before), after. repeat split; [now constructor | cbn; lia].
Qed.

Lemma indexOf_char_missing c s :
  indexOf s [c] = (-1)%Z ↔ existsb (fun d => (d =? c)%N) s = false.
Proof.
  unfold indexOf. rewrite <- (indexOf_from_char_None c s 0).
  destruct (indexOf_from s [c] 0); split; try discriminate; try reflexivity; lia.
Qed.

Lemma indexOf_char_found c s :
  indexOf s [c] ≠ (-1)%Z →
  ∃ before after,
    s = before ++ c :: after
    ∧ Forall (fun d => d ≠ c) before
    ∧ indexOf s [c] = Z.of_nat (length before).
Proof.
  unfold indexOf. destruct (indexOf_from s [c] 0) as [j|] eqn:E; [|congruence].
  intros _. apply indexOf_from_char_Some in E as (before & after & -> & Hb & ->).
  exists before, after. split; [reflexivity|]. split; [exact Hb|]. reflexivity.
Qed.

Lemma substring_prefix before c after :
  substring (before ++ c :: after) 0 (Z.of_nat (length before)) = before.
Proof.
  unfold substring, clamp. cbn [Z.to_nat]. rewrite Nat2Z.id, length_app.
  rewrite Nat.min_0_l. cbn [length].
  rewrite (Nat.min_l (length before)) by lia.
  rewrite Nat.min_0_l, Nat.max_0_l, Nat.sub_0_r, drop_0.
  now rewrite take_app_length.
Qed.

Lemma substring_from_suffix before (c : N) after :
  substring_from (before ++ c :: after) (Z.of_nat (length before) + 1) = after.
Proof.
  unfold substring_from, clamp.
  replace (Z.to_nat (Z.of_nat (length before) + 1)) with (S (length before)) by lia.
  rewrite length_app. cbn [length]. rewrite Nat.min_l by lia.
  replace (S (length before)) with (length (before ++ [c]))
    by (rewrite length_app; cbn; lia).
  rewrite (cons_middle c before after), app_assoc. apply drop_app_length.
Qed.

Lemma substring_inner s :
  2 ≤ length s →
  substring s 1 (Z.of_nat (length s) - 1) = inner s.
Proof.
  intros Hlen. unfold substring, clamp, inner.
  replace (Z.to_nat 1) with 1 by reflexivity.
  replace (Z.to_nat (Z.of_nat (length s) - 1)) with (length s - 1) by lia.
  rewrite !Nat.min_l by lia. rewrite Nat.max_r by lia.
  destruct s as [|a s]; [cbn in Hlen; lia|]. cbn [tail drop length].
  rewrite removelast_firstn_len. f_equal. cbn. lia.
Qed.

Lemma slice_inner s :
  1 ≤ length s → slice s 1 (-1) = inner s.
Proof.
  intros Hlen. unfold slice, relative, inner. cbn [Z.ltb Z.compare].
  replace (Z.to_nat 1) with 1 by reflexivity.
  rewrite Nat.min_l by lia.
  replace (Z.to_nat (Z.max (Z.of_nat (length s) + -1) 0)) with (length s - 1) by lia.
  destruct s as [|a s]; [cbn in Hlen; lia|]. cbn [tail drop length].
  rewrite removelast_firstn_len. f_equal. cbn. lia.
Qed.

Lemma hasNonWhiteSpace_forallb s :
  hasNonWhiteSpace s = negb (forallb isWhiteSpace s).
Proof.
  unfold hasNonWhiteSpace. induction s as [|c s IH]; [reflexivity|].
  cbn. rewrite IH. now destruct (isWhiteSpace c).
Qed.

Lemma first_last_length a b s :
  a ≠ b → first_is a s = true → last_is b s = true → 2 ≤ length s.
Proof.
  intros Hab Ha Hb. destruct s as [|x [|y s]]; cbn in *; try discriminate; [|lia].
  unfold last_is in Hb. cbn in Hb.
  apply N.eqb_eq in Ha, Hb. congruence.
Qed.

End StringFacts.

(** ** Malformed lines *)

Section Malformed.

Variable reviver : ReviverFunction.

(** One turn of the loop throws exactly on a malformed line. *)
Lemma parseLine_malformation m cs n line :
  match malformation (trim line) with
  | Some k =>
      parseLine reviver m cs n line
      = inl (SyntaxError (malformation_message k n))
  | None => ∃ m' cs', parseLine reviver m cs n line = inr (m', cs')
  end.
Proof.
  unfold malformation, parseLine.
  destruct (isComment (trim line)) eqn:Ecomment.
  { cbn. eauto. }
  destruct (trim line) as [|c t] eqn:Et; [discriminate Ecomment|].
  unfold isSection. change (js "[") with [LBRACKET]. change (js "]") with [RBRACKET].
  rewrite startsWith_char, endsWith_char. cbn [first_is].
  destruct (c =? LBRACKET)%N eqn:Ebracket.
  - destruct (last_is RBRACKET (c :: t)) eqn:Elast; cbn [negb]; [|reflexivity].
    rewrite substring_inner, hasNonWhiteSpace_forallb, negb_involutive.
    2:{ apply (first_last_length LBRACKET RBRACKET); [discriminate| |exact Elast].
        exact Ebracket. }
    destruct (forallb isWhiteSpace (inner (c :: t))); [reflexivity|].
    cbn. eauto.
  - change (js "=") with [EQUALS].
    destruct (existsb (fun d => (d =? EQUALS)%N) (c :: t)) eqn:Eeq; cbn [negb].
    + assert (Hfound : indexOf (c :: t) [EQUALS] ≠ (-1)%Z).
      { intros H. apply indexOf_char_missing in H. congruence. }
      destruct (indexOf_char_found _ _ Hfound) as (before & after & Hsplit & Hb & Hpos).
      rewrite Hpos.
      replace (Z.of_nat (length before) =? -1)%Z with false by (symmetry; lia).
      destruct before as [|b before].
      * cbn in Hsplit. injection Hsplit as -> ->. reflexivity.
      * cbn in Hsplit. injection Hsplit as -> ->.
        inversion Hb as [|? ? Hne _]; subst.
        apply N.eqb_neq in Hne. rewrite Hne.
        assert (Hpos0 : (Z.of_nat (length (b :: before)) =? 0)%Z = false)
          by (apply Z.eqb_neq; cbn [length]; lia).
        rewrite Hpos0.
        destruct cs; cbn; eauto.
    + apply indexOf_char_missing in Eeq. rewrite Eeq. reflexivity.
Qed.

Lemma parseLines_well_formed tokens : ∀ m cs n,
  Forall (fun t : Token => malformation (trim t.1) = None) tokens →
  ∃ m' cs', parseLines reviver m cs n tokens = inr (m', cs').
Proof.
  induction tokens as [|[line lb] tokens IH]; intros m cs n Hall.
  - cbn. eauto.
  - inversion Hall as [|? ? Hline Hrest]; subst. cbn [fst] in Hline.
    pose proof (parseLine_malformation m cs n line) as H. rewrite Hline in H.
    destruct H as (m1 & cs1 & H). cbn [parseLines]. rewrite H.
    apply IH. exact Hrest.
Qed.

Lemma parseLines_first_malformed (pre : list Token) :
  ∀ (bad : Token) (post : list Token) k m cs n,
  Forall (fun t : Token => malformation (trim t.1) = None) pre →
  malformation (trim bad.1) = Some k →
  ∃ m', parseLines reviver m cs n (pre ++ bad :: post)
        = inl (SyntaxError (malformation_message k (n + Z.of_nat (length pre))), m').
Proof.
  intros [bad lb] post k m cs n Hpre Hbad. cbn [fst] in Hbad.
  rewrite parseLines_app.
  destruct (parseLines_well_formed pre m cs n Hpre) as (m1 & cs1 & ->).
  cbn [parseLines].
  pose proof (parseLine_malformation m1 cs1 (n + Z.of_nat (length pre)) bad) as H.
  rewrite Hbad in H. rewrite H. eauto.
Qed.

End Malformed.

Section ParseErrors.

Lemma first_malformed (tokens : list Token) :
  Forall well_formed_token tokens
  ∨ ∃ pre bad post k,
      tokens = pre ++ bad :: post
      ∧ Forall well_formed_token pre
      ∧ malformation (trim bad.1) = Some k.
Proof.
  induction tokens as [|t tokens IH]; [left; constructor|].
  destruct (malformation (trim t.1)) as [k|] eqn:E.
  - right. exists [], t, tokens, k. split; [reflexivity|]. split; [constructor|exact E].
  - destruct IH as [Hall|(pre & bad & post & k & -> & Hpre & Hbad)].
    + left. now constructor.
    + right. exists (t :: pre), bad, post, k.
      split; [reflexivity|]. split; [now constructor|exact Hbad].
Qed.

(** C4.  [parse] of a string throws exactly when one of its trimmed lines
    is malformed, and then it throws a [SyntaxError] for the first such
    line whose message ends with that line's 1-based number (and, for a
    line without [=], names the line's first character); when no line is
    malformed it returns the model.  ["[section\nkey=1"] fails at line 1
    and so does ["keyonly"], naming [k]. *)
Theorem parse_throws_on_first_malformed_line
    (m : IniMap) (text : jsstring) (reviver : option ReviverFunction) :
  (Forall well_formed_token (readTextLines text) →
   ∃ m', parse m (JString text) reviver = Return m')
  ∧ (∀ pre bad post k,
       readTextLines text = pre ++ bad :: post →
       Forall well_formed_token pre →
       malformation (trim bad.1) = Some k →
       ∃ m', parse m (JString text) reviver
             = Throw (SyntaxError
                        (malformation_message k (Z.of_nat (length pre) + 1))) m')
  ∧ ((∃ e m', parse m (JString text) reviver = Throw e m')
     ↔ Exists (fun t : Token => malformation (trim t.1) ≠ None) (readTextLines text))
  ∧ (∀ k n, ∃ prefix, malformation_message k n = prefix ++ int_to_string n)
  ∧ (∀ t c, malformation t = Some (MissingAssignment c) → first_is c t = true)
  ∧ parse (new_IniMap noFormatting) (JString text_unterminated) None
    = Throw (SyntaxError (js "Unexpected end of INI section at line 1"))
        (new_IniMap noFormatting)
  ∧ parse (new_IniMap noFormatting) (JString (js "keyonly")) None
    = Throw (SyntaxError (js "Unexpected token k in INI at line 1"))
        (new_IniMap noFormatting).
Proof.
  assert (Hok : Forall well_formed_token (readTextLines text) →
                ∃ m', parse m (JString text) reviver = Return m').
  { intros Hall. cbn [parse].
    destruct (parseLines_well_formed (default defaultReviver reviver) _ m None 1 Hall)
      as (m' & cs' & ->). eauto. }
  assert (Hbad : ∀ pre bad post k,
       readTextLines text = pre ++ bad :: post →
       Forall well_formed_token pre →
       malformation (trim bad.1) = Some k →
       ∃ m', parse m (JString text) reviver
             = Throw (SyntaxError
                        (malformation_message k (Z.of_nat (length pre) + 1))) m').
  { intros pre bad post k Heq Hpre Hk. cbn [parse]. rewrite Heq.
    destruct (parseLines_first_malformed (default defaultReviver reviver)
                pre bad post k m None 1 Hpre Hk) as (m' & Hthrow).
    exists m'. rewrite Hthrow. now rewrite Z.add_comm. }
  split; [exact Hok|]. split; [exact Hbad|]. split.
  { split.
    - intros (e & m' & Hthrow).
      destruct (first_malformed (readTextLines text))
        as [Hall|(pre & bad & post & k & Heq & _ & Hk)].
      + destruct (Hok Hall) as (m'' & Hret). congruence.
      + rewrite Heq. apply Exists_app. right. constructor. congruence.
    - intros Hex.
      destruct (first_malformed (readTextLines text))
        as [Hall|(pre & bad & post & k & Heq & Hpre & Hk)].
      + exfalso. apply Exists_exists in Hex as (t & Hin & Ht).
        rewrite Forall_forall in Hall. apply Ht, Hall, Hin.
      + destruct (Hbad pre bad post k Heq Hpre Hk) as (m' & Hthrow). eauto. }
  split.
  { intros [] n; cbn [malformation_message]; rewrite ?app_assoc; eauto. }
  split; [|split; vm_compute; reflexivity].
  intros t c. unfold malformation.
  destruct (isComment t); [discriminate|].
  destruct t as [|d t]; [discriminate|].
  destruct (d =? LBRACKET)%N.
  - destruct (negb _); [discriminate|]. destruct (forallb _ _); discriminate.
  - destruct (negb _); [intros [= ->]; apply N.eqb_refl|].
    destruct (d =? EQUALS)%N; discriminate.
Qed.

Lemma parse_throws_on_first_malformed_line_witness :
  ∃ m', parse (new_IniMap noFormatting) (JString (js "a=1" ++ [LF] ++ js "oops")) None
        = Throw (SyntaxError (js "Unexpected token o in INI at line 2")) m'.
Proof.
  destruct (parse_throws_on_first_malformed_line (new_IniMap noFormatting)
              (js "a=1" ++ [LF] ++ js "oops") None) as (_ & H & _).
  apply (H [(js "a=1", Some [LF])] (js "oops", None) [] (MissingAssignment 111%N)).
  - reflexivity.
  - repeat constructor.
  - reflexivity.
Defined.

End ParseErrors.

(** ** What one turn of the parse loop does *)

Section ParseLineCases.

Variable reviver : ReviverFunction.

Lemma leftOf_split c before after :
  Forall (fun d => d ≠ c) before → leftOf c (before ++ c :: after) = before.
Proof.
  induction 1 as [|d before Hd _ IH]; cbn.
  - now rewrite N.eqb_refl.
  - apply N.eqb_neq in Hd. now rewrite Hd, IH.
Qed.

Lemma rightOf_split c before after :
  Forall (fun d => d ≠ c) before → rightOf c (before ++ c :: after) = after.
Proof.
  induction 1 as [|d before Hd _ IH]; cbn.
  - now rewrite N.eqb_refl.
  - apply N.eqb_neq in Hd. now rewrite Hd, IH.
Qed.

(** The outcome of a turn that does not throw. *)
Lemma parseLine_returns m cs n line m' cs' :
  parseLine reviver m cs n line = inr (m', cs') →
  let t := trim line in
  (isComment t = true ∧ m' = push_comment m n t ∧ cs' = cs)
  ∨ (isComment t = false ∧ first_is LBRACKET t = true
     ∧ hasNonWhiteSpace (inner t) = true
     ∧ m' = push_section m n (inner t) ∧ cs' = Some (length (heap m)))
  ∨ (isKeyValueLine t = true
     ∧ m' = push_value reviver (infer_pretty m (padded t)) cs n
              (trim (leftOf EQUALS t)) (trim (rightOf EQUALS t))
     ∧ cs' = cs).
Proof.
  intros H t. unfold parseLine in H. fold t in H. unfold isKeyValueLine.
  destruct (isComment t) eqn:Ecomment.
  { left. cbn in H. injection H as <- <-. auto. }
  right. unfold isSection in H.
  change (js "[") with [LBRACKET] in H. change (js "]") with [RBRACKET] in H.
  rewrite startsWith_char, endsWith_char in H.
  destruct (first_is LBRACKET t) eqn:Ebracket.
  - left. destruct (last_is RBRACKET t) eqn:Elast; [|discriminate].
    rewrite substring_inner in H
      by (apply (first_last_length LBRACKET RBRACKET); [discriminate|assumption..]).
    destruct (hasNonWhiteSpace (inner t)) eqn:Ename; [|discriminate].
    cbn in H. injection H as <- <-. auto.
  - right. change (js "=") with [EQUALS] in H.
    destruct (indexOf t [EQUALS] =? -1)%Z eqn:Emissing; [discriminate|].
    apply Z.eqb_neq in Emissing.
    destruct (indexOf_char_found _ _ Emissing) as (before & after & Hsplit & Hb & Hpos).
    rewrite Hpos in H.
    destruct (Z.of_nat (length before) =? 0)%Z; [discriminate|].
    rewrite Hsplit in H. rewrite substring_prefix, substring_from_suffix in H.
    unfold padded. rewrite Hsplit, leftOf_split, rightOf_split by exact Hb.
    rewrite <- endsWith_char, <- startsWith_char.
    split; [reflexivity|].
    unfold push_value, infer_pretty.
    destruct cs as [s|]; cbn in H |- *.
    + destruct (pretty (formatting m)); injection H as <- <-; auto.
    + destruct (pretty (formatting m)); injection H as <- <-; auto.
Qed.

End ParseLineCases.

(** ** Inference of the pretty flag *)

Section PrettyInference.

Lemma pretty_resume m lb : pretty (formatting (resume m lb)) = pretty (formatting m).
Proof. destruct lb; cbn; [destruct (truthy _)|]; reflexivity. Qed.

Lemma pretty_push_value rv m cs n key value :
  pretty (formatting (push_value rv m cs n key value)) = pretty (formatting m).
Proof. destruct cs; reflexivity. Qed.

Lemma parseLines_pretty rv tokens : ∀ m cs n m' cs',
  parseLines rv m cs n tokens = inr (m', cs') →
  pretty (formatting m') = inferred_pretty (pretty (formatting m)) tokens.
Proof.
  induction tokens as [|[line lb] tokens IH]; intros m cs n m' cs' H.
  - cbn in H. injection H as <- <-. unfold inferred_pretty.
    now destruct (pretty (formatting m)).
  - cbn [parseLines] in H.
    destruct (parseLine rv m cs n line) as [e|[m1 cs1]] eqn:Eline; [discriminate|].
    apply IH in H. rewrite pretty_resume in H. rewrite H. clear H.
    apply parseLine_returns in Eline. cbn zeta in Eline.
    unfold inferred_pretty, first_key_value. cbn [find fst].
    unfold isKeyValueLine in *.
    destruct Eline as [(Hc & -> & _)|[(Hc & Hb & _ & -> & _)|(Hkv & -> & _)]].
    + rewrite Hc. cbn. reflexivity.
    + rewrite Hc, Hb. cbn. reflexivity.
    + rewrite Hkv, pretty_push_value. unfold infer_pretty.
      destruct (pretty (formatting m)) eqn:Ep; cbn; rewrite ?Ep; reflexivity.
Qed.

(** C7.  After a successful [parse] the pretty flag is the one that was
    configured, if any; otherwise it is the one the first key/value line
    shows, true iff the text left of its [=] (before it is trimmed into
    the key) ends with a space and the text right of it (before it is
    trimmed into the value) begins with one; a text without key/value
    line leaves the flag unset, and later key/value lines play no part.
    ["key = value"] gives true and ["key=value"] false. *)
Theorem parse_infers_pretty_from_first_key_value
    (m m' : IniMap) (text : jsstring) (reviver : option ReviverFunction) :
  parse m (JString text) reviver = Return m' →
  pretty (formatting m')
  = match pretty (formatting m) with
    | Some b => Some b
    | None => padded <$> first_key_value (readTextLines text)
    end
  ∧ (∀ t, padded t = last_is SPACE (leftOf EQUALS t)
                     && first_is SPACE (rightOf EQUALS t))
  ∧ (∃ m1, parse (new_IniMap noFormatting) (JString (js "key = value")) None
           = Return m1 ∧ pretty (formatting m1) = Some true)
  ∧ (∃ m2, parse (new_IniMap noFormatting) (JString (js "key=value")) None
           = Return m2 ∧ pretty (formatting m2) = Some false).
Proof.
  intros H. split; [|split; [reflexivity|split; eexists; split; vm_compute; reflexivity]].
  cbn [parse] in H.
  destruct (parseLines _ m None 1 (readTextLines text)) as [[e m1]|[m1 cs1]] eqn:E;
    [discriminate|].
  injection H as <-. apply parseLines_pretty in E. exact E.
Qed.

Lemma parse_infers_pretty_from_first_key_value_witness :
  pretty (formatting
            {| heap := [LineComment 1 (js "# note");
                        LineValue 2 None (js "a") (VNumber (Fin 1));
                        LineValue 3 None (js "b") (VNumber (Fin 2))];
               global := [(js "a", 1); (js "b", 2)];
               sections := [];
               lines := [0; 1; 2];
               formatting := {| lineBreak := Some [LF]; pretty := Some true |} |})
  = padded <$> first_key_value
                 (readTextLines (js "# note" ++ [LF] ++ js "a = 1" ++ [LF] ++ js "b=2")).
Proof.
  apply (parse_infers_pretty_from_first_key_value (new_IniMap noFormatting) _ _ None).
  reflexivity.
Defined.

End PrettyInference.

(** ** Frame properties of the renumbering *)

Section Frame.

Lemma shape_set_num n l : shape (set_num n l) = shape l.
Proof. now destruct l. Qed.

Lemma shape_add_num op l : shape (add_num op l) = shape l.
Proof. now destruct l. Qed.

Lemma shape_add_end op l : shape (add_end op l) = shape l.
Proof. now destruct l. Qed.

Lemma shape_set_end e l : shape (set_end e l) = shape l.
Proof. now destruct l. Qed.

Lemma shapes_alter (f : Line → Line) r (h : list Line) :
  (∀ l, shape (f l) = shape l) →
  shape <$> alter f r h = shape <$> h.
Proof.
  intros Hf. revert r. induction h as [|x h IH]; intros [|r]; cbn; try reflexivity.
  - now rewrite Hf.
  - f_equal. apply IH.
Qed.

Lemma shift_step_shapes secs op h u r :
  shape <$> (shift_step secs op (h, u) r).1 = shape <$> h.
Proof.
  unfold shift_step. destruct (h !! r) as [line|]; [|reflexivity].
  destruct (isSectionLine line); cbn.
  - rewrite !shapes_alter; auto using shape_add_num, shape_add_end.
  - destruct u; cbn; [|apply shapes_alter, shape_add_num].
    destruct line as [| |? [[|]|] ? ?]; cbn;
      try (apply shapes_alter, shape_add_num).
    destruct (map_get secs _); cbn;
      rewrite ?shapes_alter; auto using shape_add_num, shape_add_end.
Qed.

Lemma fold_shift_shapes secs op rs : ∀ h u,
  shape <$> (fold_left (shift_step secs op) rs (h, u)).1 = shape <$> h.
Proof.
  induction rs as [|r rs IH]; intros h u; [reflexivity|].
  cbn [fold_left]. destruct (shift_step secs op (h, u) r) as [h1 u1] eqn:E.
  rewrite IH. pose proof (shift_step_shapes secs op h u r) as H.
  now rewrite E in H.
Qed.

Lemma length_splice_insert {A} (a : list A) start x :
  length (splice_insert a start x) = S (length a).
Proof.
  unfold splice_insert. rewrite length_app. cbn [length].
  rewrite Nat.add_succ_r, <- length_app, take_drop. reflexivity.
Qed.

(** What [#appendOrDeleteLine] leaves alone when it adds a line. *)
Lemma appendOrDeleteLine_add_frame m input :
  is_Some (heap m !! input) →
  let m' := appendOrDeleteLine m input Add in
  shape <$> heap m' = shape <$> heap m
  ∧ length (lines m') = S (length (lines m))
  ∧ global m' = global m
  ∧ sections m' = sections m
  ∧ formatting m' = formatting m.
Proof.
  intros [inp Hinp]. unfold appendOrDeleteLine. rewrite Hinp. cbn zeta.
  destruct (fold_left _ _ _) as [h u] eqn:E. cbn.
  split; [|split; [apply length_splice_insert|auto]].
  pose proof (fold_shift_shapes (sections m) (op_value Add)
                (slice_from (splice_insert (lines m) (line_num inp - 1) input)
                   (line_num inp))
                (heap m) (isCommentLine inp)) as H.
  now rewrite E in H.
Qed.

Lemma appendValue_frame m lineValue :
  is_Some (heap m !! lineValue) →
  let m' := appendValue m lineValue in
  shape <$> heap m' = shape <$> heap m
  ∧ length (lines m') = S (length (lines m))
  ∧ global m' = global m
  ∧ sections m' = sections m
  ∧ formatting m' = formatting m.
Proof.
  intros Hsome. unfold appendValue.
  destruct (bool_decide (length (lines m) = 0)).
  { cbn. split; [apply shapes_alter, shape_set_num|].
    split; [rewrite length_app; cbn; lia|auto]. }
  destruct (truthy _).
  { now apply appendOrDeleteLine_add_frame. }
  set (num := match first_section _ _ _ with Some i => _ | None => _ end).
  assert (Hsome' : is_Some (heap (update m lineValue (set_num num)) !! lineValue)).
  { destruct Hsome as [x Hx]. unfold update. cbn [heap with_heap].
    rewrite list_lookup_alter_eq. rewrite Hx. now eexists. }
  destruct (appendOrDeleteLine_add_frame _ _ Hsome') as (Hshape & Hlen & Hg & Hs & Hf).
  cbn zeta in *. rewrite Hshape, Hlen, Hg, Hs, Hf. cbn.
  split; [apply shapes_alter, shape_set_num|auto].
Qed.

(** A record is known up to its number and end from its shape. *)
Lemma lookup_shape (h h' : list Line) r l :
  shape <$> h' = shape <$> h → h !! r = Some l →
  ∃ l', h' !! r = Some l' ∧ shape l' = shape l.
Proof.
  intros Heq Hl.
  assert (H : (shape <$> h') !! r = Some (shape l))
    by (rewrite Heq, list_lookup_fmap, Hl; reflexivity).
  rewrite list_lookup_fmap in H.
  destruct (h' !! r) as [l'|]; [|discriminate].
  injection H as H. eauto.
Qed.

Lemma shape_value l n sec key val :
  shape l = shape (LineValue n sec key val) →
  ∃ n', l = LineValue n' sec key val.
Proof. destruct l; cbn; intros [=]; subst; eauto. Qed.

Lemma shape_section l n sec map e :
  shape l = shape (LineSection n sec map e) →
  ∃ n' e', l = LineSection n' sec map e'.
Proof. destruct l; cbn; intros [=]; subst; eauto. Qed.

Lemma map_get_set_eq {V} (m : JsMap V) k v : map_get (map_set m k v) k = Some v.
Proof.
  induction m as [|[k' v'] m IH]; cbn.
  - unfold str_eqb. now rewrite bool_decide_eq_true_2.
  - destruct (str_eqb k' k) eqn:E; cbn; rewrite E; [reflexivity|exact IH].
Qed.

Lemma map_get_set_ne {V} (m : JsMap V) k k' v :
  k ≠ k' → map_get (map_set m k v) k' = map_get m k'.
Proof.
  intros Hne. induction m as [|[k0 v0] m IH]; cbn.
  - unfold str_eqb. now rewrite bool_decide_eq_false_2.
  - destruct (str_eqb k0 k) eqn:E; cbn.
    + apply bool_decide_eq_true_1 in E. subst k0.
      unfold str_eqb. now rewrite bool_decide_eq_false_2.
    + destruct (str_eqb k0 k'); [reflexivity|exact IH].
Qed.

End Frame.

(** ** The overloads of [set] *)

Section SetDispatch.

Lemma alloc_lookup m l : heap (alloc m l).1 !! (alloc m l).2 = Some l.
Proof. cbn. now apply list_lookup_middle. Qed.

(** The global branch adds a line whatever the model holds. *)
Lemma set_global_frame m key value :
  let m' := set_global m key value in
  length (lines m') = S (length (lines m))
  ∧ sections m' = sections m
  ∧ formatting m' = formatting m
  ∧ global m' = map_set (global m) key (length (heap m))
  ∧ shape <$> heap m' = shape <$> (heap m ++ [LineValue 0 None key value]).
Proof.
  unfold set_global. cbn [alloc].
  set (m1 := with_heap m (heap m ++ [LineValue 0 None key value])).
  assert (Hsome : is_Some (heap m1 !! length (heap m))).
  { exists (LineValue 0 None key value). now apply list_lookup_middle. }
  destruct (appendValue_frame m1 _ Hsome) as (Hshape & Hlen & Hg & Hs & Hf).
  cbn zeta in *. cbn. rewrite Hlen, Hs, Hf, Hg, Hshape. auto.
Qed.

(** C8.  [set(s, k, undefined)] takes the global branch: it is the call
    [set(s, k)], which stores the string [k] under the global key [s] in
    one new Value record.  Nothing of a section is touched: the section
    map is left as it was, so no section is created; the key map of every
    section record is unchanged, so no key is created in a section; and
    every Value record that was there keeps its section, its key and its
    value, so no key is updated.  In particular a key [k] the section [s]
    holds is still held by the same record, with the value it had. *)
Theorem set_undefined_value_sets_global_key (m : IniMap) (s k : jsstring) :
  let m' := set m s (VString k) VUndefined in
  m' = set_global m s (VString k)
  ∧ sections m' = sections m
  ∧ (∃ r n, map_get (global m') s = Some r
            ∧ heap m' !! r = Some (LineValue n None s (VString k)))
  ∧ (∀ r n sec map e,
       heap m !! r = Some (LineSection n sec map e) →
       ∃ n' e', heap m' !! r = Some (LineSection n' sec map e'))
  ∧ length (lines m') = S (length (lines m))
  ∧ length (heap m') = S (length (heap m))
  ∧ map_get (global m') s = Some (length (heap m))
  ∧ (∀ r n sec key val,
       heap m !! r = Some (LineValue n sec key val) →
       ∃ n', heap m' !! r = Some (LineValue n' sec key val))
  ∧ (∀ ls n map e r n0 v0,
       map_get (sections m) s = Some ls →
       heap m !! ls = Some (LineSection n s map e) →
       map_get map k = Some r →
       heap m !! r = Some (LineValue n0 (Some s) k v0) →
       ∃ n' e' n0',
         map_get (sections m') s = Some ls
         ∧ heap m' !! ls = Some (LineSection n' s map e')
         ∧ heap m' !! r = Some (LineValue n0' (Some s) k v0)).
Proof.
  cbn zeta. change (set m s (VString k) VUndefined) with (set_global m s (VString k)).
  destruct (set_global_frame m s (VString k)) as (Hlen & Hs & _ & Hg & Hshape).
  cbn zeta in *.
  assert (Hsection : ∀ r n sec map e,
            heap m !! r = Some (LineSection n sec map e) →
            ∃ n' e', heap (set_global m s (VString k)) !! r
                     = Some (LineSection n' sec map e')).
  { intros r n sec map e Hr.
    destruct (lookup_shape _ _ r (LineSection n sec map e) Hshape) as (l' & Hl' & Hsh).
    { apply lookup_app_l_Some. exact Hr. }
    apply shape_section in Hsh as (n' & e' & ->). eauto. }
  assert (Hvalue : ∀ r n sec key val,
            heap m !! r = Some (LineValue n sec key val) →
            ∃ n', heap (set_global m s (VString k)) !! r
                  = Some (LineValue n' sec key val)).
  { intros r n sec key val Hr.
    destruct (lookup_shape _ _ r (LineValue n sec key val) Hshape) as (l' & Hl' & Hsh).
    { apply lookup_app_l_Some. exact Hr. }
    apply shape_value in Hsh as (n' & ->). eauto. }
  split; [reflexivity|]. split; [exact Hs|].
  split; [|split; [exact Hsection|split; [exact Hlen|]]].
  - exists (length (heap m)). rewrite Hg, map_get_set_eq.
    destruct (lookup_shape _ _ (length (heap m)) _ Hshape
                (list_lookup_middle _ _ _ _ eq_refl)) as (l' & Hl' & Hsh).
    apply shape_value in Hsh as (n' & ->). eauto.
  - split; [|split; [|split; [exact Hvalue|]]].
    + apply (f_equal length) in Hshape.
      rewrite !length_fmap, length_app in Hshape. cbn [length] in Hshape. lia.
    + rewrite Hg. apply map_get_set_eq.
    + intros ls n map e r n0 v0 Hls Hrec Hkey Hr.
      destruct (Hsection _ _ _ _ _ Hrec) as (n' & e' & Hrec').
      destruct (Hvalue _ _ _ _ _ Hr) as (n0' & Hr').
      exists n', e', n0'. rewrite Hs. auto.
Qed.

(** C1, the global branch.  [set(key, value)] never looks the key up: it
    appends a new Value line also when the key is already set, so a second
    [set("a", 1)] leaves two lines for [a] where the first left one. *)
Theorem set_global_existing_key_adds_line (m : IniMap) (key : jsstring) (value : IniValue) :
  length (lines (set m key value VUndefined)) = S (length (lines m))
  ∧ (let m1 := set (new_IniMap noFormatting) (js "a") one VUndefined in
     let m2 := set m1 (js "a") one VUndefined in
     map_get (global m1) (js "a") = Some 0
     ∧ lines m1 = [0]
     ∧ lines m2 = [0; 1]
     ∧ heap m2 = [LineValue 1 None (js "a") one; LineValue 2 None (js "a") one]
     ∧ map_get (global m2) (js "a") = Some 1).
Proof.
  split; [|cbn zeta; repeat split; vm_compute; reflexivity].
  assert (E : set m key value VUndefined = set_global m key value)
    by (destruct value; reflexivity).
  rewrite E. apply set_global_frame.
Qed.

(** The section branch, by contrast, looks the key up: an existing key of
    a section has its value replaced in its record and nothing else
    changes. *)
Lemma set_section_existing_key m s k v section n sec map e r :
  v ≠ VUndefined →
  map_get (sections m) s = Some section →
  heap m !! section = Some (LineSection n sec map e) →
  map_get map k = Some r →
  set m s (VString k) v = update m r (set_val v).
Proof.
  intros Hv Hs Hsec Hk.
  assert (E : set m s (VString k) v = set_section m s k v)
    by (destruct v; [reflexivity..|congruence]).
  rewrite E. unfold set_section, getOrCreateSection. now rewrite Hs, Hsec, Hk.
Qed.

End SetDispatch.

(** ** Input that is not a string *)

Section NonString.

(** C5, as the code has it.  [parse] of a value that is not a string
    throws before it touches the model; what it throws is a [SyntaxError]
    naming the value and line 0, for every value a template literal can
    turn into text, and otherwise whatever that conversion throws. *)
Theorem parse_non_string_throws_syntax_error
    (m : IniMap) (v : JsValue) (reviver : option ReviverFunction) :
  (∀ s, v ≠ JString s) →
  (∀ t, template_text v = inr t →
        parse m v reviver
        = Throw (SyntaxError (js "Unexpected token " ++ t ++ js " in INI at line 0")) m)
  ∧ (∀ e, template_text v = inl e → parse m v reviver = Throw e m)
  ∧ (∃ e, parse m v reviver = Throw e m).
Proof.
  intros Hv. destruct v as [s| | |b| |[e|t]]; try (exfalso; now apply (Hv s));
    cbn; (split; [|split]); try (intros ? [= <-]); try discriminate; eauto.
Qed.

Lemma parse_non_string_throws_syntax_error_witness :
  parse (new_IniMap noFormatting) (JBoolean true) None
  = Throw (SyntaxError (js "Unexpected token true in INI at line 0"))
      (new_IniMap noFormatting).
Proof.
  refine (proj1 (parse_non_string_throws_syntax_error
                   (new_IniMap noFormatting) (JBoolean true) None _) _ eq_refl).
  discriminate.
Defined.

(** [parse(null)] does not throw a [TypeError]. *)
Lemma parse_null_not_type_error :
  parse (new_IniMap noFormatting) JNull None
  = Throw (SyntaxError (js "Unexpected token null in INI at line 0"))
      (new_IniMap noFormatting)
  ∧ ¬ (∀ (m : IniMap) (v : JsValue) (reviver : option ReviverFunction),
         (∀ s, v ≠ JString s) →
         ∃ message m', parse m v reviver = Throw (TypeError message) m').
Proof.
  split; [reflexivity|].
  intros H. destruct (H (new_IniMap noFormatting) JNull None) as (msg & m' & Hthrow);
    [discriminate|]. discriminate Hthrow.
Qed.

End NonString.

(** ** A key with an empty value *)

Section EmptyValue.

Lemma trimStart_id s :
  match s with [] => true | c :: _ => negb (isWhiteSpace c) end = true →
  trimStart s = s.
Proof. destruct s as [|c s]; [reflexivity|]. cbn. now destruct (isWhiteSpace c). Qed.

Lemma trim_trimmed s : is_trimmed s = true → trim s = s.
Proof.
  unfold is_trimmed, trim, trimEnd. intros [Hfirst Hlast]%andb_prop.
  rewrite (trimStart_id s Hfirst).
  rewrite trimStart_id; [apply rev_involutive|].
  destruct s as [|c s] using rev_ind; [reflexivity|].
  rewrite rev_unit. now rewrite last_snoc in Hlast.
Qed.

Lemma isComment_cons c s :
  isComment (c :: s)
  = ((c =? 35)%N || (c =? 59)%N || ((c =? 47)%N && first_is 47%N s)).
Proof.
  unfold isComment.
  change (js "#") with [35%N]. change (js ";") with [59%N].
  change (js "//") with [47%N; 47%N].
  rewrite !startsWith_char. cbn [first_is startsWith].
  unfold str_eqb. rewrite bool_decide_eq_false_2 by discriminate.
  rewrite (N.eqb_sym 47 c). cbn [orb]. do 2 f_equal.
  destruct s as [|d s]; [reflexivity|]. cbn [startsWith first_is].
  rewrite (N.eqb_sym 47 d). destruct s; now rewrite andb_true_r.
Qed.

Lemma isComment_assignment k :
  nonEmpty k = true → isComment (k ++ [EQUALS]) = isComment k.
Proof.
  destruct k as [|c k]; [discriminate|]. intros _. cbn [app].
  rewrite !isComment_cons. destruct k; [|reflexivity].
  cbn. now rewrite andb_false_r.
Qed.

Lemma plain_key_line k :
  plain_key k = true →
  readTextLines (k ++ [EQUALS]) = [(k ++ [EQUALS], None)]
  ∧ trim (k ++ [EQUALS]) = k ++ [EQUALS]
  ∧ trim k = k
  ∧ isKeyValueLine (k ++ [EQUALS]) = true
  ∧ malformation (k ++ [EQUALS]) = None
  ∧ Forall (fun d => d ≠ EQUALS) k.
Proof.
  unfold plain_key. intros H.
  apply andb_prop in H as [H Hall]. apply andb_prop in H as [H Hbracket].
  apply andb_prop in H as [H Hcomment]. apply andb_prop in H as [Hne Htrim].
  apply negb_true_iff in Hcomment, Hbracket.
  rewrite forallb_forall in Hall.
  assert (Hfree : Forall (fun d => d ≠ EQUALS) k).
  { apply Forall_forall. intros d Hd%list_elem_of_In. apply Hall in Hd.
    apply andb_prop in Hd as [Hd _]. apply negb_true_iff in Hd. now apply N.eqb_neq. }
  assert (Hterm : terminator_free (k ++ [EQUALS])).
  { apply Forall_app. split; [|repeat constructor].
    apply Forall_forall. intros d Hd%list_elem_of_In. apply Hall in Hd.
    apply andb_prop in Hd as [_ Hd]. now apply negb_true_iff in Hd. }
  destruct k as [|c k]; [discriminate|].
  assert (Hline : trim ((c :: k) ++ [EQUALS]) = (c :: k) ++ [EQUALS]).
  { apply trim_trimmed. unfold is_trimmed in *. rewrite last_snoc. cbn [app].
    apply andb_prop in Htrim as [-> _]. reflexivity. }
  assert (Hc : (c =? EQUALS)%N = false).
  { inversion Hfree; subst. now apply N.eqb_neq. }
  split; [now apply (readTextLines_from_plain _ [])|].
  split; [exact Hline|]. split; [now apply trim_trimmed|].
  split; [|split; [|exact Hfree]].
  - unfold isKeyValueLine. rewrite isComment_assignment, Hcomment by reflexivity.
    cbn in Hbracket |- *. now rewrite Hbracket.
  - unfold malformation. rewrite isComment_assignment, Hcomment by reflexivity.
    cbn [app]. cbn in Hbracket. rewrite Hbracket.
    change (c :: k ++ [EQUALS]) with ((c :: k) ++ [EQUALS]).
    rewrite existsb_app. cbn [existsb]. rewrite N.eqb_refl, orb_true_r, Hc. reflexivity.
Qed.

(** C9.  Parsing the one line [k=] with the default reviver stores the
    number 0 under the global key [k], not the empty string: the value
    trims to the empty string, which [+value] turns into 0. *)
Theorem parse_empty_value_is_zero (m : IniMap) (k : jsstring) :
  plain_key k = true →
  defaultReviver k [] None = VNumber (Fin 0)
  ∧ ∃ m', parse m (JString (k ++ js "=")) None = Return m'
          ∧ map_get (global m') k = Some (length (heap m))
          ∧ heap m' !! length (heap m) = Some (LineValue 1 None k (VNumber (Fin 0)))
          ∧ lines m' = lines m ++ [length (heap m)].
Proof.
  intros Hk. split; [reflexivity|].
  change (js "=") with [EQUALS].
  destruct (plain_key_line k Hk) as (Htok & Htrim & Hkey & Hkv & Hmal & Hfree).
  cbn [parse default from_option id]. rewrite Htok. cbn [parseLines].
  pose proof (parseLine_malformation defaultReviver m None 1 (k ++ [EQUALS])) as Hline.
  rewrite Htrim, Hmal in Hline. destruct Hline as (m1 & cs1 & Hline).
  rewrite Hline. cbn [resume]. exists m1. split; [reflexivity|].
  apply parseLine_returns in Hline. cbn zeta in Hline. rewrite Htrim in Hline.
  unfold isKeyValueLine in Hkv. apply andb_prop in Hkv as [Hc Hb].
  apply negb_true_iff in Hc, Hb.
  destruct Hline as [(Hc' & _)|[(_ & Hb' & _)|(_ & -> & _)]]; [congruence..|].
  rewrite leftOf_split, rightOf_split, Hkey by exact Hfree.
  cbn [push_value global heap lines with_lines with_global with_heap].
  assert (Hh : heap (infer_pretty m (padded (k ++ [EQUALS]))) = heap m)
    by (unfold infer_pretty; destruct (pretty (formatting m)); reflexivity).
  assert (Hl : lines (infer_pretty m (padded (k ++ [EQUALS]))) = lines m)
    by (unfold infer_pretty; destruct (pretty (formatting m)); reflexivity).
  rewrite Hh, Hl. split; [apply map_get_set_eq|].
  split; [|reflexivity]. now apply list_lookup_middle.
Qed.

Lemma parse_empty_value_is_zero_witness :
  ∃ m', parse (new_IniMap noFormatting) (JString (js "port" ++ js "=")) None = Return m'
        ∧ map_get (global m') (js "port") = Some 0
        ∧ heap m' !! 0 = Some (LineValue 1 None (js "port") (VNumber (Fin 0)))
        ∧ lines m' = [0].
Proof.
  exact (proj2 (parse_empty_value_is_zero (new_IniMap noFormatting) (js "port") eq_refl)).
Defined.

End EmptyValue.

(** ** Numeric literals *)

Section NumericLiterals.

(** The grammar [StrNumericLiteral] of ECMA-262, stated on the text. *)

Lemma span_spec p s a b :
  span p s = (a, b) → s = a ++ b ∧ forallb p a = true ∧ stops p b.
Proof.
  revert a b. induction s as [|c s IH]; intros a b; cbn.
  - intros [= <- <-]. now cbn.
  - destruct (p c) eqn:Ec.
    + destruct (span p s) as [a' b'] eqn:E. intros [= <- <-].
      destruct (IH a' b' eq_refl) as (-> & Ha & Hb).
      cbn. now rewrite Ec, Ha.
    + intros [= <- <-]. now cbn.
Qed.

Lemma span_app p a b :
  forallb p a = true → stops p b → span p (a ++ b) = (a, b).
Proof.
  induction a as [|c a IH]; cbn; intros Ha Hb.
  - destruct b as [|d b]; [reflexivity|]. cbn in Hb |- *. now rewrite Hb.
  - apply andb_prop in Ha as [-> Ha]. now rewrite IH.
Qed.

Lemma allDigits_run digit s : allDigits digit s = true ↔ digit_run digit s.
Proof.
  unfold allDigits, digit_run. destruct s; cbn; [split; [discriminate|tauto]|].
  split; [intros H; split; [discriminate|exact H] | tauto].
Qed.

Lemma optionalSign_spec s neg r :
  optionalSign s = (neg, r) →
  ∃ sg, s = sg ++ r ∧ sign_text sg.
Proof.
  unfold optionalSign, sign_text. destruct s as [|c s].
  - intros [= <- <-]. exists []. auto.
  - destruct (c =? PLUS)%N eqn:Ep; [|destruct (c =? MINUS)%N eqn:Em].
    + apply N.eqb_eq in Ep. subst c. intros [= <- <-]. exists [PLUS]. auto.
    + apply N.eqb_eq in Em. subst c. intros [= <- <-]. exists [MINUS]. auto.
    + intros [= <- <-]. exists []. auto.
Qed.

Lemma optionalSign_app sg r :
  sign_text sg → unsigned_start r →
  ∃ neg, optionalSign (sg ++ r) = (neg, r).
Proof.
  intros [-> | [-> | ->]] Hr; cbn; eauto.
  destruct r as [|c r]; cbn; [eauto|]. destruct Hr as [Hp Hm].
  apply N.eqb_neq in Hp, Hm. rewrite Hp, Hm. eauto.
Qed.

Lemma digit_not_sign c : isDigit c = true → c ≠ PLUS ∧ c ≠ MINUS.
Proof.
  unfold isDigit. intros [H1 H2]%andb_prop. apply N.leb_le in H1.
  unfold PLUS, MINUS. lia.
Qed.

Lemma digit_run_unsigned ds rest : digit_run isDigit ds → unsigned_start (ds ++ rest).
Proof.
  intros [Hne Hall]. destruct ds as [|c ds]; [congruence|].
  cbn in Hall |- *. apply andb_prop in Hall as [Hc _]. now apply digit_not_sign.
Qed.

Lemma exponentPart_sound s e : exponentPart s = Some e → ExponentPart s.
Proof.
  unfold exponentPart. destruct s as [|c r]; [constructor|].
  destruct (isExponentIndicator c) eqn:Ec; [|discriminate].
  destruct (optionalSign r) as [neg ds] eqn:Esign.
  destruct (allDigits isDigit ds) eqn:Eds; [|discriminate]. intros _.
  apply optionalSign_spec in Esign as (sg & -> & Hsg).
  constructor; [assumption..|now apply allDigits_run].
Qed.

Lemma exponentPart_complete s : ExponentPart s → is_Some (exponentPart s).
Proof.
  intros [|c sg ds Hc Hsg Hds]; cbn; [eauto|]. rewrite Hc.
  destruct (optionalSign_app sg ds Hsg) as (neg & ->).
  { rewrite <- (app_nil_r ds). now apply digit_run_unsigned. }
  apply allDigits_run in Hds. rewrite Hds. eauto.
Qed.

Lemma exponent_stops_digits ex : ExponentPart ex → stops isDigit ex.
Proof.
  intros [|c sg ds Hc _ _]; cbn; [exact I|].
  unfold isExponentIndicator in Hc. unfold isDigit.
  apply orb_prop in Hc as [->%N.eqb_eq| ->%N.eqb_eq]; reflexivity.
Qed.

Lemma exponent_not_dot ex :
  ExponentPart ex → fractionPart ex = (false, [], ex).
Proof.
  intros [|c sg ds Hc _ _]; cbn; [reflexivity|].
  unfold isExponentIndicator in Hc.
  apply orb_prop in Hc as [->%N.eqb_eq| ->%N.eqb_eq]; reflexivity.
Qed.

End NumericLiterals.

Section NumericLiteralParser.

Lemma fractionPart_spec s dot fp r2 :
  fractionPart s = (dot, fp, r2) →
  forallb isDigit fp = true
  ∧ if dot then s = DOT :: fp ++ r2 else (fp = [] ∧ r2 = s).
Proof.
  unfold fractionPart. destruct s as [|c r].
  - intros [= <- <- <-]. auto.
  - destruct (c =? DOT)%N eqn:Ec.
    + destruct (span isDigit r) as [f r'] eqn:E. intros [= <- <- <-].
      apply N.eqb_eq in Ec. subst c.
      destruct (span_spec _ _ _ _ E) as (-> & Hf & _). auto.
    + intros [= <- <- <-]. auto.
Qed.

Lemma unsignedDecimal_sound s mag :
  unsignedDecimal s = Some mag → StrUnsignedDecimalLiteral s.
Proof.
  unfold unsignedDecimal.
  destruct (str_eqb s (js "Infinity")) eqn:Einf.
  { intros _. apply bool_decide_eq_true_1 in Einf. subst s. constructor. }
  destruct (span isDigit s) as [ip r1] eqn:Eip.
  destruct (fractionPart r1) as [[dot fp] r2] eqn:Efp.
  destruct (nonEmpty ip || dot && nonEmpty fp) eqn:Ecount; [|discriminate].
  destruct (exponentPart r2) as [e|] eqn:Eex; [|discriminate]. intros _.
  apply exponentPart_sound in Eex.
  destruct (span_spec _ _ _ _ Eip) as (-> & Hip & _).
  destruct (fractionPart_spec _ _ _ _ Efp) as (Hfp & Hr1).
  destruct dot.
  - subst r1. destruct ip as [|c ip].
    + cbn in Ecount |- *. apply unsigned_dot; [|exact Eex].
      split; [now destruct fp|exact Hfp].
    + apply unsigned_int_dot; [|exact Hfp|exact Eex].
      split; [discriminate|exact Hip].
  - destruct Hr1 as [-> ->]. rewrite orb_false_r in Ecount.
    apply unsigned_int; [|exact Eex].
    split; [now destruct ip|exact Hip].
Qed.

Lemma dot_stops_digits rest : stops isDigit (DOT :: rest).
Proof. reflexivity. Qed.

Lemma unsignedDecimal_complete s :
  StrUnsignedDecimalLiteral s → is_Some (unsignedDecimal s).
Proof.
  intros H. unfold unsignedDecimal.
  destruct (str_eqb s (js "Infinity")) eqn:Einf; [eauto|].
  destruct H as [|ip fp ex [Hne Hip] Hfp Hex|fp ex [Hne Hfp] Hex|ip ex [Hne Hip] Hex].
  - vm_compute in Einf. discriminate Einf.
  - rewrite (span_app isDigit ip (DOT :: fp ++ ex) Hip (dot_stops_digits _)).
    cbn [fractionPart]. rewrite N.eqb_refl.
    rewrite (span_app isDigit fp ex Hfp (exponent_stops_digits ex Hex)).
    destruct ip; [congruence|]. cbn [nonEmpty orb].
    destruct (exponentPart_complete ex Hex) as [e ->]. eauto.
  - change (DOT :: fp ++ ex) with ([] ++ DOT :: fp ++ ex).
    rewrite (span_app isDigit [] (DOT :: fp ++ ex) eq_refl (dot_stops_digits _)).
    cbn [fractionPart]. rewrite N.eqb_refl.
    rewrite (span_app isDigit fp ex Hfp (exponent_stops_digits ex Hex)).
    destruct fp; [congruence|]. cbn [nonEmpty orb andb].
    destruct (exponentPart_complete ex Hex) as [e ->]. eauto.
  - rewrite (span_app isDigit ip ex Hip (exponent_stops_digits ex Hex)).
    rewrite (exponent_not_dot ex Hex).
    destruct ip; [congruence|]. cbn [nonEmpty orb].
    destruct (exponentPart_complete ex Hex) as [e ->]. eauto.
Qed.

Lemma unsigned_literal_start s : StrUnsignedDecimalLiteral s → unsigned_start s.
Proof.
  intros [|ip fp ex Hip _ _|fp ex _ _|ip ex Hip _].
  - split; discriminate.
  - now apply digit_run_unsigned.
  - split; discriminate.
  - now apply digit_run_unsigned.
Qed.

Lemma radixOf_spec p base digit :
  radixOf p = Some (base, digit) →
  ((p = 98%N ∨ p = 66%N) ∧ digit = isBinaryDigit)
  ∨ ((p = 111%N ∨ p = 79%N) ∧ digit = isOctalDigit)
  ∨ ((p = 120%N ∨ p = 88%N) ∧ digit = isHexDigit).
Proof.
  unfold radixOf.
  destruct ((p =? 98)%N || (p =? 66)%N) eqn:Eb;
    [|destruct ((p =? 111)%N || (p =? 79)%N) eqn:Eo;
      [|destruct ((p =? 120)%N || (p =? 88)%N) eqn:Ex; [|discriminate]]];
    intros [= <- <-];
    [left; split; [|reflexivity]; apply orb_prop in Eb
    |right; left; split; [|reflexivity]; apply orb_prop in Eo
    |right; right; split; [|reflexivity]; apply orb_prop in Ex];
    rewrite !N.eqb_eq in *; assumption.
Qed.

(** The parser accepts exactly the texts of the grammar. *)
Lemma strNumericLiteral_grammar s :
  is_Some (strNumericLiteral s) ↔ StrNumericLiteral s.
Proof.
  split.
  - intros [n Hn]. unfold strNumericLiteral in Hn.
    destruct (nonDecimalIntegerLiteral s) as [n'|] eqn:End.
    + clear Hn. unfold nonDecimalIntegerLiteral in End.
      destruct s as [|z [|p ds]]; try discriminate.
      destruct (z =? ZERO)%N eqn:Ez; [|discriminate]. apply N.eqb_eq in Ez. subst z.
      destruct (radixOf p) as [[base digit]|] eqn:Er; [|discriminate].
      destruct (allDigits digit ds) eqn:Eds; [|discriminate].
      apply allDigits_run in Eds.
      destruct (radixOf_spec _ _ _ Er) as [[Hp ->]|[[Hp ->]|[Hp ->]]].
      * now apply literal_binary.
      * now apply literal_octal.
      * now apply literal_hex.
    + unfold strDecimalLiteral in Hn.
      destruct (optionalSign s) as [neg r] eqn:Esign.
      destruct (unsignedDecimal r) as [mag|] eqn:Emag; [|discriminate].
      apply optionalSign_spec in Esign as (sg & -> & Hsg).
      apply literal_decimal; [exact Hsg|]. eapply unsignedDecimal_sound, Emag.
  - intros H. unfold strNumericLiteral.
    destruct (nonDecimalIntegerLiteral s) as [n'|] eqn:End; [eauto|].
    destruct H as [sg r Hsg Hr|p ds Hp Hds|p ds Hp Hds|p ds Hp Hds].
    + unfold strDecimalLiteral.
      destruct (optionalSign_app sg r Hsg (unsigned_literal_start r Hr)) as (neg & ->).
      destruct (unsignedDecimal_complete r Hr) as [mag ->]. cbn. eauto.
    + exfalso. apply allDigits_run in Hds. cbn in End.
      destruct Hp as [-> | ->]; cbn in End; rewrite Hds in End; discriminate.
    + exfalso. apply allDigits_run in Hds. cbn in End.
      destruct Hp as [-> | ->]; cbn in End; rewrite Hds in End; discriminate.
    + exfalso. apply allDigits_run in Hds. cbn in End.
      destruct Hp as [-> | ->]; cbn in End; rewrite Hds in End; discriminate.
Qed.

(** No literal is empty. *)
Lemma literal_not_empty : ¬ StrNumericLiteral [].
Proof.
  intros H. apply strNumericLiteral_grammar in H as [n Hn]. discriminate Hn.
Qed.

(** The rounding of a quotient of natural numbers is a Number. *)
Lemma shr_1_nonneg mrs :
  (0 ≤ SpecFloat.shr_m mrs)%Z → (0 ≤ SpecFloat.shr_m (SpecFloat.shr_1 mrs))%Z.
Proof. destruct mrs as [[|[p|p|]|p] r t]; cbn; lia. Qed.

Lemma iter_shr_1_nonneg p : ∀ mrs,
  (0 ≤ SpecFloat.shr_m mrs)%Z →
  (0 ≤ SpecFloat.shr_m (SpecFloat.iter_pos SpecFloat.shr_1 p mrs))%Z.
Proof.
  induction p as [p IH|p IH|]; intros mrs H; cbn.
  - apply IH, IH. now apply shr_1_nonneg.
  - now apply IH, IH.
  - now apply shr_1_nonneg.
Qed.

Lemma shr_fexp_nonneg m e l :
  (0 ≤ m)%Z → (0 ≤ SpecFloat.shr_m (SpecFloat.shr_fexp 53 1024 m e l).1)%Z.
Proof.
  intros H. unfold SpecFloat.shr_fexp, SpecFloat.shr.
  assert (H0 : (0 ≤ SpecFloat.shr_m (SpecFloat.shr_record_of_loc m l))%Z)
    by (destruct l as [|[]]; exact H).
  destruct (_ - e)%Z; cbn [fst]; [exact H0|now apply iter_shr_1_nonneg|exact H0].
Qed.

Lemma round_nearest_even_nonneg m l :
  (0 ≤ m)%Z → (0 ≤ SpecFloat.round_nearest_even m l)%Z.
Proof. intros H. destruct l as [|[]]; cbn; try destruct (Z.even m); lia. Qed.

Lemma binary_round_aux_not_nan neg m e l :
  (0 ≤ m)%Z → SpecFloat.binary_round_aux 53 1024 neg m e l ≠ SpecFloat.S754_nan.
Proof.
  intros H. unfold SpecFloat.binary_round_aux.
  pose proof (shr_fexp_nonneg m e l H) as H1.
  destruct (SpecFloat.shr_fexp 53 1024 m e l) as [mrs1 e1]. cbn [fst] in H1.
  pose proof (shr_fexp_nonneg _ e1 SpecFloat.loc_Exact
                (round_nearest_even_nonneg _ (SpecFloat.loc_of_shr_record mrs1) H1))
    as H2.
  destruct (SpecFloat.shr_fexp 53 1024 _ e1 SpecFloat.loc_Exact) as [mrs2 e2].
  cbn [fst] in H2.
  destruct (SpecFloat.shr_m mrs2) as [|p|p]; [discriminate| |lia].
  destruct (e2 <=? _)%Z; discriminate.
Qed.

Lemma numberValue_not_NaN neg a b :
  (0 ≤ a)%Z → (0 < b)%Z → isNaN (numberValue neg a b) = false.
Proof.
  intros Ha Hb. unfold numberValue, SpecFloat.SFdiv_core_binary.
  set (e' := Z.min _ _). set (m' := match (0 - 0 - e')%Z with Z0 => a | _ => _ end).
  assert (Hm' : (0 ≤ m')%Z).
  { unfold m'. destruct (0 - 0 - e')%Z; [exact Ha| |lia].
    now apply Z.shiftl_nonneg. }
  pose proof (Z.div_pos m' b Hm' Hb) as Hq. unfold Z.div in Hq.
  destruct (Z.div_eucl m' b) as [q r]. cbn [fst] in Hq.
  pose proof (binary_round_aux_not_nan neg q e' (SpecFloat.new_location b r) Hq) as H.
  destruct (SpecFloat.binary_round_aux 53 1024 neg q e' _) as [[]|[]| |[] ? ?];
    try reflexivity. now contradiction H.
Qed.

Lemma digitValue_nonneg c :
  isHexDigit c = true → (0 ≤ digitValue c)%Z.
Proof.
  unfold isHexDigit, digitValue, isDigit. intros H.
  destruct ((48 <=? c)%N && (c <=? 57)%N) eqn:Ed.
  - apply andb_prop in Ed as [H1 _]. apply N.leb_le in H1. lia.
  - cbn in H. destruct (97 <=? c)%N eqn:Ea.
    + apply N.leb_le in Ea. lia.
    + cbn in H. apply andb_prop in H as [H1 _]. apply N.leb_le in H1. lia.
Qed.

Lemma digitsValue_nonneg base (ds : jsstring) :
  (0 ≤ base)%Z → forallb isHexDigit ds = true → (0 ≤ digitsValue base ds)%Z.
Proof.
  intros Hbase. unfold digitsValue.
  assert (H : ∀ acc, (0 ≤ acc)%Z → forallb isHexDigit ds = true →
                (0 ≤ fold_left (fun acc c => acc * base + digitValue c) ds acc)%Z).
  { induction ds as [|c ds IH]; intros acc Hacc Hds; [exact Hacc|].
    cbn in Hds |- *. apply andb_prop in Hds as [Hc Hds].
    apply IH; [|exact Hds]. pose proof (digitValue_nonneg c Hc). nia. }
  now apply H.
Qed.

Lemma forallb_hex (digit : N → bool) (ds : jsstring) :
  digit = isDigit ∨ digit = isBinaryDigit ∨ digit = isOctalDigit ∨ digit = isHexDigit →
  forallb digit ds = true → forallb isHexDigit ds = true.
Proof.
  intros Hd H. rewrite forallb_forall in *. intros c Hc. specialize (H c Hc).
  unfold isHexDigit, isDigit, isBinaryDigit, isOctalDigit in *.
  destruct Hd as [-> |[-> |[-> | ->]]]; [now rewrite H| | |exact H].
  - apply orb_prop in H as [H|H]; apply N.eqb_eq in H; subst c; reflexivity.
  - apply andb_prop in H as [H1 H2]. apply N.leb_le in H1, H2.
    apply orb_true_intro. left. apply orb_true_intro. left.
    apply andb_true_intro. split; apply N.leb_le; lia.
Qed.

Lemma unsignedDecimal_nonneg s mant e :
  unsignedDecimal s = Some (MFinite mant e) → (0 ≤ mant)%Z.
Proof.
  unfold unsignedDecimal. destruct (str_eqb s (js "Infinity")); [discriminate|].
  destruct (span isDigit s) as [ip r1] eqn:Eip.
  destruct (fractionPart r1) as [[dot fp] r2] eqn:Efp.
  destruct (nonEmpty ip || dot && nonEmpty fp); [|discriminate].
  destruct (exponentPart r2); [|discriminate]. intros [= <- _].
  destruct (span_spec _ _ _ _ Eip) as (_ & Hip & _).
  destruct (fractionPart_spec _ _ _ _ Efp) as (Hfp & _).
  apply digitsValue_nonneg; [lia|]. apply (forallb_hex isDigit); [now left|].
  rewrite forallb_app, Hip, Hfp. reflexivity.
Qed.

Lemma strDecimalLiteral_not_NaN s n :
  strDecimalLiteral s = Some n → isNaN n = false.
Proof.
  unfold strDecimalLiteral. destruct (optionalSign s) as [neg r].
  destruct (unsignedDecimal r) as [[|mant e]|] eqn:E; cbn; try discriminate;
    intros [= <-]; [now destruct neg|].
  destruct (mant =? 0)%Z; [now destruct neg|].
  apply numberValue_not_NaN.
  - pose proof (unsignedDecimal_nonneg r mant e E).
    pose proof (Z.pow_nonneg 10 (Z.max e 0)). nia.
  - apply Z.pow_pos_nonneg; lia.
Qed.

Lemma nonDecimalIntegerLiteral_not_NaN s n :
  nonDecimalIntegerLiteral s = Some n → isNaN n = false.
Proof.
  unfold nonDecimalIntegerLiteral. destruct s as [|z [|p ds]]; try discriminate.
  destruct (z =? ZERO)%N; [|discriminate].
  destruct (radixOf p) as [[base digit]|] eqn:Er; [|discriminate].
  destruct (allDigits digit ds) eqn:Eds; [|discriminate]. intros [= <-].
  unfold allDigits in Eds. apply andb_prop in Eds as [_ Eds].
  apply numberValue_not_NaN; [|lia].
  unfold radixOf in Er.
  destruct ((p =? 98)%N || (p =? 66)%N);
    [injection Er as <- <-; apply digitsValue_nonneg; [lia|];
     apply (forallb_hex isBinaryDigit); auto|].
  destruct ((p =? 111)%N || (p =? 79)%N);
    [injection Er as <- <-; apply digitsValue_nonneg; [lia|];
     apply (forallb_hex isOctalDigit); auto|].
  destruct ((p =? 120)%N || (p =? 88)%N); [|discriminate].
  injection Er as <- <-. now apply digitsValue_nonneg.
Qed.

Lemma strNumericLiteral_not_NaN s n :
  strNumericLiteral s = Some n → isNaN n = false.
Proof.
  unfold strNumericLiteral.
  destruct (nonDecimalIntegerLiteral s) as [n'|] eqn:E.
  - intros [= <-]. eapply nonDecimalIntegerLiteral_not_NaN, E.
  - apply strDecimalLiteral_not_NaN.
Qed.

(** [+value] is not [NaN] exactly for the empty text and the literals,
    white space around them aside. *)
Lemma toNumber_not_NaN value :
  isNaN (toNumber value) = false
  ↔ trim value = [] ∨ StrNumericLiteral (trim value).
Proof.
  unfold toNumber. destruct (trim value) as [|c t] eqn:Et.
  - cbn. tauto.
  - rewrite <- strNumericLiteral_grammar.
    destruct (strNumericLiteral (c :: t)) as [n|] eqn:En.
    + split; [intros _; right; eauto|intros _].
      eapply strNumericLiteral_not_NaN, En.
    + cbn. split; [discriminate|]. intros [H|[n H]]; discriminate.
Qed.

End NumericLiteralParser.

(** ** The values a parse stores *)

Section ParseValues.

Variable reviver : ReviverFunction.

(** A turn of the loop adds one record and changes no Value record. *)
Lemma parseLine_heap m cs n line m' cs' :
  parseLine reviver m cs n line = inr (m', cs') →
  length (heap m') = S (length (heap m))
  ∧ ∀ r a b c d, heap m !! r = Some (LineValue a b c d) →
                 heap m' !! r = Some (LineValue a b c d).
Proof.
  intros H. apply parseLine_returns in H. cbn zeta in H.
  destruct H as [(_ & -> & _)|[(_ & _ & _ & -> & _)|(_ & -> & _)]].
  - cbn. rewrite length_app. split; [cbn; lia|].
    intros r a b c d Hr. now apply lookup_app_l_Some.
  - cbn. rewrite length_app. split; [cbn; lia|].
    intros r a b c d Hr. now apply lookup_app_l_Some.
  - set (m1 := infer_pretty m (padded (trim line))).
    assert (Hh : heap m1 = heap m)
      by (unfold m1, infer_pretty; now destruct (pretty (formatting m))).
    destruct cs as [s|]; cbn [push_value].
    + cbn [update heap with_heap with_lines]. rewrite !length_alter, length_app, Hh.
      split; [cbn; lia|]. intros r a b c d Hr.
      assert (Hr' : (heap m ++ [LineValue n
                       (Some (default [] (heap m !! s ≫= line_sec)))
                       (trim (leftOf EQUALS (trim line)))
                       (reviver (trim (leftOf EQUALS (trim line)))
                          (trim (rightOf EQUALS (trim line)))
                          (Some (default [] (heap m !! s ≫= line_sec))))]) !! r
                    = Some (LineValue a b c d)) by now apply lookup_app_l_Some.
      destruct (decide (s = r)) as [->|Hne].
      * rewrite list_lookup_alter_eq, list_lookup_alter_eq, Hr'. reflexivity.
      * now rewrite !list_lookup_alter_ne by exact Hne.
    + cbn. rewrite length_app, Hh. split; [cbn; lia|].
      intros r a b c d Hr. now apply lookup_app_l_Some.
Qed.

Lemma parseLines_keeps_values tokens : ∀ m cs n m' cs' r a b c d,
  parseLines reviver m cs n tokens = inr (m', cs') →
  heap m !! r = Some (LineValue a b c d) →
  heap m' !! r = Some (LineValue a b c d).
Proof.
  induction tokens as [|[line lb] tokens IH]; intros m cs n m' cs' r a b c d H Hr.
  - cbn in H. now injection H as <- <-.
  - cbn [parseLines] in H.
    destruct (parseLine reviver m cs n line) as [e|[m1 cs1]] eqn:E; [discriminate|].
    apply (IH _ _ _ _ _ r a b c d H).
    destruct lb as [t|]; cbn; [destruct (truthy _); cbn|];
      exact (proj2 (parseLine_heap _ _ _ _ _ _ E) r a b c d Hr).
Qed.

(** A turn of the loop and the current section. *)
Lemma parseLine_cursor_named m cs cur n line m' cs' :
  cursor_named m cs cur →
  parseLine reviver m cs n line = inr (m', cs') →
  cursor_named m' cs' (match header_name line with
                       | Some s => Some s
                       | None => cur
                       end).
Proof.
  intros Hcs H. apply parseLine_returns in H. cbn zeta in H. unfold header_name.
  destruct H as [(Hc & -> & ->)|[(Hc & Hb & _ & -> & ->)|(Hkv & -> & ->)]].
  - rewrite Hc. cbn [negb andb].
    destruct cs as [s|]; [|exact Hcs]. destruct Hcs as (a & name & map & e & Hs & ->).
    exists a, name, map, e. split; [cbn; now apply lookup_app_l_Some|reflexivity].
  - rewrite Hc, Hb. cbn [negb andb].
    exists n, (inner (trim line)), [], n.
    split; [cbn; now apply list_lookup_middle|reflexivity].
  - unfold isKeyValueLine in Hkv. apply andb_prop in Hkv as [Hc Hb].
    apply negb_true_iff in Hb. rewrite Hb, andb_false_r.
    destruct cs as [s|]; [|exact Hcs]. destruct Hcs as (a & name & map & e & Hs & ->).
    set (m1 := infer_pretty m (padded (trim line))).
    assert (Hh : heap m1 = heap m)
      by (unfold m1, infer_pretty; now destruct (pretty (formatting m))).
    cbn [push_value cursor_named update heap with_heap with_lines]. rewrite Hh.
    exists a, name, (map_set map (trim (leftOf EQUALS (trim line))) (length (heap m))), n.
    split; [|reflexivity].
    rewrite list_lookup_alter_eq, list_lookup_alter_eq.
    now rewrite (lookup_app_l_Some _ _ _ _ Hs).
Qed.

(** A key/value line is stored in a record of its own: under the trimmed
    key, in the current section, with what the reviver makes of the key,
    the trimmed raw value and the section. *)
Lemma parseLine_stores m cs cur n line m' cs' :
  cursor_named m cs cur →
  isKeyValueLine (trim line) = true →
  parseLine reviver m cs n line = inr (m', cs') →
  let k := trim (leftOf EQUALS (trim line)) in
  let raw := trim (rightOf EQUALS (trim line)) in
  heap m' !! length (heap m) = Some (LineValue n cur k (reviver k raw cur)).
Proof.
  intros Hcs Hkv H. apply parseLine_returns in H. cbn zeta in H |- *.
  unfold isKeyValueLine in Hkv. apply andb_prop in Hkv as [Hc Hb].
  apply negb_true_iff in Hc, Hb.
  destruct H as [(Hc' & _)|[(_ & Hb' & _)|(_ & -> & _)]]; [congruence..|].
  set (m1 := infer_pretty m (padded (trim line))).
  assert (Hh : heap m1 = heap m)
    by (unfold m1, infer_pretty; now destruct (pretty (formatting m))).
  destruct cs as [s|]; cbn [push_value cursor_named] in *.
  - destruct Hcs as (a & name & map & e & Hs & ->).
    cbn [update heap with_heap with_lines]. rewrite Hh, Hs.
    cbn [mbind option_bind line_sec default]. change (id name) with name.
    apply lookup_lt_Some in Hs.
    rewrite !list_lookup_alter_ne by lia. now apply list_lookup_middle.
  - subst cur. cbn. rewrite Hh. now apply list_lookup_middle.
Qed.

(** The loop: the record of the line [j] of the lines still to be read. *)
Lemma parseLines_stores tokens : ∀ m cs cur n m' cs' j line lb,
  cursor_named m cs cur →
  parseLines reviver m cs n tokens = inr (m', cs') →
  tokens !! j = Some (line, lb) →
  isKeyValueLine (trim line) = true →
  let k := trim (leftOf EQUALS (trim line)) in
  let raw := trim (rightOf EQUALS (trim line)) in
  let sec := section_after cur (take j tokens) in
  heap m' !! (length (heap m) + j)
  = Some (LineValue (n + Z.of_nat j) sec k (reviver k raw sec)).
Proof.
  induction tokens as [|[line0 lb0] tokens IH];
    intros m cs cur n m' cs' j line lb Hcs H Hj Hkv; [discriminate Hj|].
  cbn [parseLines] in H.
  destruct (parseLine reviver m cs n line0) as [e|[m1 cs1]] eqn:E; [discriminate|].
  destruct (parseLine_heap _ _ _ _ _ _ E) as [Hlen _].
  destruct j as [|j].
  - cbn in Hj. injection Hj as <- <-. cbn zeta. cbn [take section_after fold_left].
    rewrite Nat.add_0_r, Z.add_0_r.
    eapply parseLines_keeps_values; [exact H|].
    assert (Hres : ∀ x, heap (resume m1 lb0) !! x = heap m1 !! x)
      by (intros x; destruct lb0 as [t|]; cbn; [now destruct (truthy _)|reflexivity]).
    rewrite Hres. exact (parseLine_stores _ _ _ _ _ _ _ Hcs Hkv E).
  - cbn in Hj. cbn zeta.
    pose proof (parseLine_cursor_named _ _ _ _ _ _ _ Hcs E) as Hcs1.
    assert (Hcs1' : cursor_named (resume m1 lb0) cs1
                      (match header_name line0 with Some s => Some s | None => cur end)).
    { destruct lb0 as [t|]; cbn; [|exact Hcs1]. now destruct (truthy _). }
    pose proof (IH _ _ _ (n + 1)%Z m' cs' j line lb Hcs1' H Hj Hkv) as Hrec.
    cbn zeta in Hrec.
    assert (Hlen' : length (heap (resume m1 lb0)) = S (length (heap m))).
    { rewrite <- Hlen. destruct lb0 as [t|]; cbn; [now destruct (truthy _)|reflexivity]. }
    rewrite Hlen' in Hrec.
    replace (length (heap m) + S j) with (S (length (heap m)) + j) by lia.
    replace (n + Z.of_nat (S j))%Z with (n + 1 + Z.of_nat j)%Z by lia.
    exact Hrec.
Qed.

End ParseValues.

(** ** The default reviver *)

Section DefaultReviver.

Lemma trimQuotes_strip s : trimQuotes s = strip_quotes s.
Proof.
  unfold trimQuotes, strip_quotes. rewrite startsWith_char, endsWith_char.
  destruct (first_is DQUOTE s) eqn:E; [|reflexivity].
  destruct (last_is DQUOTE s); [|reflexivity]. cbn.
  apply slice_inner. destruct s; [discriminate|cbn; lia].
Qed.

Lemma includes_char s c : includes s [c] = existsb (fun d => (d =? c)%N) s.
Proof.
  unfold includes. destruct (existsb _ s) eqn:E.
  - apply bool_decide_eq_true_2. intros H. apply indexOf_char_missing in H. congruence.
  - apply bool_decide_eq_false_2. intros H. apply H. now apply indexOf_char_missing.
Qed.

Lemma existsb_char_false (s : jsstring) c :
  existsb (fun d => (d =? c)%N) s = false ↔ c ∉ s.
Proof.
  induction s as [|d s IH]; cbn.
  - split; [intros _; apply not_elem_of_nil|reflexivity].
  - rewrite not_elem_of_cons, orb_false_iff, IH, N.eqb_neq. intuition congruence.
Qed.

(** What the default reviver makes of a value, and the five-line
    example. *)
Lemma default_reviver_cases (key value : jsstring) (section : option jsstring) :
  let r := defaultReviver key value section in
  ((∃ n, r = VNumber n) ↔ numeric_text value)
  ∧ (numeric_text value →
     r = VNumber (toNumber value) ∧ isNaN (toNumber value) = false)
  ∧ (value = js "null" → r = VNull)
  ∧ (value = js "true" → r = VBoolean true)
  ∧ (value = js "false" → r = VBoolean false)
  ∧ (¬ numeric_text value →
     value ≠ js "null" → value ≠ js "true" → value ≠ js "false" →
     r = VString (strip_quotes value))
  ∧ (∃ m', parse (new_IniMap noFormatting) (JString text_coercion) None = Return m'
           ∧ toObject m'
             = [(js "a", PValue (VNumber (Fin 1)));
                (js "b", PValue (VBoolean true));
                (js "c", PValue VNull);
                (js "d", PValue (VString (js "x")));
                (js "e", PValue (VString (js "plain")))]).
Proof.
  cbn zeta. unfold defaultReviver, numeric_text.
  rewrite includes_char, trimQuotes_strip.
  rewrite <- toNumber_not_NaN, <- existsb_char_false.
  destruct (isNaN (toNumber value)) eqn:Enan;
    destruct (existsb (fun d => (d =? DQUOTE)%N) value) eqn:Equote; cbn [negb andb].
  4:{ split; [split; [tauto|eauto]|]. split; [tauto|].
      assert (Hnum : ∀ s, isNaN (toNumber s) = true → value ≠ s)
        by (intros s Hs ->; congruence).
      split; [intros H; now apply (Hnum (js "null")) in H|].
      split; [intros H; now apply (Hnum (js "true")) in H|].
      split; [intros H; now apply (Hnum (js "false")) in H|].
      split; [tauto|]. eexists. split; vm_compute; reflexivity. }
  all: split;
    [split; [|intros [? ?]; discriminate];
     intros [n Hn];
     destruct (str_eqb value (js "null")); [discriminate|];
     destruct (str_eqb value (js "true") || str_eqb value (js "false")); discriminate|].
  all: split; [intros [? ?]; discriminate|].
  all: split; [intros ->; reflexivity|].
  all: split; [intros ->; reflexivity|].
  all: split; [intros ->; reflexivity|].
  all: split; [|eexists; split; vm_compute; reflexivity].
  all: intros _ Hnull Htrue Hfalse; unfold str_eqb;
    rewrite !bool_decide_eq_false_2 by assumption; reflexivity.
Qed.

(** The rounding of a literal to a Number, at literals whose value no
    binary64 holds. *)
Lemma toNumber_rounds :
  toNumber (js "0.1") = Fin (3602879701896397 # 36028797018963968)
  ∧ toNumber (js "1e400") = PosInf
  ∧ toNumber (js "-1e-400") = NegZero
  ∧ toNumber (js "9007199254740993") = Fin (inject_Z 9007199254740992).
Proof. repeat split; vm_compute; reflexivity. Qed.

(** C6, as the code has it.  The default reviver turns a value into a
    number exactly when it is the empty string or parses fully as a
    numeric literal, and holds no double quote, the number being the
    binary64 nearest to the literal's value; else into null when it is
    ["null"]; else into a boolean when it is ["true"] or ["false"]; else
    into the string without the double quotes at its two ends if it has
    them, and unchanged otherwise.  The five-line example yields
    [{a:1, b:true, c:null, d:"x", e:"plain"}].  And [parse] without a
    reviver applies it to every key/value line of every text, in a section
    or not: the record of the line holds what the default reviver makes of
    the trimmed key, the trimmed text after the first [=] and the section
    in force, the name of the last header above the line. *)
Theorem default_reviver_coercion (key value : jsstring) (section : option jsstring) :
  let r := defaultReviver key value section in
  ((∃ n, r = VNumber n) ↔ numeric_text value)
  ∧ (numeric_text value →
     r = VNumber (toNumber value) ∧ isNaN (toNumber value) = false)
  ∧ (value = js "null" → r = VNull)
  ∧ (value = js "true" → r = VBoolean true)
  ∧ (value = js "false" → r = VBoolean false)
  ∧ (¬ numeric_text value →
     value ≠ js "null" → value ≠ js "true" → value ≠ js "false" →
     r = VString (strip_quotes value))
  ∧ (∃ m', parse (new_IniMap noFormatting) (JString text_coercion) None = Return m'
           ∧ toObject m'
             = [(js "a", PValue (VNumber (Fin 1)));
                (js "b", PValue (VBoolean true));
                (js "c", PValue VNull);
                (js "d", PValue (VString (js "x")));
                (js "e", PValue (VString (js "plain")))])
  ∧ (∀ m text m' j line lb,
       parse m (JString text) None = Return m' →
       readTextLines text !! j = Some (line, lb) →
       isKeyValueLine (trim line) = true →
       let k := trim (leftOf EQUALS (trim line)) in
       let raw := trim (rightOf EQUALS (trim line)) in
       let sec := section_after None (take j (readTextLines text)) in
       heap m' !! (length (heap m) + j)
       = Some (LineValue (Z.of_nat j + 1) sec k (defaultReviver k raw sec)))
  ∧ (toNumber (js "0.1") = Fin (3602879701896397 # 36028797018963968)
     ∧ toNumber (js "1e400") = PosInf
     ∧ toNumber (js "9007199254740993") = Fin (inject_Z 9007199254740992)).
Proof.
  cbn zeta.
  destruct (default_reviver_cases key value section)
    as (H1 & H2 & H3 & H4 & H5 & H6 & H7).
  do 7 (split; [assumption|]). split.
  - intros m text m' j line lb Hparse Hj Hkv. cbn [parse] in Hparse.
    change (default defaultReviver None) with defaultReviver in Hparse.
    destruct (parseLines defaultReviver m None 1 (readTextLines text))
      as [[e m1]|[m1 cs1]] eqn:E; [discriminate|]. injection Hparse as <-.
    pose proof (parseLines_stores defaultReviver (readTextLines text) m None None 1
                  m1 cs1 j line lb eq_refl E Hj Hkv) as H.
    cbn zeta in H. rewrite H. do 2 f_equal. lia.
  - destruct toNumber_rounds as (Ha & Hb & _ & Hc). auto.
Qed.

Lemma default_reviver_coercion_witness :
  defaultReviver (js "port") (js "0x1F") None = VNumber (toNumber (js "0x1F"))
  ∧ isNaN (toNumber (js "0x1F")) = false.
Proof.
  apply (default_reviver_coercion (js "port") (js "0x1F") None).
  split; [right|].
  - apply (literal_hex 120%N (js "1F")); [now left|split; [discriminate|reflexivity]].
  - apply existsb_char_false. reflexivity.
Defined.

(** The empty value is coerced to a number although it is no literal. *)
Lemma default_reviver_empty_string :
  defaultReviver (js "key") [] None = VNumber (Fin 0)
  ∧ ¬ StrNumericLiteral []
  ∧ ¬ ((∃ n, defaultReviver (js "key") [] None = VNumber n)
       ↔ StrNumericLiteral [] ∧ DQUOTE ∉ ([] : jsstring)).
Proof.
  split; [reflexivity|]. split; [exact literal_not_empty|].
  intros [H _]. destruct H as [H _]; [eauto|]. exact (literal_not_empty H).
Qed.

End DefaultReviver.

(** ** Inserting a Value line *)

Section Insertion.

Lemma alter_ext_at (f g : Line → Line) r (h : list Line) :
  (∀ l, h !! r = Some l → f l = g l) → alter f r h = alter g r h.
Proof.
  revert r. induction h as [|x h IH]; intros [|r] H; cbn; try reflexivity.
  - f_equal. apply H. reflexivity.
  - f_equal. apply IH. intros l Hl. apply H. exact Hl.
Qed.

Lemma alter_missing (f : Line → Line) r (h : list Line) :
  h !! r = None → alter f r h = h.
Proof.
  revert r. induction h as [|x h IH]; intros [|r] H; cbn in *; try reflexivity.
  - discriminate.
  - f_equal. now apply IH.
Qed.

(** When the inserted line is no comment the loop only renumbers. *)
Lemma shift_step_value secs op h r :
  shift_step secs op (h, false) r = (alter (bump op) r h, false).
Proof.
  unfold shift_step. destruct (h !! r) as [line|] eqn:E.
  - destruct (isSectionLine line) eqn:Es; cbn.
    + f_equal. now rewrite list_alter_alter_eq.
    + f_equal. apply alter_ext_at. intros l Hl. rewrite E in Hl. injection Hl as <-.
      unfold bump. now destruct line.
  - now rewrite alter_missing.
Qed.

Lemma fold_shift_value secs op rs : ∀ h,
  fold_left (shift_step secs op) rs (h, false) = (shifted op rs h, false).
Proof.
  induction rs as [|r rs IH]; intros h; [reflexivity|].
  cbn [fold_left]. rewrite shift_step_value. apply IH.
Qed.

Lemma shifted_lookup_notin op rs : ∀ h r,
  r ∉ rs → shifted op rs h !! r = h !! r.
Proof.
  induction rs as [|x rs IH]; intros h r Hr; [reflexivity|].
  apply not_elem_of_cons in Hr as [Hne Hr]. cbn.
  change (fold_left _ rs ?a) with (shifted op rs a).
  rewrite IH by exact Hr. now apply list_lookup_alter_ne.
Qed.

Lemma shifted_lookup_in op rs : ∀ h r,
  NoDup rs → r ∈ rs → shifted op rs h !! r = bump op <$> h !! r.
Proof.
  induction rs as [|x rs IH]; intros h r Hnd Hr; [now apply elem_of_nil in Hr|].
  apply NoDup_cons in Hnd as [Hx Hnd]. cbn.
  change (fold_left _ rs ?a) with (shifted op rs a).
  apply elem_of_cons in Hr as [->|Hr].
  - rewrite shifted_lookup_notin by exact Hx. apply list_lookup_alter_eq.
  - rewrite IH by assumption. rewrite list_lookup_alter_ne; [reflexivity|].
    intros ->. contradiction.
Qed.

Lemma length_shifted op rs : ∀ h, length (shifted op rs h) = length h.
Proof.
  induction rs as [|x rs IH]; intros h; [reflexivity|].
  cbn. change (fold_left _ rs ?a) with (shifted op rs a).
  now rewrite IH, length_alter.
Qed.

Lemma relative_in_range len i : i ≤ len → relative len (Z.of_nat i) = i.
Proof.
  intros H. unfold relative.
  destruct (Z.of_nat i <? 0)%Z eqn:E; [apply Z.ltb_lt in E; lia|].
  rewrite Nat2Z.id. lia.
Qed.

(** [#appendOrDeleteLine] adding a Value line whose number lies within
    the document or right after it. *)
Lemma appendOrDeleteLine_add_value m input i sec key val :
  heap m !! input = Some (LineValue (Z.of_nat i + 1) sec key val) →
  i ≤ length (lines m) →
  appendOrDeleteLine m input Add
  = with_lines (with_heap m (shifted 1 (drop i (lines m)) (heap m)))
      (inserted i input (lines m)).
Proof.
  intros Hin Hi. unfold appendOrDeleteLine. rewrite Hin.
  cbn [line_num isCommentLine op_value].
  replace (Z.of_nat i + 1 - 1)%Z with (Z.of_nat i) by lia.
  unfold splice_insert, slice_from. rewrite relative_in_range by exact Hi.
  fold (inserted i input (lines m)).
  assert (Hlen : length (inserted i input (lines m)) = S (length (lines m))).
  { unfold inserted. rewrite length_app. cbn [length].
    rewrite Nat.add_succ_r, <- length_app, take_drop. reflexivity. }
  replace (Z.of_nat i + 1)%Z with (Z.of_nat (S i)) by lia.
  rewrite relative_in_range by lia.
  assert (Hdrop : drop (S i) (inserted i input (lines m)) = drop i (lines m)).
  { unfold inserted.
    rewrite drop_app_ge by (rewrite length_take; lia).
    rewrite length_take, Nat.min_l by lia.
    replace (S i - i) with 1 by lia. reflexivity. }
  rewrite Hdrop, fold_shift_value. reflexivity.
Qed.

End Insertion.

(** ** Line numbers *)

Section Numbering.

Lemma numbered_new f : numbered (new_IniMap f).
Proof.
  split; cbn.
  - constructor.
  - intros i r H. discriminate.
  - intros name r H. discriminate.
Qed.

Lemma numbered_lines_valid h rs r :
  numbered_lines h rs → r ∈ rs → r < length h.
Proof.
  intros Hnum [i Hi]%list_elem_of_lookup.
  destruct (Hnum i r Hi) as (l & Hl & _). now apply lookup_lt_Some in Hl.
Qed.

Lemma numbered_fresh m : numbered m → length (heap m) ∉ lines m.
Proof.
  intros [_ Hnum _] Hin. apply (numbered_lines_valid _ _ _ Hnum) in Hin. lia.
Qed.

Lemma numbered_pushed m l :
  numbered m → line_num l = (lines_length m + 1)%Z → numbered (pushed m l).
Proof.
  intros Hm Hl. pose proof (numbered_fresh m Hm) as Hfresh.
  destruct Hm as [Hnd Hnum Hsec]. split; cbn.
  - apply NoDup_app. split; [exact Hnd|]. split; [|apply NoDup_singleton].
    intros x Hx ->%list_elem_of_singleton. contradiction.
  - intros i r Hi. apply lookup_app_Some in Hi as [Hi|[Hlen Hi]].
    + destruct (Hnum i r Hi) as (l0 & Hl0 & Hn). exists l0. split; [|exact Hn].
      now apply lookup_app_l_Some.
    + apply list_lookup_singleton_Some in Hi as [Hi <-].
      exists l. split; [now apply list_lookup_middle|].
      rewrite Hl. unfold lines_length. lia.
  - intros name r Hr. destruct (Hsec name r Hr) as (l0 & Hl0 & Hname & Hpos).
    exists l0. split; [now apply lookup_app_l_Some|]. split; [exact Hname|].
    intros Hne. destruct (Hpos Hne) as (i & Hi & Hle). exists i.
    split; [now apply lookup_app_l_Some|].
    unfold lines_length in *. cbn. rewrite length_app. cbn. lia.
Qed.

Lemma numbered_push_comment m n t :
  numbered m → n = (lines_length m + 1)%Z → numbered (push_comment m n t).
Proof. intros Hm ->. now apply (numbered_pushed m (LineComment _ t)). Qed.

Lemma numbered_with_formatting m f : numbered m → numbered (with_formatting m f).
Proof. intros [H1 H2 H3]. split; assumption. Qed.

Lemma numbered_push_section m n sec :
  numbered m → n = (lines_length m + 1)%Z → numbered (push_section m n sec).
Proof.
  intros Hm ->.
  pose proof (numbered_pushed m (LineSection (lines_length m + 1) sec []
                                   (lines_length m + 1)) Hm eq_refl) as [Hnd Hnum Hsec].
  split; [exact Hnd|exact Hnum|].
  intros name r Hr. cbn [sections push_section with_sections] in Hr.
  destruct (decide (sec = name)) as [->|Hne].
  - rewrite map_get_set_eq in Hr. injection Hr as <-.
    eexists. split; [now apply list_lookup_middle|]. split; [reflexivity|].
    intros _. exists (length (lines m)). split.
    + cbn. now apply list_lookup_middle.
    + cbn. unfold lines_length. cbn. rewrite length_app. cbn. lia.
  - rewrite map_get_set_ne in Hr by exact Hne. exact (Hsec name r Hr).
Qed.

End Numbering.

Section NumberingInsert.

Lemma inserted_lookup_lt i x (l : list loc) j :
  i ≤ length l → j < i → inserted i x l !! j = l !! j.
Proof.
  intros Hi Hj. unfold inserted.
  rewrite lookup_app_l by (rewrite length_take; lia).
  rewrite lookup_take. case_decide; [reflexivity|lia].
Qed.

Lemma inserted_lookup_eq i x (l : list loc) :
  i ≤ length l → inserted i x l !! i = Some x.
Proof.
  intros Hi. unfold inserted. apply list_lookup_middle.
  rewrite length_take. lia.
Qed.

Lemma inserted_lookup_gt i x (l : list loc) j :
  i ≤ length l → i ≤ j → inserted i x l !! S j = l !! j.
Proof.
  intros Hi Hj. unfold inserted.
  rewrite lookup_app_r by (rewrite length_take; lia).
  rewrite length_take, Nat.min_l by lia.
  replace (S j - i) with (S (j - i)) by lia.
  change (drop i l !! (j - i) = l !! j).
  rewrite lookup_drop. f_equal. lia.
Qed.

Lemma length_inserted i x (l : list loc) : length (inserted i x l) = S (length l).
Proof.
  unfold inserted. rewrite length_app. cbn [length].
  rewrite Nat.add_succ_r, <- length_app, take_drop. reflexivity.
Qed.

Lemma elem_of_drop_lookup (l : list loc) i j r :
  l !! j = Some r → i ≤ j → r ∈ drop i l.
Proof.
  intros Hj Hij. apply list_elem_of_lookup. exists (j - i).
  rewrite lookup_drop. now replace (i + (j - i)) with j by lia.
Qed.

Lemma elem_of_drop (l : list loc) i r : r ∈ drop i l → r ∈ l.
Proof.
  intros [k Hk]%list_elem_of_lookup. rewrite lookup_drop in Hk.
  apply list_elem_of_lookup. eauto.
Qed.

Lemma not_elem_of_drop_lookup (l : list loc) i j r :
  NoDup l → l !! j = Some r → j < i → r ∉ drop i l.
Proof.
  intros Hnd Hj Hji [k Hk]%list_elem_of_lookup. rewrite lookup_drop in Hk.
  pose proof (NoDup_lookup _ _ _ _ Hnd Hj Hk). lia.
Qed.

Lemma NoDup_inserted i x (l : list loc) : NoDup l → x ∉ l → NoDup (inserted i x l).
Proof.
  intros Hnd Hx. unfold inserted. rewrite <- (take_drop i l) in Hnd, Hx.
  apply NoDup_app in Hnd as (H1 & H2 & H3).
  apply not_elem_of_app in Hx as [Hx1 Hx2].
  apply NoDup_app. split; [exact H1|]. split.
  - intros y Hy [-> | Hy']%elem_of_cons; [contradiction|]. now apply (H2 y).
  - now apply NoDup_cons.
Qed.

Lemma line_num_bump op l : line_num (bump op l) = (line_num l + op)%Z.
Proof. now destruct l. Qed.

Lemma line_end_bump op l name :
  section_named name l → line_end (bump op l) = (line_end l + op)%Z.
Proof. now destruct l. Qed.

Lemma section_named_bump op l name :
  section_named name l → section_named name (bump op l).
Proof. now destruct l. Qed.

Lemma numbered_insert_line m i l :
  NoDup (lines m) →
  numbered_lines (heap m) (lines m) →
  sections_within (slack_before i) m →
  i ≤ length (lines m) →
  line_num l = (Z.of_nat i + 1)%Z →
  numbered (insert_line m i l).
Proof.
  intros Hnd Hnum Hsec Hi Hl.
  assert (Hfresh : length (heap m) ∉ lines m).
  { intros Hin. apply (numbered_lines_valid _ _ _ Hnum) in Hin. lia. }
  assert (Hnd' : NoDup (drop i (lines m))).
  { rewrite <- (take_drop i (lines m)) in Hnd. now apply NoDup_app in Hnd as (_ & _ & ?). }
  split; cbn [insert_line lines heap with_lines with_heap].
  - now apply NoDup_inserted.
  - intros j r Hj.
    destruct (lt_eq_lt_dec j i) as [[Hlt | ->] | Hgt].
    + rewrite inserted_lookup_lt in Hj by assumption.
      destruct (Hnum j r Hj) as (l0 & Hl0 & Hn). exists l0. split; [|exact Hn].
      rewrite shifted_lookup_notin by exact (not_elem_of_drop_lookup _ i j r Hnd Hj Hlt).
      now apply lookup_app_l_Some.
    + rewrite inserted_lookup_eq in Hj by assumption. injection Hj as <-.
      exists l. split; [|exact Hl].
      rewrite shifted_lookup_notin
        by (intros Hin; apply Hfresh; eapply elem_of_drop; eassumption).
      now apply list_lookup_middle.
    + destruct j as [|j]; [lia|].
      rewrite inserted_lookup_gt in Hj by lia.
      destruct (Hnum j r Hj) as (l0 & Hl0 & Hn). exists (bump 1 l0). split.
      * rewrite shifted_lookup_in;
          [|exact Hnd'|eapply elem_of_drop_lookup; [eassumption|lia]].
        now rewrite (lookup_app_l_Some _ _ _ _ Hl0).
      * rewrite line_num_bump, Hn. lia.
  - unfold sections_within. cbn [insert_line lines heap sections with_lines with_heap].
    intros name r Hr.
    destruct (Hsec name r Hr) as (l0 & Hl0 & Hname & Hpos).
    destruct (decide (r ∈ drop i (lines m))) as [Hin|Hout].
    + exists (bump 1 l0). split.
      * rewrite shifted_lookup_in by assumption.
        now rewrite (lookup_app_l_Some _ _ _ _ Hl0).
      * split; [now apply section_named_bump|].
        intros Hne. destruct (Hpos Hne) as (p & Hp & Hle).
        assert (Hip : i ≤ p).
        { destruct (le_lt_dec i p) as [?|Hlt]; [assumption|].
          exfalso. exact (not_elem_of_drop_lookup _ i p r Hnd Hp Hlt Hin). }
        exists (S p). split; [now rewrite inserted_lookup_gt|].
        rewrite (line_end_bump _ _ _ Hname). unfold lines_length in *.
        cbn [lines with_lines insert_line]. rewrite length_inserted.
        unfold slack_before in Hle. case_decide; lia.
    + exists l0. split.
      * rewrite shifted_lookup_notin by assumption. now apply lookup_app_l_Some.
      * split; [exact Hname|].
        intros Hne. destruct (Hpos Hne) as (p & Hp & Hle).
        assert (Hip : p < i).
        { destruct (le_lt_dec i p) as [Hge|?]; [|assumption].
          exfalso. apply Hout. eapply elem_of_drop_lookup; eassumption. }
        exists p. split; [now rewrite inserted_lookup_lt|].
        unfold lines_length in *. cbn [lines with_lines insert_line]. rewrite length_inserted.
        unfold slack_before in Hle. case_decide; lia.
Qed.

End NumberingInsert.

Section AppendValue.

Lemma alter_snoc (f : Line → Line) (h : list Line) x :
  alter f (length h) (h ++ [x]) = h ++ [f x].
Proof. induction h as [|y h IH]; cbn; [reflexivity|]. now f_equal. Qed.

Lemma first_section_bounds h rs : ∀ k i,
  first_section h rs k = Some i → k ≤ i < k + length rs.
Proof.
  induction rs as [|r rs IH]; intros k i; cbn; [discriminate|].
  destruct (h !! r) as [[| |]|]; try (intros H; apply IH in H; lia).
  intros [= <-]. lia.
Qed.

Lemma global_position_le h rs : global_position h rs ≤ length rs.
Proof.
  unfold global_position. destruct (first_section h rs 0) eqn:E; [|lia].
  apply first_section_bounds in E. lia.
Qed.

(** [#appendValue] on a record that was just created. *)
Lemma appendValue_alloc m n sec key val :
  appendValue (alloc m (LineValue n sec key val)).1 (length (heap m))
  = if bool_decide (length (lines m) = 0) then pushed m (LineValue 1 sec key val)
    else if truthy sec then
      appendOrDeleteLine (alloc m (LineValue n sec key val)).1 (length (heap m)) Add
    else
      let i := global_position (heap m ++ [LineValue n sec key val]) (lines m) in
      insert_line m i (LineValue (Z.of_nat i + 1) sec key val).
Proof.
  unfold appendValue. cbn [alloc fst lines with_heap heap].
  destruct (bool_decide (length (lines m) = 0)) eqn:Eempty.
  { unfold update, pushed. cbn. now rewrite alter_snoc. }
  rewrite list_lookup_middle by reflexivity. cbn [mbind option_bind line_sec].
  destruct (truthy sec); [reflexivity|]. cbn zeta.
  set (h1 := heap m ++ [LineValue n sec key val]).
  pose proof (global_position_le h1 (lines m)) as Hle.
  assert (Hnum : match first_section h1 (lines m) 0 with
                 | Some i => (Z.of_nat i + 1)%Z
                 | None => (lines_length (with_heap m h1) + 1)%Z
                 end = (Z.of_nat (global_position h1 (lines m)) + 1)%Z).
  { unfold global_position. now destruct (first_section h1 (lines m) 0). }
  rewrite Hnum. unfold update. cbn [heap with_heap]. subst h1.
  rewrite alter_snoc. cbn [set_num].
  erewrite appendOrDeleteLine_add_value;
    [|cbn; now apply list_lookup_middle|exact Hle].
  reflexivity.
Qed.

(** The same with the number the record was created with, for a record
    of a named section. *)
Lemma appendValue_alloc_at m i sec key val :
  length (lines m) ≠ 0 → truthy sec = true → i ≤ length (lines m) →
  appendValue (alloc m (LineValue (Z.of_nat i + 1) sec key val)).1 (length (heap m))
  = insert_line m i (LineValue (Z.of_nat i + 1) sec key val).
Proof.
  intros Hne Hsec Hi. rewrite appendValue_alloc.
  rewrite bool_decide_eq_false_2 by exact Hne. rewrite Hsec.
  erewrite appendOrDeleteLine_add_value;
    [|cbn; now apply list_lookup_middle|exact Hi].
  reflexivity.
Qed.

Lemma numbered_lines_alter h rs s f :
  numbered_lines h rs → (∀ l, line_num (f l) = line_num l) →
  numbered_lines (alter f s h) rs.
Proof.
  intros Hnum Hf i r Hi. destruct (Hnum i r Hi) as (l & Hl & Hn).
  destruct (decide (s = r)) as [->|Hne].
  - exists (f l). rewrite list_lookup_alter_eq, Hl. split; [reflexivity|].
    now rewrite Hf.
  - exists l. now rewrite list_lookup_alter_ne.
Qed.

(** A change to one record that keeps it a section of the same name. *)
Lemma sections_within_update slack slack' m s f :
  sections_within slack m →
  (∀ name l, section_named name l → section_named name (f l)) →
  (∀ name l i, name ≠ [] → section_named name l →
          heap m !! s = Some l → lines m !! i = Some s →
          (Z.of_nat i + 1 ≤ line_end l ≤ lines_length m + slack i)%Z →
          (Z.of_nat i + 1 ≤ line_end (f l) ≤ lines_length m + slack' i)%Z) →
  (∀ i, (slack i ≤ slack' i)%Z) →
  sections_within slack' (update m s f).
Proof.
  intros Hsec Hname Hend Hslack name r Hr. cbn in Hr.
  destruct (Hsec name r Hr) as (l & Hl & Hn & Hpos).
  unfold update. cbn [heap lines with_heap].
  destruct (decide (s = r)) as [->|Hne].
  - exists (f l). rewrite list_lookup_alter_eq, Hl. split; [reflexivity|].
    split; [now apply Hname|]. intros Hne. destruct (Hpos Hne) as (i & Hi & Hle).
    exists i. split; [exact Hi|]. now apply (Hend name).
  - exists l. rewrite list_lookup_alter_ne by exact Hne. split; [exact Hl|].
    split; [exact Hn|]. intros Hne'. destruct (Hpos Hne') as (i & Hi & Hle).
    exists i. split; [exact Hi|]. pose proof (Hslack i).
    unfold lines_length in *. cbn. lia.
Qed.

Lemma numbered_update m s f :
  numbered m →
  (∀ l, line_num (f l) = line_num l) →
  (∀ name l, section_named name l → section_named name (f l)) →
  (∀ name l i, name ≠ [] → section_named name l →
          heap m !! s = Some l → lines m !! i = Some s →
          (Z.of_nat i + 1 ≤ line_end l ≤ lines_length m + 0)%Z →
          (Z.of_nat i + 1 ≤ line_end (f l) ≤ lines_length m + 0)%Z) →
  numbered (update m s f).
Proof.
  intros [Hnd Hnum Hsec] Hf Hname Hend. split.
  - exact Hnd.
  - now apply numbered_lines_alter.
  - apply (sections_within_update (fun _ => 0%Z)); auto. intros; lia.
Qed.

Lemma line_num_set_key k r l : line_num (set_key k r l) = line_num l.
Proof. now destruct l. Qed.
Lemma line_num_set_end e l : line_num (set_end e l) = line_num l.
Proof. now destruct l. Qed.
Lemma line_num_add_end op l : line_num (add_end op l) = line_num l.
Proof. now destruct l. Qed.
Lemma line_num_set_val v l : line_num (set_val v l) = line_num l.
Proof. now destruct l. Qed.
Lemma section_named_set_key name k r l :
  section_named name l → section_named name (set_key k r l).
Proof. now destruct l. Qed.
Lemma section_named_set_end name e l :
  section_named name l → section_named name (set_end e l).
Proof. now destruct l. Qed.
Lemma section_named_add_end name op l :
  section_named name l → section_named name (add_end op l).
Proof. now destruct l. Qed.
Lemma section_named_set_val name v l :
  section_named name l → section_named name (set_val v l).
Proof. now destruct l. Qed.
Lemma line_end_set_key k r l : line_end (set_key k r l) = line_end l.
Proof. now destruct l. Qed.
Lemma line_end_set_val v l : line_end (set_val v l) = line_end l.
Proof. now destruct l. Qed.

End AppendValue.

Section NumberingParse.

Variable reviver : ReviverFunction.

Lemma numbered_with_global m g : numbered m → numbered (with_global m g).
Proof. intros [H1 H2 H3]. split; assumption. Qed.

Lemma numbered_infer_pretty m b : numbered m → numbered (infer_pretty m b).
Proof.
  intros H. unfold infer_pretty. destruct (pretty (formatting m)); [exact H|].
  now apply numbered_with_formatting.
Qed.

Lemma lines_length_pushed m l : lines_length (pushed m l) = (lines_length m + 1)%Z.
Proof. unfold lines_length. cbn. rewrite length_app. cbn. lia. Qed.

Lemma numbered_push_value m cs n key value :
  numbered m → n = (lines_length m + 1)%Z →
  numbered (push_value reviver m cs n key value).
Proof.
  intros Hm ->. destruct cs as [s|]; cbn [push_value].
  - set (lv := LineValue _ _ key _).
    change (numbered (update (update (pushed m lv) s (set_key key (length (heap m))))
                        s (set_end (lines_length m + 1)))).
    assert (H1 : numbered (pushed m lv)) by now apply numbered_pushed.
    apply numbered_update.
    + apply numbered_update; auto using line_num_set_key, section_named_set_key.
      intros name l i _ _ _ _ H. now rewrite line_end_set_key.
    + intros l. apply line_num_set_end.
    + intros name l. apply section_named_set_end.
    + intros name l i _ _ _ Hi Hold. cbn [lines update with_heap] in Hi.
      apply lookup_lt_Some in Hi.
      assert (Hlen : lines_length (update (pushed m lv) s (set_key key (length (heap m))))
                     = (lines_length m + 1)%Z) by apply lines_length_pushed.
      rewrite Hlen in *. unfold lines_length in *. cbn [pushed lines with_lines] in Hi.
      rewrite length_app in Hi. cbn in Hi.
      destruct l; cbn in *; try lia.
  - set (lv := LineValue _ _ key _).
    change (numbered (with_global (pushed m lv) (map_set (global m) key (length (heap m))))).
    apply numbered_with_global. now apply numbered_pushed.
Qed.

Lemma numbered_resume m lb : numbered m → numbered (resume m lb).
Proof.
  intros H. destruct lb as [lb|]; cbn; [|exact H].
  destruct (truthy _); [exact H|]. now apply numbered_with_formatting.
Qed.

Lemma lines_length_resume m lb : lines_length (resume m lb) = lines_length m.
Proof. destruct lb as [lb|]; cbn; [|reflexivity]. now destruct (truthy _). Qed.

(** A turn of the loop that starts with the next line number keeps the
    lines numbered and adds one line. *)
Lemma numbered_parseLine m cs n line m' cs' :
  numbered m → n = (lines_length m + 1)%Z →
  parseLine reviver m cs n line = inr (m', cs') →
  numbered m' ∧ lines_length m' = (lines_length m + 1)%Z.
Proof.
  intros Hm Hn H. apply parseLine_returns in H. cbn zeta in H.
  destruct H as [(_ & -> & _)|[(_ & _ & _ & -> & _)|(_ & -> & _)]].
  - split; [now apply numbered_push_comment|]. apply lines_length_pushed.
  - split; [now apply numbered_push_section|].
    unfold lines_length. cbn. rewrite length_app. cbn. lia.
  - split.
    + apply numbered_push_value; [now apply numbered_infer_pretty|].
      rewrite Hn. unfold infer_pretty. now destruct (pretty (formatting m)).
    + unfold lines_length, infer_pretty.
      destruct cs; destruct (pretty (formatting m)); cbn;
        rewrite length_app; cbn; lia.
Qed.

Lemma numbered_parseLines tokens : ∀ m cs n m' cs',
  numbered m → n = (lines_length m + 1)%Z →
  parseLines reviver m cs n tokens = inr (m', cs') →
  numbered m'.
Proof.
  induction tokens as [|[line lb] tokens IH]; intros m cs n m' cs' Hm Hn H.
  - cbn in H. now injection H as <- <-.
  - cbn [parseLines] in H.
    destruct (parseLine reviver m cs n line) as [e|[m1 cs1]] eqn:E; [discriminate|].
    destruct (numbered_parseLine _ _ _ _ _ _ Hm Hn E) as [Hm1 Hlen].
    apply (IH _ _ _ _ _ (numbered_resume m1 lb Hm1)) in H; [exact H|].
    rewrite lines_length_resume, Hlen, Hn. reflexivity.
Qed.

End NumberingParse.

Section NumberingSet.

Lemma numbered_getOrCreateSection m name :
  numbered m → numbered (getOrCreateSection m name).1.
Proof.
  intros Hm. unfold getOrCreateSection.
  destruct (map_get (sections m) name); [exact Hm|]. cbn.
  now apply (numbered_push_section m _ name Hm).
Qed.

Lemma getOrCreateSection_section m name :
  numbered m →
  map_get (sections (getOrCreateSection m name).1) name
  = Some (getOrCreateSection m name).2.
Proof.
  intros Hm. unfold getOrCreateSection.
  destruct (map_get (sections m) name) eqn:E; [exact E|]. cbn.
  apply map_get_set_eq.
Qed.

Lemma numbered_insert_line_plain m i l :
  numbered m → i ≤ length (lines m) → line_num l = (Z.of_nat i + 1)%Z →
  numbered (insert_line m i l).
Proof.
  intros [Hnd Hnum Hsec] Hi Hl. apply numbered_insert_line; try assumption.
  intros name r Hr. destruct (Hsec name r Hr) as (l0 & Hl0 & Hn & Hpos).
  exists l0. split; [exact Hl0|]. split; [exact Hn|]. intros Hne.
  destruct (Hpos Hne) as (p & Hp & Hle). exists p. split; [exact Hp|].
  unfold slack_before. case_decide; lia.
Qed.

Lemma numbered_set_global m key value : numbered m → numbered (set_global m key value).
Proof.
  intros Hm. unfold set_global.
  change (alloc m (LineValue 0 None key value))
    with ((alloc m (LineValue 0 None key value)).1, length (heap m)).
  cbn iota beta. rewrite appendValue_alloc. apply numbered_with_global.
  destruct (bool_decide (length (lines m) = 0)) eqn:Eempty.
  - apply numbered_pushed; [exact Hm|].
    apply bool_decide_eq_true_1 in Eempty. unfold lines_length. now rewrite Eempty.
  - cbn [truthy]. cbn zeta. apply numbered_insert_line_plain;
      [exact Hm|apply global_position_le|reflexivity].
Qed.

Lemma section_named_inv name l :
  section_named name l → ∃ n map e, l = LineSection n name map e.
Proof. destruct l; cbn; try contradiction. intros <-. eauto. Qed.

Lemma numbered_set_section m name key value :
  numbered m → numbered (set_section m name key value).
Proof.
  intros Hm. unfold set_section.
  pose proof (numbered_getOrCreateSection m name Hm) as Hm1.
  pose proof (getOrCreateSection_section m name Hm) as Hls.
  destruct (getOrCreateSection m name) as [m1 ls]. cbn [fst snd] in Hm1, Hls.
  destruct (numbered_sections _ Hm1 name ls Hls) as (l & Hl & Hnamed & Hpos).
  rewrite Hl. destruct (section_named_inv _ _ Hnamed) as (n & map & e & ->).
  destruct (map_get map key) as [r|].
  { apply numbered_update; auto using line_num_set_val, section_named_set_val.
    intros name' l i _ _ _ _ H. now rewrite line_end_set_val. }
  set (m2 := update m1 ls (add_end 1)).
  change (alloc m2 (LineValue (e + 1) (Some name) key value))
    with ((alloc m2 (LineValue (e + 1) (Some name) key value)).1, length (heap m2)).
  cbn iota beta.
  assert (Hnd2 : NoDup (lines m2)) by apply Hm1.
  assert (Hnum2 : numbered_lines (heap m2) (lines m2)).
  { apply numbered_lines_alter; [apply Hm1|]. apply line_num_add_end. }
  assert (Hfinal : ∀ m4, numbered m4 →
            numbered (update m4 ls (set_key key (length (heap m2))))).
  { intros m4 Hm4.
    apply numbered_update; auto using line_num_set_key, section_named_set_key.
    intros name' l i _ _ _ _ H. now rewrite line_end_set_key. }
  apply Hfinal. rewrite appendValue_alloc.
  destruct (bool_decide (length (lines m2) = 0)) eqn:Eempty.
  - apply bool_decide_eq_true_1 in Eempty.
    apply numbered_pushed; [|unfold lines_length; now rewrite Eempty].
    split; [exact Hnd2|exact Hnum2|].
    apply (sections_within_update (fun _ => 0%Z)); [apply Hm1|..].
    + intros name' l. apply section_named_add_end.
    + intros name' l i _ _ _ Hi _. apply lookup_lt_Some in Hi.
      change (lines m1) with (lines m2) in Hi. lia.
    + intros; lia.
  - apply bool_decide_eq_false_1 in Eempty.
    destruct name as [|c name].
    + cbn [truthy]. cbn zeta.
      apply numbered_insert_line;
        [exact Hnd2|exact Hnum2| |apply global_position_le|reflexivity].
      apply (sections_within_update (fun _ => 0%Z)); [apply Hm1|..].
      * intros name' l. apply section_named_add_end.
      * intros name' l i Hne Hnamed' Hl' _ _. exfalso.
        rewrite Hl in Hl'. injection Hl' as <-. cbn in Hnamed'. congruence.
      * intros i. unfold slack_before. case_decide; lia.
    + destruct (Hpos ltac:(discriminate)) as (p & Hp & Hle).
      cbn [truthy line_end] in *.
      assert (He : e = Z.of_nat (Z.to_nat e)) by lia.
      rewrite He at 1.
      erewrite appendOrDeleteLine_add_value;
        [|cbn; now apply list_lookup_middle
         |change (lines (alloc m2 _).1) with (lines m1); unfold lines_length in Hle; lia].
      change (numbered (insert_line m2 (Z.to_nat e)
                          (LineValue (Z.of_nat (Z.to_nat e) + 1) (Some (c :: name)) key value))).
      apply numbered_insert_line;
        [exact Hnd2|exact Hnum2| |change (lines m2) with (lines m1);
                                   unfold lines_length in Hle; lia|reflexivity].
      apply (sections_within_update (fun _ => 0%Z)); [apply Hm1|..].
      * intros name' l. apply section_named_add_end.
      * intros name' l i _ _ Hl' Hi Hold.
        rewrite Hl in Hl'. injection Hl' as <-. cbn [line_end add_end] in *.
        unfold slack_before. case_decide; lia.
      * intros i. unfold slack_before. case_decide; lia.
Qed.

Lemma numbered_set m keyOrSection valueOrKey value :
  numbered m → numbered (set m keyOrSection valueOrKey value).
Proof.
  intros Hm. unfold set.
  destruct valueOrKey; try (now apply numbered_set_global);
    destruct value; try (now apply numbered_set_global);
    now apply numbered_set_section.
Qed.

End NumberingSet.

(** ** The numbering of the lines, from the empty model on *)

Section LineNumbers.

Lemma numbered_parse f text reviver m :
  parse (new_IniMap f) (JString text) reviver = Return m → numbered m.
Proof.
  cbn [parse]. intros H.
  destruct (parseLines _ (new_IniMap f) None 1 (readTextLines text))
    as [[e m1]|[m1 cs1]] eqn:E; [discriminate|].
  injection H as <-.
  eapply numbered_parseLines; [apply (numbered_new f)|reflexivity|exact E].
Qed.

Lemma reachable_numbered m : reachable m → numbered m.
Proof.
  induction 1 as [f|f text reviver m H|m a b c _ IH].
  - apply numbered_new.
  - eapply numbered_parse, H.
  - now apply numbered_set.
Qed.

Lemma numbered_line_numbers m :
  numbered m → line_numbers m = one_to (length (lines m)).
Proof.
  intros [_ Hnum _]. unfold line_numbers, one_to. apply list_eq. intros i.
  rewrite !list_lookup_fmap.
  destruct (lines m !! i) as [r|] eqn:Hi; cbn.
  - destruct (Hnum i r Hi) as (l & -> & Hn). cbn. rewrite Hn.
    apply lookup_lt_Some in Hi.
    assert (Hs : seq 1 (length (lines m)) !! i = Some (1 + i))
      by (apply lookup_seq; lia).
    rewrite Hs. cbn. do 2 f_equal. lia.
  - apply lookup_ge_None in Hi.
    assert (Hs : seq 1 (length (lines m)) !! i = None)
      by (apply lookup_ge_None; rewrite length_seq; lia).
    now rewrite Hs.
Qed.

(** C3, as the code has it.  After a parse into an empty model, if any,
    and after each [set] that follows, the line records carry the numbers
    [1 .. length] in line order, each its 1-based position, and no record
    stands on two lines. *)
Theorem reachable_lines_numbered (m : IniMap) :
  reachable m →
  line_numbers m = one_to (length (lines m))
  ∧ (∀ i r, lines m !! i = Some r →
       ∃ l, heap m !! r = Some l ∧ line_num l = Z.of_nat (S i))
  ∧ NoDup (lines m).
Proof.
  intros H%reachable_numbered. split; [now apply numbered_line_numbers|].
  split; [|apply H].
  intros i r Hi. destruct (numbered_nums m H i r Hi) as (l & Hl & Hn).
  exists l. split; [exact Hl|]. rewrite Hn. lia.
Qed.

Lemma reachable_lines_numbered_witness :
  line_numbers
    (set (set {| heap := [LineSection 1 (js "s") [(js "a", 1)] 2;
                          LineValue 2 (Some (js "s")) (js "a") (VNumber (Fin 1));
                          LineSection 3 (js "t") [] 3];
                 global := [];
                 sections := [(js "s", 0); (js "t", 2)];
                 lines := [0; 1; 2];
                 formatting := {| lineBreak := Some [LF]; pretty := Some false |} |}
              (js "s") (VString (js "b")) VNull)
         (js "g") VNull VUndefined)
  = one_to 5.
Proof.
  refine (proj1 (reachable_lines_numbered _ _)).
  do 2 apply reachable_set.
  apply (reachable_parse noFormatting text_three_lines None).
  vm_compute. reflexivity.
Defined.

(** A second [parse] numbers its lines from 1 again, behind the lines
    that are already there. *)
Lemma parse_twice_restarts_numbering :
  ∃ m1 m2,
    parse (new_IniMap noFormatting) (JString (js "a=1")) None = Return m1
    ∧ parse m1 (JString (js "b=2")) None = Return m2
    ∧ line_numbers m2 = [Some 1%Z; Some 1%Z]
    ∧ line_numbers m2 ≠ one_to (length (lines m2)).
Proof.
  do 2 eexists. split; [vm_compute; reflexivity|].
  split; [vm_compute; reflexivity|].
  split; [vm_compute; reflexivity|]. vm_compute. discriminate.
Qed.

End LineNumbers.

(** ** Sections in line order *)

Section Ordered.

Lemma ordered_new f : ordered (new_IniMap f).
Proof. intros p r l H. discriminate. Qed.

(** The record found on a line after an insertion at [i]: an old one
    ahead of [i], the new one at [i], or an old one renumbered. *)
Lemma insert_line_lookup m i lv p' r l' :
  numbered m → i ≤ length (lines m) →
  lines (insert_line m i lv) !! p' = Some r →
  heap (insert_line m i lv) !! r = Some l' →
  (p' < i ∧ lines m !! p' = Some r ∧ heap m !! r = Some l')
  ∨ (p' = i ∧ r = length (heap m) ∧ l' = lv)
  ∨ (∃ p l, p' = S p ∧ i ≤ p ∧ lines m !! p = Some r
            ∧ heap m !! r = Some l ∧ l' = bump 1 l).
Proof.
  intros Hm Hi Hp Hr. pose proof (numbered_fresh m Hm) as Hfresh.
  destruct Hm as [Hnd Hnum _].
  assert (Hnd' : NoDup (drop i (lines m))).
  { rewrite <- (take_drop i (lines m)) in Hnd. now apply NoDup_app in Hnd as (_ & _ & ?). }
  cbn [insert_line lines heap with_lines with_heap] in Hp, Hr.
  destruct (lt_eq_lt_dec p' i) as [[Hlt | ->] | Hgt].
  - left. rewrite inserted_lookup_lt in Hp by assumption.
    destruct (Hnum p' r Hp) as (l0 & Hl0 & _).
    rewrite shifted_lookup_notin in Hr
      by exact (not_elem_of_drop_lookup _ i p' r Hnd Hp Hlt).
    rewrite (lookup_app_l_Some _ _ _ _ Hl0) in Hr. injection Hr as <-. auto.
  - right; left. rewrite inserted_lookup_eq in Hp by assumption. injection Hp as <-.
    rewrite shifted_lookup_notin in Hr
      by (intros Hin; apply Hfresh; eapply elem_of_drop; eassumption).
    rewrite list_lookup_middle in Hr by reflexivity. injection Hr as <-. auto.
  - right; right. destruct p' as [|p]; [lia|].
    rewrite inserted_lookup_gt in Hp by lia.
    destruct (Hnum p r Hp) as (l0 & Hl0 & _).
    rewrite shifted_lookup_in in Hr;
      [|exact Hnd'|eapply elem_of_drop_lookup; [eassumption|lia]].
    rewrite (lookup_app_l_Some _ _ _ _ Hl0) in Hr. injection Hr as <-.
    exists p, l0. repeat split; try assumption; lia.
Qed.

Lemma isSectionLine_bump op l : isSectionLine (bump op l) = isSectionLine l.
Proof. now destruct l. Qed.

Lemma line_end_bump_section op l :
  isSectionLine l = true → line_end (bump op l) = (line_end l + op)%Z.
Proof. now destruct l. Qed.

Lemma lines_length_insert_line m i lv :
  lines_length (insert_line m i lv) = (lines_length m + 1)%Z.
Proof. unfold lines_length. cbn. rewrite length_inserted. lia. Qed.

Lemma ordered_insert_line m i lv :
  numbered m → ordered m → i ≤ length (lines m) → isSectionLine lv = false →
  ordered (insert_line m i lv).
Proof.
  intros Hm Hord Hi Hlv p' r l' Hp Hr Hsec.
  rewrite lines_length_insert_line.
  destruct (insert_line_lookup _ _ _ _ _ _ Hm Hi Hp Hr)
    as [(Hlt & Hp0 & Hr0)|[(-> & -> & ->)|(p & l & -> & Hge & Hp0 & Hr0 & ->)]].
  - destruct (Hord p' r l' Hp0 Hr0 Hsec) as [Hb Hpairs]. split; [lia|].
    intros q' s k' Hq Hs Hk Hksec.
    destruct (insert_line_lookup _ _ _ _ _ _ Hm Hi Hs Hk)
      as [(Hlt' & Hs0 & Hk0)|[(-> & -> & ->)|(q & k & -> & Hge' & Hs0 & Hk0 & ->)]].
    + now apply (Hpairs q' s k').
    + congruence.
    + rewrite isSectionLine_bump in Hksec.
      pose proof (Hpairs q s k ltac:(lia) Hs0 Hk0 Hksec). lia.
  - congruence.
  - rewrite isSectionLine_bump in Hsec. rewrite (line_end_bump_section _ _ Hsec).
    destruct (Hord p r l Hp0 Hr0 Hsec) as [Hb Hpairs]. split; [lia|].
    intros q' s k' Hq Hs Hk Hksec.
    destruct (insert_line_lookup _ _ _ _ _ _ Hm Hi Hs Hk)
      as [(Hlt' & Hs0 & Hk0)|[(-> & -> & ->)|(q & k & -> & Hge' & Hs0 & Hk0 & ->)]].
    + lia.
    + lia.
    + rewrite isSectionLine_bump in Hksec.
      pose proof (Hpairs q s k ltac:(lia) Hs0 Hk0 Hksec). lia.
Qed.

(** A change to one record that leaves its kind and its end alone. *)
Lemma ordered_update m s f :
  ordered m →
  (∀ l, isSectionLine (f l) = isSectionLine l) →
  (∀ l, line_end (f l) = line_end l) →
  ordered (update m s f).
Proof.
  intros Hord Hkind Hend p r l' Hp Hr Hsec.
  assert (Hlook : ∀ x y, heap (update m s f) !! x = Some y →
            ∃ y0, heap m !! x = Some y0 ∧ isSectionLine y = isSectionLine y0
                  ∧ line_end y = line_end y0).
  { intros x y Hy. cbn in Hy. destruct (decide (s = x)) as [->|Hne].
    - rewrite list_lookup_alter_eq in Hy.
      destruct (heap m !! x) as [y0|]; [|discriminate]. injection Hy as <-. eauto.
    - rewrite list_lookup_alter_ne in Hy by exact Hne. eauto. }
  destruct (Hlook _ _ Hr) as (l & Hl & Hk & He). rewrite Hk in Hsec. rewrite He.
  destruct (Hord p r l Hp Hl Hsec) as [Hb Hpairs]. split; [exact Hb|].
  intros q r' k' Hq Hr' Hk' Hksec.
  destruct (Hlook _ _ Hk') as (k & Hk0 & Hkk & _). rewrite Hkk in Hksec.
  exact (Hpairs q r' k Hq Hr' Hk0 Hksec).
Qed.

(** The end of the section on line [p] moved to [e], when no section
    header stands between that line and line [e]. *)
Lemma ordered_set_end m s p e :
  numbered m → ordered m →
  lines m !! p = Some s →
  (Z.of_nat p + 1 ≤ e ≤ lines_length m)%Z →
  (∀ q r l, p < q → (Z.of_nat q + 1 ≤ e)%Z → lines m !! q = Some r →
            heap m !! r = Some l → isSectionLine l = false) →
  ordered (update m s (set_end e)).
Proof.
  intros Hm Hord Hs He Hfree p0 r l' Hp Hr Hsec. cbn in Hp, Hr.
  change (lines_length (update m s (set_end e))) with (lines_length m).
  assert (Hlook : ∀ x y, alter (set_end e) s (heap m) !! x = Some y →
            ∃ y0, heap m !! x = Some y0 ∧ isSectionLine y = isSectionLine y0
                  ∧ (x ≠ s → y = y0)
                  ∧ (x = s → isSectionLine y0 = true → line_end y = e)).
  { intros x y Hy. destruct (decide (s = x)) as [->|Hne].
    - rewrite list_lookup_alter_eq in Hy.
      destruct (heap m !! x) as [y0|]; [|discriminate]. injection Hy as <-.
      exists y0. repeat split; try congruence; now destruct y0.
    - rewrite list_lookup_alter_ne in Hy by exact Hne.
      exists y. repeat split; congruence. }
  destruct (Hlook _ _ Hr) as (l & Hl & Hk & Hother & Hself). rewrite Hk in Hsec.
  destruct (Hord p0 r l Hp Hl Hsec) as [Hb Hpairs].
  destruct (decide (r = s)) as [->|Hne].
  - rewrite (Hself eq_refl Hsec).
    assert (p0 = p) by exact (NoDup_lookup _ _ _ _ (numbered_nodup m Hm) Hp Hs).
    subst p0. split; [exact He|].
    intros q r' k' Hq Hr' Hk' Hksec.
    destruct (Hlook _ _ Hk') as (k & Hk0 & Hkk & _). rewrite Hkk in Hksec.
    destruct (Z_le_gt_dec (Z.of_nat q + 1) e) as [Hle|Hgt]; [|lia].
    rewrite (Hfree q r' k Hq Hle Hr' Hk0) in Hksec. discriminate.
  - rewrite (Hother Hne). split; [exact Hb|].
    intros q r' k' Hq Hr' Hk' Hksec.
    destruct (Hlook _ _ Hk') as (k & Hk0 & Hkk & _). rewrite Hkk in Hksec.
    exact (Hpairs q r' k Hq Hr' Hk0 Hksec).
Qed.

(** A record put after the last line: any record that is no section, or a
    section that ends on its own header. *)
Lemma ordered_pushed m l :
  numbered m → ordered m →
  (isSectionLine l = true → line_end l = (lines_length m + 1)%Z) →
  ordered (pushed m l).
Proof.
  intros Hm Hord Hl p r l' Hp Hr Hsec.
  rewrite lines_length_pushed. cbn in Hp, Hr.
  assert (Hold : ∀ x y z, lines m !! x = Some y → (heap m ++ [l]) !! y = Some z →
                          heap m !! y = Some z).
  { intros x y z Hx Hy. destruct (numbered_nums m Hm x y Hx) as (z0 & Hz0 & _).
    rewrite (lookup_app_l_Some _ _ _ _ Hz0) in Hy. congruence. }
  apply lookup_app_Some in Hp as [Hp|[Hlen Hp]].
  - apply (Hold p) in Hr; [|exact Hp].
    destruct (Hord p r l' Hp Hr Hsec) as [Hb Hpairs]. split; [lia|].
    intros q r' k' Hq Hr' Hk' Hksec.
    apply lookup_app_Some in Hr' as [Hr'|[Hlen' Hr']].
    + apply (Hold q) in Hk'; [|exact Hr']. exact (Hpairs q r' k' Hq Hr' Hk' Hksec).
    + unfold lines_length in Hb. lia.
  - apply list_lookup_singleton_Some in Hp as [Hp <-].
    rewrite list_lookup_middle in Hr by reflexivity. injection Hr as <-.
    rewrite (Hl Hsec). unfold lines_length. split; [lia|].
    intros q r' k' Hq Hr' _ _. apply lookup_lt_Some in Hr'.
    cbn [pushed lines with_lines] in Hr'.
    rewrite length_app in Hr'. cbn in Hr'. lia.
Qed.

End Ordered.

Section OrderedParse.

Variable reviver : ReviverFunction.

Lemma no_section_after_pushed m l p :
  numbered m → no_section_after m p → isSectionLine l = false →
  no_section_after (pushed m l) p.
Proof.
  intros Hm Hfree Hl q r k Hq Hr Hk. cbn in Hr, Hk.
  apply lookup_app_Some in Hr as [Hr|[_ Hr]].
  - destruct (numbered_nums m Hm q r Hr) as (k0 & Hk0 & _).
    rewrite (lookup_app_l_Some _ _ _ _ Hk0) in Hk. injection Hk as <-.
    exact (Hfree q r k0 Hq Hr Hk0).
  - apply list_lookup_singleton_Some in Hr as [_ <-].
    rewrite list_lookup_middle in Hk by reflexivity. now injection Hk as <-.
Qed.

Lemma no_section_after_update m s f p :
  no_section_after m p → (∀ l, isSectionLine (f l) = isSectionLine l) →
  no_section_after (update m s f) p.
Proof.
  intros Hfree Hf q r k Hq Hr Hk. cbn in Hr, Hk.
  destruct (decide (s = r)) as [->|Hne].
  - rewrite list_lookup_alter_eq in Hk.
    destruct (heap m !! r) as [k0|] eqn:Hk0; [|discriminate]. injection Hk as <-.
    rewrite Hf. exact (Hfree q r k0 Hq Hr Hk0).
  - rewrite list_lookup_alter_ne in Hk by exact Hne. exact (Hfree q r k Hq Hr Hk).
Qed.

Lemma isSectionLine_set_key k r l : isSectionLine (set_key k r l) = isSectionLine l.
Proof. now destruct l. Qed.
Lemma isSectionLine_set_end e l : isSectionLine (set_end e l) = isSectionLine l.
Proof. now destruct l. Qed.
Lemma isSectionLine_set_val v l : isSectionLine (set_val v l) = isSectionLine l.
Proof. now destruct l. Qed.

Lemma well_formed_new f : well_formed (new_IniMap f).
Proof. split; [apply numbered_new|apply ordered_new]. Qed.

Lemma ordered_push_value m cs n key value :
  numbered m → ordered m → cursor_last m cs → n = (lines_length m + 1)%Z →
  ordered (push_value reviver m cs n key value)
  ∧ cursor_last (push_value reviver m cs n key value) cs.
Proof.
  intros Hm Hord Hcur ->. destruct cs as [s|]; cbn [push_value].
  - set (lv := LineValue _ _ key _).
    change (ordered (update (update (pushed m lv) s (set_key key (length (heap m))))
                       s (set_end (lines_length m + 1)))
            ∧ cursor_last (update (update (pushed m lv) s (set_key key (length (heap m))))
                             s (set_end (lines_length m + 1))) (Some s)).
    destruct Hcur as (p & Hp & Hfree).
    assert (H1 : numbered (pushed m lv)) by now apply numbered_pushed.
    assert (H2 : numbered (update (pushed m lv) s (set_key key (length (heap m))))).
    { apply numbered_update; auto using line_num_set_key, section_named_set_key.
      intros name l i _ _ _ _ H. now rewrite line_end_set_key. }
    assert (Hfree2 : no_section_after
                       (update (pushed m lv) s (set_key key (length (heap m)))) p).
    { apply no_section_after_update; [|intros; apply isSectionLine_set_key].
      now apply no_section_after_pushed. }
    assert (Hp2 : lines (update (pushed m lv) s (set_key key (length (heap m)))) !! p
                  = Some s) by (cbn; now apply lookup_app_l_Some).
    split.
    + apply (ordered_set_end _ s p); try assumption.
      * apply ordered_update;
          [|intros; apply isSectionLine_set_key|intros; apply line_end_set_key].
        apply ordered_pushed; [assumption..|discriminate].
      * change (lines_length (update (pushed m lv) s _)) with (lines_length (pushed m lv)).
        rewrite lines_length_pushed. apply lookup_lt_Some in Hp.
        unfold lines_length. lia.
      * intros q r l Hq _. now apply Hfree2.
    + exists p. split; [exact Hp2|].
      apply no_section_after_update; [exact Hfree2|intros; apply isSectionLine_set_end].
  - split; [|exact I]. set (lv := LineValue _ _ key _).
    change (ordered (pushed m lv)).
    apply ordered_pushed; [assumption..|discriminate].
Qed.

Lemma ordered_with_formatting m f : ordered m → ordered (with_formatting m f).
Proof. intros H. exact H. Qed.

Lemma cursor_last_infer_pretty m b cs : cursor_last m cs → cursor_last (infer_pretty m b) cs.
Proof. unfold infer_pretty. now destruct (pretty (formatting m)). Qed.

Lemma ordered_infer_pretty m b : ordered m → ordered (infer_pretty m b).
Proof. unfold infer_pretty. now destruct (pretty (formatting m)). Qed.

Lemma well_formed_parseLine m cs n line m' cs' :
  well_formed m → cursor_last m cs → n = (lines_length m + 1)%Z →
  parseLine reviver m cs n line = inr (m', cs') →
  well_formed m' ∧ cursor_last m' cs' ∧ lines_length m' = (lines_length m + 1)%Z.
Proof.
  intros [Hm Hord] Hcur Hn H.
  destruct (numbered_parseLine reviver _ _ _ _ _ _ Hm Hn H) as [Hm' Hlen].
  split; [split; [exact Hm'|]|split; [|exact Hlen]];
    apply parseLine_returns in H; cbn zeta in H;
    destruct H as [(_ & -> & ->)|[(_ & _ & _ & -> & ->)|(_ & -> & ->)]].
  - apply ordered_pushed; [assumption..|discriminate].
  - subst n. apply (ordered_pushed m (LineSection _ _ [] _)); [assumption..|reflexivity].
  - apply ordered_push_value;
      [now apply numbered_infer_pretty|now apply ordered_infer_pretty
      |now apply cursor_last_infer_pretty|].
    rewrite Hn. unfold infer_pretty. now destruct (pretty (formatting m)).
  - destruct cs as [s|]; [|exact I]. destruct Hcur as (p & Hp & Hfree).
    exists p. split; [cbn; now apply lookup_app_l_Some|].
    now apply no_section_after_pushed.
  - exists (length (lines m)). split; [cbn; now apply list_lookup_middle|].
    intros q r l Hq Hr _. apply lookup_lt_Some in Hr. cbn in Hr.
    rewrite length_app in Hr. cbn in Hr. lia.
  - apply ordered_push_value;
      [now apply numbered_infer_pretty|now apply ordered_infer_pretty
      |now apply cursor_last_infer_pretty|].
    rewrite Hn. unfold infer_pretty. now destruct (pretty (formatting m)).
Qed.

Lemma well_formed_resume m lb : well_formed m → well_formed (resume m lb).
Proof.
  intros [Hm Hord]. split; [now apply numbered_resume|].
  destruct lb as [lb|]; cbn; [|exact Hord]. now destruct (truthy _).
Qed.

Lemma cursor_last_resume m lb cs : cursor_last m cs → cursor_last (resume m lb) cs.
Proof. destruct lb as [lb|]; cbn; [|auto]. now destruct (truthy _). Qed.

Lemma well_formed_parseLines tokens : ∀ m cs n m' cs',
  well_formed m → cursor_last m cs → n = (lines_length m + 1)%Z →
  parseLines reviver m cs n tokens = inr (m', cs') →
  well_formed m'.
Proof.
  induction tokens as [|[line lb] tokens IH]; intros m cs n m' cs' Hm Hcur Hn H.
  - cbn in H. now injection H as <- <-.
  - cbn [parseLines] in H.
    destruct (parseLine reviver m cs n line) as [e|[m1 cs1]] eqn:E; [discriminate|].
    destruct (well_formed_parseLine _ _ _ _ _ _ Hm Hcur Hn E) as (Hm1 & Hcur1 & Hlen).
    apply (IH _ _ _ _ _ (well_formed_resume m1 lb Hm1)
             (cursor_last_resume m1 lb cs1 Hcur1)) in H; [exact H|].
    rewrite lines_length_resume, Hlen, Hn. reflexivity.
Qed.

End OrderedParse.

(** ** [set] on a well-formed document *)

Section SetWellFormed.

Lemma well_formed_parse f text reviver m :
  parse (new_IniMap f) (JString text) reviver = Return m → well_formed m.
Proof.
  cbn [parse]. intros H.
  destruct (parseLines _ (new_IniMap f) None 1 (readTextLines text))
    as [[e m1]|[m1 cs1]] eqn:E; [discriminate|].
  injection H as <-.
  exact (well_formed_parseLines _ _ _ None _ _ _ (well_formed_new f) I eq_refl E).
Qed.

(** The model after [set(key, value)]: the new Value line stands before
    the first section, or last when there is none. *)
Lemma set_global_eq m key value :
  numbered m →
  set_global m key value
  = with_global
      (insert_line m (global_position (heap m) (lines m))
         (LineValue (Z.of_nat (global_position (heap m) (lines m)) + 1) None key value))
      (map_set (global m) key (length (heap m))).
Proof.
  intros Hm. unfold set_global.
  change (alloc m (LineValue 0 None key value))
    with ((alloc m (LineValue 0 None key value)).1, length (heap m)).
  cbn iota beta. rewrite appendValue_alloc.
  assert (Hfirst : ∀ k, first_section (heap m ++ [LineValue 0 None key value]) (lines m) k
                        = first_section (heap m) (lines m) k).
  { assert (Hvalid : ∀ r, r ∈ lines m → r < length (heap m))
      by (intros r; apply numbered_lines_valid, Hm).
    induction (lines m) as [|r rs IH]; intros k; [reflexivity|].
    cbn. rewrite lookup_app_l by (apply Hvalid; left).
    rewrite IH; [reflexivity|]. intros x Hx. apply Hvalid. now right. }
  assert (Hpos : global_position (heap m ++ [LineValue 0 None key value]) (lines m)
                 = global_position (heap m) (lines m)).
  { unfold global_position. now rewrite Hfirst. }
  destruct (bool_decide (length (lines m) = 0)) eqn:Eempty.
  - apply bool_decide_eq_true_1 in Eempty.
    destruct (lines m) as [|] eqn:El; [|discriminate].
    unfold insert_line, pushed, global_position. rewrite El. reflexivity.
  - cbn [truthy]. cbn zeta. now rewrite Hpos.
Qed.

Lemma well_formed_set_global m key value :
  well_formed m → well_formed (set_global m key value).
Proof.
  intros [Hm Hord]. split; [now apply numbered_set_global|].
  rewrite set_global_eq by exact Hm.
  change (ordered (insert_line m (global_position (heap m) (lines m))
                     (LineValue (Z.of_nat (global_position (heap m) (lines m)) + 1)
                        None key value))).
  apply ordered_insert_line; [assumption..|apply global_position_le|reflexivity].
Qed.

Lemma shifted_alter_commute op rs f s : ∀ h,
  s ∉ rs → shifted op rs (alter f s h) = alter f s (shifted op rs h).
Proof.
  induction rs as [|r rs IH]; intros h Hs; [reflexivity|].
  apply not_elem_of_cons in Hs as [Hne Hs]. cbn.
  change (fold_left _ rs ?a) with (shifted op rs a).
  rewrite <- IH by exact Hs. f_equal. now apply list_alter_alter_ne.
Qed.

(** The model after [set(section, key, value)] for a new key of a section
    that exists under a non-empty name: the new Value line stands right
    after the last line of the section, and the section ends on it. *)
Lemma set_section_new_key_eq m name key value ls n map e :
  numbered m → name ≠ [] →
  map_get (sections m) name = Some ls →
  heap m !! ls = Some (LineSection n name map e) →
  map_get map key = None →
  (0 ≤ e)%Z
  ∧ Z.to_nat e ≤ length (lines m)
  ∧ set_section m name key value
    = update
        (update
           (insert_line m (Z.to_nat e) (LineValue (e + 1) (Some name) key value))
           ls (set_end (e + 1)))
        ls (set_key key (length (heap m))).
Proof.
  intros Hm Hname Hls Hl Hkey.
  destruct (numbered_sections _ Hm name ls Hls) as (l & Hl' & _ & Hpos).
  rewrite Hl in Hl'. injection Hl' as <-.
  destruct (Hpos Hname) as (p & Hp & Hle). cbn [line_end] in Hle.
  unfold lines_length in Hle.
  split; [lia|]. split; [lia|].
  unfold set_section, getOrCreateSection. rewrite Hls, Hl, Hkey.
  set (m2 := update m ls (add_end 1)).
  change (alloc m2 (LineValue (e + 1) (Some name) key value))
    with ((alloc m2 (LineValue (e + 1) (Some name) key value)).1, length (heap m2)).
  cbn iota beta.
  assert (He : (e + 1 = Z.of_nat (Z.to_nat e) + 1)%Z) by lia.
  rewrite He at 1.
  rewrite appendValue_alloc_at;
    [|apply lookup_lt_Some in Hp; cbn; lia|now destruct name|cbn; lia].
  rewrite <- He.
  assert (Hvalid : ls < length (heap m)) by (now apply lookup_lt_Some in Hl).
  assert (Hout : ls ∉ drop (Z.to_nat e) (lines m)).
  { apply (not_elem_of_drop_lookup _ (Z.to_nat e) p ls (numbered_nodup m Hm) Hp). lia. }
  assert (Hheap :
    shifted 1 (drop (Z.to_nat e) (lines m))
      (alter (add_end 1) ls (heap m) ++ [LineValue (e + 1) (Some name) key value])
    = alter (set_end (e + 1)) ls
        (shifted 1 (drop (Z.to_nat e) (lines m))
           (heap m ++ [LineValue (e + 1) (Some name) key value]))).
  { rewrite <- alter_app_l by exact Hvalid.
    rewrite shifted_alter_commute by exact Hout.
    apply alter_ext_at. intros l0 Hl0.
    rewrite shifted_lookup_notin in Hl0 by exact Hout.
    rewrite (lookup_app_l_Some _ _ _ _ Hl) in Hl0. now injection Hl0 as <-. }
  unfold insert_line, update, m2.
  cbn [heap lines global sections formatting with_heap with_lines update].
  rewrite length_alter, Hheap. reflexivity.
Qed.

End SetWellFormed.

Section SetSectionWellFormed.

Lemma set_section_getOrCreate m name key value :
  numbered m →
  set_section m name key value
  = set_section (getOrCreateSection m name).1 name key value.
Proof.
  intros Hm. pose proof (getOrCreateSection_section m name Hm) as Hls.
  destruct (getOrCreateSection m name) as [m1 ls] eqn:E. cbn [fst snd] in *.
  unfold set_section. rewrite E. unfold getOrCreateSection. now rewrite Hls.
Qed.

Lemma ordered_getOrCreateSection m name :
  well_formed m → ordered (getOrCreateSection m name).1.
Proof.
  intros [Hm Hord]. unfold getOrCreateSection.
  destruct (map_get (sections m) name); [exact Hord|]. cbn.
  apply (ordered_pushed m (LineSection _ name [] _)); [assumption..|reflexivity].
Qed.

(** The lines between a section header and the end of the section hold no
    other section header. *)
Lemma ordered_section_body m p ls l :
  ordered m → lines m !! p = Some ls → heap m !! ls = Some l →
  isSectionLine l = true →
  ∀ q r k, p < q → (Z.of_nat q < line_end l)%Z → lines m !! q = Some r →
    heap m !! r = Some k → isSectionLine k = false.
Proof.
  intros Hord Hp Hl Hsec q r k Hq Hlt Hr Hk.
  destruct (isSectionLine k) eqn:E; [|reflexivity].
  destruct (Hord p ls l Hp Hl Hsec) as [_ Hpairs].
  pose proof (Hpairs q r k Hq Hr Hk E). lia.
Qed.

Lemma well_formed_set_section m name key value :
  well_formed m → name ≠ [] → well_formed (set_section m name key value).
Proof.
  intros Hwf Hname. split; [apply numbered_set_section, Hwf|].
  rewrite set_section_getOrCreate by apply Hwf.
  pose proof (numbered_getOrCreateSection m name (proj1 Hwf)) as Hm1.
  pose proof (ordered_getOrCreateSection m name Hwf) as Hord1.
  pose proof (getOrCreateSection_section m name (proj1 Hwf)) as Hls.
  destruct (getOrCreateSection m name) as [m1 ls]. cbn [fst snd] in *.
  destruct (numbered_sections _ Hm1 name ls Hls) as (l & Hl & Hnamed & Hpos).
  destruct (section_named_inv _ _ Hnamed) as (n & map & e & ->).
  destruct (Hpos Hname) as (p & Hp & Hle). cbn [line_end] in Hle.
  destruct (map_get map key) as [r|] eqn:Hkey.
  - unfold set_section, getOrCreateSection. rewrite Hls, Hl, Hkey.
    apply ordered_update; [exact Hord1|intros; apply isSectionLine_set_val
                          |intros; apply line_end_set_val].
  - destruct (set_section_new_key_eq m1 name key value ls n map e Hm1 Hname Hls Hl Hkey)
      as (He0 & Hei & ->).
    set (lv := LineValue (e + 1) (Some name) key value).
    assert (Hm2 : numbered (insert_line m1 (Z.to_nat e) lv)).
    { apply numbered_insert_line_plain; [exact Hm1|exact Hei|]. cbn. lia. }
    apply ordered_update;
      [|intros; apply isSectionLine_set_key|intros; apply line_end_set_key].
    apply (ordered_set_end _ ls p); [exact Hm2| | | |].
    + now apply ordered_insert_line.
    + cbn [insert_line lines with_lines]. rewrite inserted_lookup_lt; [exact Hp|exact Hei|lia].
    + rewrite lines_length_insert_line. lia.
    + intros q r k Hq Hqe Hr Hk.
      destruct (insert_line_lookup _ _ _ _ _ _ Hm1 Hei Hr Hk)
        as [(Hlt & Hr0 & Hk0)|[(_ & _ & ->)|(q0 & k0 & -> & Hge & _)]].
      * apply (ordered_section_body m1 p ls _ Hord1 Hp Hl eq_refl q r k Hq);
          [cbn; lia|assumption..].
      * reflexivity.
      * lia.
Qed.

Lemma set_branch m keyOrSection valueOrKey value :
  set m keyOrSection valueOrKey value
  = match section_key valueOrKey value with
    | Some key => set_section m keyOrSection key value
    | None => set_global m keyOrSection valueOrKey
    end.
Proof. destruct valueOrKey; try reflexivity. now destruct value. Qed.

Lemma built_well_formed m : built m → well_formed m.
Proof.
  induction 1 as [f|f text reviver m H|m a b c _ IH Hname].
  - apply well_formed_new.
  - eapply well_formed_parse, H.
  - rewrite set_branch. destruct (section_key b c) as [key|].
    + apply well_formed_set_section; [exact IH|]. apply Hname. eauto.
    + now apply well_formed_set_global.
Qed.

End SetSectionWellFormed.

(** ** The effect of a [set] that adds a line *)

Section SetEffect.

Lemma insert_line_old_record m i lv p r l :
  numbered m → i ≤ length (lines m) →
  lines m !! p = Some r → heap m !! r = Some l →
  heap (insert_line m i lv) !! r = Some (renumbered i p l).
Proof.
  intros Hm Hi Hp Hl. cbn [insert_line heap with_lines with_heap].
  pose proof (numbered_nodup m Hm) as Hnd.
  assert (Hnd' : NoDup (drop i (lines m))).
  { rewrite <- (take_drop i (lines m)) in Hnd. now apply NoDup_app in Hnd as (_ & _ & ?). }
  unfold renumbered. case_decide as Hip.
  - rewrite shifted_lookup_in; [|exact Hnd'|now apply (elem_of_drop_lookup _ i p)].
    now rewrite (lookup_app_l_Some _ _ _ _ Hl).
  - rewrite shifted_lookup_notin
      by (apply (not_elem_of_drop_lookup _ i p r Hnd Hp); lia).
    now apply lookup_app_l_Some.
Qed.

Lemma insert_line_new_record m i lv :
  numbered m → heap (insert_line m i lv) !! length (heap m) = Some lv.
Proof.
  intros Hm. cbn [insert_line heap with_lines with_heap].
  rewrite shifted_lookup_notin.
  - now apply list_lookup_middle.
  - intros Hin%elem_of_drop. now apply (numbered_fresh m Hm).
Qed.

(** A new key in a section that exists under a non-empty name. *)
Lemma set_section_new_key_effect m name key value ls n map e :
  well_formed m → name ≠ [] →
  map_get (sections m) name = Some ls →
  heap m !! ls = Some (LineSection n name map e) →
  map_get map key = None →
  let m' := set_section m name key value in
  let lv := length (heap m) in
  let i := Z.to_nat e in
  Z.of_nat i = e
  ∧ i ≤ length (lines m)
  ∧ lines m' = take i (lines m) ++ lv :: drop i (lines m)
  ∧ length (lines m') = length (lines m) + 1
  ∧ heap m' !! lv = Some (LineValue (e + 1) (Some name) key value)
  ∧ heap m' !! ls = Some (LineSection n name (map_set map key lv) (e + 1))
  ∧ (∀ p r l, lines m !! p = Some r → heap m !! r = Some l → r ≠ ls →
       heap m' !! r = Some (renumbered i p l))
  ∧ (∀ p r l, lines m !! p = Some r → heap m !! r = Some l → r ≠ ls →
       isSectionLine l = true → (i ≤ p ↔ (e + 1 ≤ line_end l)%Z)).
Proof.
  intros [Hm Hord] Hname Hls Hl Hkey. cbn zeta.
  destruct (set_section_new_key_eq m name key value ls n map e Hm Hname Hls Hl Hkey)
    as (He0 & Hei & ->).
  destruct (numbered_sections _ Hm name ls Hls) as (l0 & Hl0 & _ & Hpos).
  rewrite Hl in Hl0. injection Hl0 as <-.
  destruct (Hpos Hname) as (ps & Hps & Hle). cbn [line_end] in Hle.
  assert (Hfresh : length (heap m) ≠ ls) by (apply lookup_lt_Some in Hl; lia).
  set (lvr := LineValue (e + 1) (Some name) key value).
  split; [lia|]. split; [exact Hei|]. split; [reflexivity|].
  split; [cbn; rewrite length_inserted; lia|].
  cbn [update heap with_heap].
  split; [|split; [|split]].
  - rewrite !list_lookup_alter_ne by congruence. now apply insert_line_new_record.
  - rewrite !list_lookup_alter_eq.
    rewrite (insert_line_old_record m _ lvr ps ls _ Hm Hei Hps Hl).
    unfold renumbered. case_decide; [lia|]. reflexivity.
  - intros p r l Hp Hr Hne. rewrite !list_lookup_alter_ne by congruence.
    now apply insert_line_old_record.
  - intros p r l Hp Hr Hne Hsec.
    destruct (Hord p r l Hp Hr Hsec) as [Hb Hpairs].
    destruct (Hord ps ls _ Hps Hl eq_refl) as [_ Hpairs']. cbn [line_end] in Hpairs'.
    split; [lia|]. intros Hend.
    destruct (lt_eq_lt_dec p ps) as [[Hlt|Heq]|Hgt].
    + pose proof (Hpairs ps ls _ Hlt Hps Hl eq_refl). lia.
    + subst p. rewrite Hps in Hp. congruence.
    + pose proof (Hpairs' p r l Hgt Hp Hr Hsec). lia.
Qed.

(** The global position is that of the first section header, or the
    length of the document when there is none. *)
Lemma first_section_spec h rs : ∀ k,
  match first_section h rs k with
  | Some i =>
      k ≤ i
      ∧ (∃ r l, rs !! (i - k) = Some r ∧ h !! r = Some l ∧ isSectionLine l = true)
      ∧ ∀ p r l, p < i - k → rs !! p = Some r → h !! r = Some l →
          isSectionLine l = false
  | None =>
      ∀ p r l, rs !! p = Some r → h !! r = Some l → isSectionLine l = false
  end.
Proof.
  induction rs as [|r rs IH]; intros k; cbn [first_section].
  - intros p r l H. discriminate.
  - destruct (h !! r) as [l|] eqn:Hl.
    + destruct (isSectionLine l) eqn:Hs.
      * destruct l; try discriminate. split; [lia|]. rewrite Nat.sub_diag. split.
        -- exists r. eexists. split; [reflexivity|]. split; [exact Hl|reflexivity].
        -- intros p ? ? Hp. lia.
      * assert (Hrest : first_section h (r :: rs) k = first_section h rs (S k))
          by (cbn; rewrite Hl; now destruct l).
        cbn in Hrest. rewrite Hl in Hrest. rewrite Hrest.
        specialize (IH (S k)). destruct (first_section h rs (S k)) as [i|].
        -- destruct IH as (Hk & (r' & l' & Hr' & Hl' & Hs') & Hbefore).
           split; [lia|]. split.
           ++ exists r', l'. replace (i - k) with (S (i - S k)) by lia. auto.
           ++ intros [|p] r0 l0 Hp Hr0 Hl0.
              ** cbn in Hr0. injection Hr0 as <-. congruence.
              ** apply (Hbefore p r0 l0); [lia|exact Hr0|exact Hl0].
        -- intros [|p] r0 l0 Hr0 Hl0.
           ++ cbn in Hr0. injection Hr0 as <-. congruence.
           ++ exact (IH p r0 l0 Hr0 Hl0).
    + specialize (IH (S k)). destruct (first_section h rs (S k)) as [i|].
      * destruct IH as (Hk & (r' & l' & Hr' & Hl' & Hs') & Hbefore).
        split; [lia|]. split.
        -- exists r', l'. replace (i - k) with (S (i - S k)) by lia. auto.
        -- intros [|p] r0 l0 Hp Hr0 Hl0.
           ++ cbn in Hr0. injection Hr0 as <-. congruence.
           ++ apply (Hbefore p r0 l0); [lia|exact Hr0|exact Hl0].
      * intros [|p] r0 l0 Hr0 Hl0.
        -- cbn in Hr0. injection Hr0 as <-. congruence.
        -- exact (IH p r0 l0 Hr0 Hl0).
Qed.

Lemma global_position_spec h rs :
  (∀ p r l, p < global_position h rs → rs !! p = Some r → h !! r = Some l →
     isSectionLine l = false)
  ∧ (global_position h rs < length rs →
     ∃ r l, rs !! global_position h rs = Some r ∧ h !! r = Some l
            ∧ isSectionLine l = true).
Proof.
  unfold global_position. pose proof (first_section_spec h rs 0) as H.
  destruct (first_section h rs 0) as [i|].
  - destruct H as (_ & Hat & Hbefore). rewrite Nat.sub_0_r in *. split.
    + exact Hbefore.
    + intros _. exact Hat.
  - split; [|lia]. intros p r l _. apply H.
Qed.

End SetEffect.

Section SetEffectCases.

(** A global key. *)
Lemma set_global_effect m key value :
  well_formed m →
  let m' := set_global m key value in
  let lv := length (heap m) in
  let i := global_position (heap m) (lines m) in
  i ≤ length (lines m)
  ∧ lines m' = take i (lines m) ++ lv :: drop i (lines m)
  ∧ length (lines m') = length (lines m) + 1
  ∧ heap m' !! lv = Some (LineValue (Z.of_nat i + 1) None key value)
  ∧ (∀ p r l, lines m !! p = Some r → heap m !! r = Some l →
       heap m' !! r = Some (renumbered i p l))
  ∧ (∀ p r l, lines m !! p = Some r → heap m !! r = Some l →
       isSectionLine l = true → i ≤ p ∧ (Z.of_nat i + 1 ≤ line_end l)%Z).
Proof.
  intros [Hm Hord]. cbn zeta. rewrite set_global_eq by exact Hm.
  pose proof (global_position_le (heap m) (lines m)) as Hi.
  cbn [lines heap with_global].
  split; [exact Hi|]. split; [reflexivity|].
  split; [cbn; rewrite length_inserted; lia|].
  split; [now apply insert_line_new_record|].
  split; [intros p r l Hp Hl; now apply insert_line_old_record|].
  intros p r l Hp Hl Hsec.
  destruct (Hord p r l Hp Hl Hsec) as [Hb _].
  destruct (global_position_spec (heap m) (lines m)) as [Hbefore _].
  assert (Hip : global_position (heap m) (lines m) ≤ p).
  { destruct (le_lt_dec (global_position (heap m) (lines m)) p) as [?|Hlt]; [assumption|].
    rewrite (Hbefore p r l Hlt Hp Hl) in Hsec. discriminate. }
  split; [exact Hip|lia].
Qed.

(** A key in a section that does not exist yet: the header and the Value
    line are the two lines after the last. *)
Lemma set_section_new_section_effect m name key value :
  well_formed m → name ≠ [] → map_get (sections m) name = None →
  let m' := set_section m name key value in
  let ls := length (heap m) in
  let lv := S (length (heap m)) in
  let len := lines_length m in
  lines m' = lines m ++ [ls; lv]
  ∧ heap m' = heap m ++ [LineSection (len + 1) name [(key, lv)] (len + 2);
                         LineValue (len + 2) (Some name) key value]
  ∧ sections m' = map_set (sections m) name ls
  ∧ length (lines m') = length (lines m) + 2.
Proof.
  intros [Hm Hord] Hname Hnone. cbn zeta.
  rewrite set_section_getOrCreate by exact Hm.
  pose proof (numbered_getOrCreateSection m name Hm) as Hm1.
  unfold getOrCreateSection in *. rewrite Hnone in *. cbn [alloc fst] in *.
  set (n := (lines_length m + 1)%Z) in *.
  set (m1 := with_sections _ _) in *.
  assert (Hls : map_get (sections m1) name = Some (length (heap m)))
    by apply map_get_set_eq.
  assert (Hl : heap m1 !! length (heap m) = Some (LineSection n name [] n))
    by (cbn; now apply list_lookup_middle).
  destruct (set_section_new_key_eq m1 name key value _ n [] n Hm1 Hname Hls Hl eq_refl)
    as (_ & _ & ->).
  assert (Hn : Z.to_nat n = length (lines m1)).
  { subst n. cbn. rewrite length_app. unfold lines_length. cbn. lia. }
  rewrite Hn.
  assert (Hheap1 : length (heap m1) = S (length (heap m)))
    by (cbn; rewrite length_app; cbn; lia).
  assert (Hlines : lines m ++ [length (heap m); S (length (heap m))]
                   = lines m1 ++ [length (heap m1)]).
  { cbn. rewrite <- app_assoc. cbn. now rewrite length_app, Nat.add_1_r. }
  cbn [update insert_line lines heap sections with_heap with_lines].
  rewrite drop_all. cbn [shifted fold_left].
  unfold inserted. rewrite drop_all, firstn_all.
  split; [now rewrite Hlines, Hheap1|]. split; [|split].
  - rewrite Hheap1. cbn [m1 heap with_sections with_lines with_heap].
    rewrite <- !app_assoc. cbn [app].
    rewrite !alter_app_r_alt by lia. rewrite Nat.sub_diag. cbn.
    replace (n + 1)%Z with (lines_length m + 2)%Z by (subst n; lia). reflexivity.
  - reflexivity.
  - rewrite length_app. cbn. rewrite length_app. cbn. lia.
Qed.

End SetEffectCases.

Section SetAddsLine.

Lemma set_section_branch m name key value :
  value ≠ VUndefined → set m name (VString key) value = set_section m name key value.
Proof. intros H. destruct value; try reflexivity. congruence. Qed.

(** C2, as the code has it.  On a document built from the empty model by a
    parse, if any, as the first operation and by [set] calls that name no
    section by the empty string:

    - a [set] that creates a key in a section that exists (under a
      non-empty name) adds exactly one line record; the new Value line is
      the line right after the section's last line, numbered [end + 1];
      the section's end becomes [end + 1]; every record at or after the
      insertion point has its number, and if it is a section its end,
      incremented by one; the records before it are as they were; and the
      other sections renumbered this way are exactly those whose end was
      at or after the insertion point;
    - a [set] of a global key adds exactly one line record, right before
      the first section header (last when there is none), with the same
      renumbering: no line above the new one is a section header, the
      line right below it is one, and every section stands at or after
      the insertion point;
    - a [set] that creates the section as well appends its header and the
      Value line as the last two lines: two records more, the section
      ending on the Value line. *)
Theorem set_new_key_adds_line (m : IniMap) :
  built m →
  (∀ name key value ls n map e,
     name ≠ [] → value ≠ VUndefined →
     map_get (sections m) name = Some ls →
     heap m !! ls = Some (LineSection n name map e) →
     map_get map key = None →
     let m' := set m name (VString key) value in
     let lv := length (heap m) in
     let i := Z.to_nat e in
     Z.of_nat i = e
     ∧ i ≤ length (lines m)
     ∧ lines m' = take i (lines m) ++ lv :: drop i (lines m)
     ∧ length (lines m') = length (lines m) + 1
     ∧ heap m' !! lv = Some (LineValue (e + 1) (Some name) key value)
     ∧ heap m' !! ls = Some (LineSection n name (map_set map key lv) (e + 1))
     ∧ (∀ p r l, lines m !! p = Some r → heap m !! r = Some l → r ≠ ls →
          heap m' !! r = Some (renumbered i p l))
     ∧ (∀ p r l, lines m !! p = Some r → heap m !! r = Some l → r ≠ ls →
          isSectionLine l = true → (i ≤ p ↔ (e + 1 ≤ line_end l)%Z)))
  ∧ (∀ key valueOrKey value,
       section_key valueOrKey value = None →
       let m' := set m key valueOrKey value in
       let lv := length (heap m) in
       let i := global_position (heap m) (lines m) in
       i ≤ length (lines m)
       ∧ lines m' = take i (lines m) ++ lv :: drop i (lines m)
       ∧ length (lines m') = length (lines m) + 1
       ∧ heap m' !! lv = Some (LineValue (Z.of_nat i + 1) None key valueOrKey)
       ∧ (∀ p r l, lines m !! p = Some r → heap m !! r = Some l →
            heap m' !! r = Some (renumbered i p l))
       ∧ (∀ p r l, lines m !! p = Some r → heap m !! r = Some l →
            isSectionLine l = true → i ≤ p ∧ (Z.of_nat i + 1 ≤ line_end l)%Z)
       ∧ (∀ p r l, p < i → lines m !! p = Some r → heap m !! r = Some l →
            isSectionLine l = false)
       ∧ (i < length (lines m) →
          ∃ r l, lines m !! i = Some r ∧ heap m !! r = Some l
                 ∧ isSectionLine l = true
                 ∧ lines m' !! S i = Some r
                 ∧ heap m' !! r = Some (bump 1 l))
       ∧ ((∀ p r l, lines m !! p = Some r → heap m !! r = Some l →
             isSectionLine l = false) →
          i = length (lines m) ∧ lines m' = lines m ++ [lv]))
  ∧ (∀ name key value,
       name ≠ [] → value ≠ VUndefined → map_get (sections m) name = None →
       let m' := set m name (VString key) value in
       let ls := length (heap m) in
       let lv := S (length (heap m)) in
       let len := lines_length m in
       lines m' = lines m ++ [ls; lv]
       ∧ heap m' = heap m ++ [LineSection (len + 1) name [(key, lv)] (len + 2);
                              LineValue (len + 2) (Some name) key value]
       ∧ sections m' = map_set (sections m) name ls
       ∧ length (lines m') = length (lines m) + 2)
  ∧ (∀ i p l, line_num (renumbered i p l)
              = if decide (i ≤ p) then (line_num l + 1)%Z else line_num l)
  ∧ (∀ i p l, isSectionLine l = true →
       line_end (renumbered i p l)
       = if decide (i ≤ p) then (line_end l + 1)%Z else line_end l).
Proof.
  intros Hwf%built_well_formed.
  split; [|split; [|split; [|split]]].
  - intros name key value ls n map e Hname Hvalue Hls Hl Hkey.
    rewrite set_section_branch by exact Hvalue.
    now apply set_section_new_key_effect.
  - intros key valueOrKey value Hbranch. rewrite set_branch, Hbranch.
    destruct (set_global_effect m key valueOrKey Hwf)
      as (Hi & Hlines & Hlen & Hlv & Hold & Hsec).
    cbn zeta in *.
    destruct (global_position_spec (heap m) (lines m)) as [Hbefore Hat].
    set (i := global_position (heap m) (lines m)) in *.
    do 6 (split; [assumption|]). split; [exact Hbefore|]. split.
    + (* the line after the new one is the first header *)
      intros Hlt. destruct (Hat Hlt) as (r & l & Hr & Hl & Hsection).
      exists r, l. do 3 (split; [assumption|]). split.
      * rewrite Hlines. fold (inserted i (length (heap m)) (lines m)).
        rewrite inserted_lookup_gt by lia. exact Hr.
      * rewrite (Hold i r l Hr Hl). unfold renumbered.
        now rewrite decide_True by lia.
    + (* with no header the new line is the last one *)
      intros Hnone.
      assert (Hlast : i = length (lines m)).
      { destruct (decide (i < length (lines m))) as [Hlt|Hge]; [|lia].
        destruct (Hat Hlt) as (r & l & Hr & Hl & Hsection).
        rewrite (Hnone i r l Hr Hl) in Hsection. discriminate. }
      split; [exact Hlast|]. rewrite Hlines, Hlast.
      now rewrite take_ge, drop_ge by lia.
  - intros name key value Hname Hvalue Hnone.
    rewrite set_section_branch by exact Hvalue.
    now apply set_section_new_section_effect.
  - intros i p l. unfold renumbered. case_decide; [apply line_num_bump|reflexivity].
  - intros i p l Hsec. unfold renumbered.
    case_decide; [now apply line_end_bump_section|reflexivity].
Qed.

Lemma set_new_key_adds_line_witness :
  lines (set doc_two_sections (js "s") (VString (js "b")) VNull) = [0; 1; 3; 2]
  ∧ heap (set doc_two_sections (js "s") (VString (js "b")) VNull) !! 3
    = Some (LineValue 3 (Some (js "s")) (js "b") VNull)
  ∧ heap (set doc_two_sections (js "s") (VString (js "b")) VNull) !! 0
    = Some (LineSection 1 (js "s") [(js "a", 1); (js "b", 3)] 3)
  ∧ heap (set doc_two_sections (js "s") (VString (js "b")) VNull) !! 2
    = Some (LineSection 4 (js "t") [] 4).
Proof.
  assert (Hbuilt : built doc_two_sections).
  { apply (built_parse noFormatting text_three_lines None). vm_compute. reflexivity. }
  destruct (set_new_key_adds_line doc_two_sections Hbuilt) as (H & _).
  destruct (H (js "s") (js "b") VNull 0 1%Z [(js "a", 1)] 2%Z)
    as (_ & _ & Hlines & _ & Hlv & Hls & Hold & _);
    [discriminate|discriminate|reflexivity|reflexivity|reflexivity|].
  split; [exact Hlines|]. split; [exact Hlv|]. split; [exact Hls|].
  apply (Hold 2 2 (LineSection 3 (js "t") [] 3)); [reflexivity|reflexivity|discriminate].
Defined.

(** A [set] that has to create the section adds two lines, not one. *)
Lemma set_new_section_adds_two_lines :
  map_get (sections (new_IniMap noFormatting)) (js "s") = None
  ∧ lines (set (new_IniMap noFormatting) (js "s") (VString (js "k")) one) = [0; 1]
  ∧ length (lines (set (new_IniMap noFormatting) (js "s") (VString (js "k")) one))
    ≠ length (lines (new_IniMap noFormatting)) + 1.
Proof. vm_compute. repeat split; discriminate. Qed.

End SetAddsLine.

(** * Further properties *)

(** ** Quoted values *)

Section QuotedValues.

Lemma inner_quoted (s : jsstring) : inner (DQUOTE :: s ++ [DQUOTE]) = s.
Proof. unfold inner. cbn [tail]. apply removelast_last. Qed.

Lemma strip_quotes_quoted (s : jsstring) : strip_quotes (DQUOTE :: s ++ [DQUOTE]) = s.
Proof.
  unfold strip_quotes, last_is.
  change (DQUOTE :: s ++ [DQUOTE]) with ((DQUOTE :: s) ++ [DQUOTE]).
  rewrite last_snoc. cbn [app first_is]. rewrite N.eqb_refl. cbn [andb].
  apply inner_quoted.
Qed.

(** X1.  A value written between double quotes is never coerced: the default
    reviver returns the text between the quotes as a string, whatever it
    is (digits, [true], [null], nothing, or text with quotes of its
    own). *)
Theorem default_reviver_quoted (key s : jsstring) (section : option jsstring) :
  defaultReviver key (DQUOTE :: s ++ [DQUOTE]) section = VString s.
Proof.
  unfold defaultReviver. rewrite includes_char. cbn [existsb].
  rewrite N.eqb_refl. cbn [orb negb]. rewrite andb_false_r.
  change (js "null") with [110; 117; 108; 108]%N.
  change (js "true") with [116; 114; 117; 101]%N.
  change (js "false") with [102; 97; 108; 115; 101]%N.
  unfold str_eqb. rewrite !bool_decide_eq_false_2 by discriminate.
  cbn [orb]. now rewrite trimQuotes_strip, strip_quotes_quoted.
Qed.

End QuotedValues.

(** ** The line break a parse records *)

Section LineBreak.

Lemma recorded_truthy lb tokens : truthy lb = true → recorded lb tokens = lb.
Proof.
  revert lb. induction tokens as [|[line [b|]] tokens IH]; intros lb H; cbn.
  - reflexivity.
  - rewrite H. now apply IH.
  - now apply IH.
Qed.

Lemma readTextLines_from_head text : ∀ line,
  ∃ l rest, readTextLines_from text line = (l, first_terminator text) :: rest.
Proof.
  induction text as [|c text IH]; intros line; cbn [readTextLines_from first_terminator].
  - eauto.
  - destruct (c =? LF)%N eqn:ELF; destruct (c =? CR)%N eqn:ECR; cbn [orb].
    + apply N.eqb_eq in ELF, ECR. subst c. discriminate.
    + apply N.eqb_eq in ELF. subst c. eauto.
    + apply N.eqb_eq in ECR. subst c.
      destruct text as [|d text]; [eauto|]. destruct (d =? LF)%N; eauto.
    + apply IH.
Qed.

Lemma first_terminator_truthy text b : first_terminator text = Some b → truthy (Some b) = true.
Proof.
  induction text as [|c text IH]; cbn; [discriminate|].
  destruct (c =? LF)%N; [now intros [= <-]|].
  destruct (c =? CR)%N; [|exact IH].
  destruct text as [|d text]; [now intros [= <-]|].
  destruct (d =? LF)%N; now intros [= <-].
Qed.

Lemma recorded_readTextLines lb text :
  recorded lb (readTextLines text)
  = if truthy lb then lb
    else match first_terminator text with
         | Some b => Some b
         | None => lb
         end.
Proof.
  destruct (truthy lb) eqn:Hlb; [now apply recorded_truthy|].
  destruct (readTextLines_from_head text []) as (l & rest & Heq).
  unfold readTextLines. rewrite Heq. unfold recorded. cbn [fold_left snd].
  destruct (first_terminator text) as [b|] eqn:Hb.
  - rewrite Hlb. apply recorded_truthy. eapply first_terminator_truthy, Hb.
  - (* no terminator: the text is one line, the last token *)
    destruct (readTextLines_shape text) as (init & final & Heq' & Hinit).
    unfold readTextLines in Heq'. rewrite Heq in Heq'.
    destruct init as [|t init].
    + cbn in Heq'. injection Heq' as _ ->. reflexivity.
    + cbn in Heq'. injection Heq' as <- _.
      inversion Hinit as [|? ? (b & Hb' & _) _]; subst. discriminate Hb'.
Qed.

Lemma lineBreak_parseLine rv m cs n line m' cs' :
  parseLine rv m cs n line = inr (m', cs') →
  lineBreak (formatting m') = lineBreak (formatting m).
Proof.
  intros H. apply parseLine_returns in H. cbn zeta in H.
  destruct H as [(_ & -> & _)|[(_ & _ & _ & -> & _)|(_ & -> & _)]]; try reflexivity.
  unfold infer_pretty. destruct cs; destruct (pretty (formatting m)); reflexivity.
Qed.

Lemma lineBreak_parseLines rv tokens : ∀ m cs n m' cs',
  parseLines rv m cs n tokens = inr (m', cs') →
  lineBreak (formatting m') = recorded (lineBreak (formatting m)) tokens.
Proof.
  induction tokens as [|[line lb] tokens IH]; intros m cs n m' cs' H.
  - cbn in H. now injection H as <- <-.
  - cbn [parseLines] in H.
    destruct (parseLine rv m cs n line) as [e|[m1 cs1]] eqn:E; [discriminate|].
    apply IH in H. rewrite H. apply lineBreak_parseLine in E.
    unfold recorded. cbn [fold_left snd]. f_equal.
    destruct lb as [b|]; cbn [resume]; [|exact E].
    rewrite E. now destruct (truthy (lineBreak (formatting m))).
Qed.

(** X2.  After a successful [parse] the line break of the formatting is the one
    that was configured, if any; otherwise it is the first line terminator
    of the text, and stays unset for a text of one line.  Later
    terminators, of whatever style, play no part. *)
Theorem parse_records_first_terminator
    (m m' : IniMap) (text : jsstring) (reviver : option ReviverFunction) :
  parse m (JString text) reviver = Return m' →
  lineBreak (formatting m')
  = if truthy (lineBreak (formatting m)) then lineBreak (formatting m)
    else match first_terminator text with
         | Some b => Some b
         | None => lineBreak (formatting m)
         end.
Proof.
  cbn [parse]. intros H.
  destruct (parseLines _ m None 1 (readTextLines text)) as [[e m1]|[m1 cs1]] eqn:E;
    [discriminate|].
  injection H as <-. apply lineBreak_parseLines in E. rewrite E.
  apply recorded_readTextLines.
Qed.

Lemma parse_records_first_terminator_witness :
  lineBreak (formatting
               {| heap := [LineValue 1 None (js "a") (VNumber (Fin 1));
                           LineValue 2 None (js "b") (VNumber (Fin 2));
                           LineComment 3 []];
                  global := [(js "a", 0); (js "b", 1)];
                  sections := [];
                  lines := [0; 1; 2];
                  formatting := {| lineBreak := Some [CR; LF]; pretty := Some false |} |})
  = Some [CR; LF].
Proof.
  exact (parse_records_first_terminator (new_IniMap noFormatting) _
           (js "a=1" ++ [CR; LF] ++ js "b=2" ++ [LF]) None
           ltac:(vm_compute; reflexivity)).
Defined.

End LineBreak.

(** ** What a parse adds to the model *)

Section ParseAppends.

Variable reviver : ReviverFunction.

Lemma appended_refl m : appended m m 0.
Proof. split; [cbn; now rewrite app_nil_r|]. split; [lia|auto]. Qed.

Lemma appended_push m0 m j m' l :
  appended m0 m j →
  lines m' = lines m ++ [length (heap m)] →
  heap m' = heap m ++ [l] →
  appended m0 m' (S j).
Proof.
  intros (Hlines & Hlen & Hold) Hl Hh. split; [|split].
  - rewrite Hl, Hlines, Hlen, seq_S. now rewrite app_assoc.
  - rewrite Hh, length_app. cbn. lia.
  - intros r l0 Hr. rewrite Hh. apply lookup_app_l_Some. now apply Hold.
Qed.

Lemma appended_update m0 m j s f :
  appended m0 m j → length (heap m0) ≤ s → appended m0 (update m s f) j.
Proof.
  intros (Hlines & Hlen & Hold) Hs. split; [exact Hlines|]. split.
  - cbn. now rewrite length_alter.
  - intros r l Hr. cbn. rewrite list_lookup_alter_ne; [now apply Hold|].
    apply lookup_lt_Some in Hr. lia.
Qed.

Lemma appended_ext m0 m m' j :
  appended m0 m j → lines m' = lines m → heap m' = heap m → appended m0 m' j.
Proof. unfold appended. intros H -> ->. exact H. Qed.

Lemma appended_parseLine m0 m j cs n line m' cs' :
  appended m0 m j → cursor_new m0 cs →
  parseLine reviver m cs n line = inr (m', cs') →
  appended m0 m' (S j) ∧ cursor_new m0 cs'.
Proof.
  intros Happ Hcur H. apply parseLine_returns in H. cbn zeta in H.
  destruct H as [(_ & -> & ->)|[(_ & _ & _ & -> & ->)|(_ & -> & ->)]].
  - split; [|exact Hcur]. eapply appended_push; [exact Happ|reflexivity..].
  - split.
    + eapply appended_push; [exact Happ|reflexivity..].
    + cbn. destruct Happ as (_ & Hlen & _). lia.
  - split; [|exact Hcur].
    assert (Happ' : appended m0 (infer_pretty m (padded (trim line))) j)
      by (unfold infer_pretty; now destruct (pretty (formatting m))).
    set (m1 := infer_pretty m (padded (trim line))) in *.
    destruct cs as [s|]; cbn [push_value].
    + apply appended_update; [|exact Hcur].
      set (lv := LineValue _ _ _ _).
      eapply (appended_ext m0 (update (pushed m1 lv) s (set_key _ (length (heap m1)))));
        [|reflexivity..].
      apply appended_update; [|exact Hcur].
      eapply appended_push; [exact Happ'|reflexivity..].
    + eapply appended_push; [exact Happ'|reflexivity..].
Qed.

Lemma appended_resume m0 m j lb : appended m0 m j → appended m0 (resume m lb) j.
Proof. destruct lb as [b|]; cbn; [|auto]. now destruct (truthy _). Qed.

Lemma appended_parseLines tokens : ∀ m0 m j cs n m' cs',
  appended m0 m j → cursor_new m0 cs →
  parseLines reviver m cs n tokens = inr (m', cs') →
  appended m0 m' (j + length tokens).
Proof.
  induction tokens as [|[line lb] tokens IH]; intros m0 m j cs n m' cs' Happ Hcur H.
  - cbn in H. injection H as <- <-. cbn. now rewrite Nat.add_0_r.
  - cbn [parseLines] in H.
    destruct (parseLine reviver m cs n line) as [e|[m1 cs1]] eqn:E; [discriminate|].
    destruct (appended_parseLine _ _ _ _ _ _ _ _ Happ Hcur E) as [Happ1 Hcur1].
    cbn [length]. replace (j + S (length tokens)) with (S j + length tokens) by lia.
    exact (IH m0 (resume m1 lb) (S j) cs1 (n + 1)%Z m' cs'
             (appended_resume _ _ _ lb Happ1) Hcur1 H).
Qed.

End ParseAppends.

Section ParseAppendsText.

(** X3.  [parse] only appends.  A successful parse adds one record per line of
    the text (one more than the text has terminators), each as the next
    line, and leaves the records that were there untouched.  A parse that
    throws is not rolled back: the lines ahead of the first malformed one
    stay in the model. *)
Theorem parse_appends_lines
    (m : IniMap) (text : jsstring) (reviver : option ReviverFunction) :
  match parse m (JString text) reviver with
  | Return m' => appended m m' (terminators false text + 1)
  | Throw _ m' =>
      ∃ pre bad post,
        readTextLines text = pre ++ bad :: post
        ∧ Forall well_formed_token pre
        ∧ malformation (trim bad.1) ≠ None
        ∧ appended m m' (length pre)
  end.
Proof.
  cbn [parse]. set (rv := default defaultReviver reviver).
  destruct (first_malformed (readTextLines text))
    as [Hall|(pre & bad & post & kind & Heq & Hpre & Hbad)].
  - destruct (parseLines_well_formed rv _ m None 1 Hall) as (m1 & cs1 & Hok).
    rewrite Hok.
    pose proof (appended_parseLines rv _ m m 0 None 1 m1 cs1
                  (appended_refl m) I Hok) as H.
    rewrite readTextLines_length in H.
    now replace (terminators false text + 1) with (0 + S (terminators false text)) by lia.
  - rewrite Heq, parseLines_app.
    destruct (parseLines_well_formed rv _ m None 1 Hpre) as (m1 & cs1 & Hok).
    rewrite Hok. cbn [parseLines]. destruct bad as [bl bt] eqn:Ebad.
    pose proof (parseLine_malformation rv m1 cs1 (1 + Z.of_nat (length pre)) bl) as Hline.
    cbn [fst] in Hbad. rewrite Hbad in Hline. rewrite Hline.
    exists pre, (bl, bt), post. split; [reflexivity|]. split; [exact Hpre|].
    split; [cbn [fst]; rewrite Hbad; discriminate|].
    exact (appended_parseLines rv _ m m 0 None 1 m1 cs1 (appended_refl m) I Hok).
Qed.

End ParseAppendsText.

(** ** [set] keeps the lines that are there *)

Section SetKeepsLines.

Lemma sublist_splice_insert {A} (a : list A) start x :
  sublist a (splice_insert a start x).
Proof.
  unfold splice_insert. set (i := relative _ _).
  rewrite <- (take_drop i a) at 1.
  apply sublist_app; [reflexivity|]. now apply sublist_cons.
Qed.

Lemma lines_appendOrDeleteLine_add m input :
  sublist (lines m) (lines (appendOrDeleteLine m input Add))
  ∧ length (lines (appendOrDeleteLine m input Add)) ≤ S (length (lines m)).
Proof.
  unfold appendOrDeleteLine. destruct (heap m !! input) as [inp|]; [|split; [reflexivity|lia]].
  cbn zeta. destruct (fold_left _ _ _) as [h u]. cbn.
  split; [apply sublist_splice_insert|]. now rewrite length_splice_insert.
Qed.

Lemma lines_appendValue m lineValue :
  sublist (lines m) (lines (appendValue m lineValue))
  ∧ length (lines (appendValue m lineValue)) ≤ S (length (lines m)).
Proof.
  unfold appendValue. destruct (bool_decide _).
  { cbn. split; [apply sublist_inserts_r; reflexivity|]. rewrite length_app. cbn. lia. }
  destruct (truthy _); [apply lines_appendOrDeleteLine_add|].
  apply (lines_appendOrDeleteLine_add (update m lineValue _)).
Qed.

Lemma lines_getOrCreateSection m name :
  sublist (lines m) (lines (getOrCreateSection m name).1)
  ∧ length (lines (getOrCreateSection m name).1) ≤ S (length (lines m)).
Proof.
  unfold getOrCreateSection. destruct (map_get _ _); cbn; [split; [reflexivity|lia]|].
  split; [apply sublist_inserts_r; reflexivity|]. rewrite length_app. cbn. lia.
Qed.

(** X4.  [set] never removes a line and never reorders the lines: the lines of
    the model before the call are, in their order, among the lines after
    it, and at most two lines are new (the section header and the key). *)
Theorem set_keeps_lines
    (m : IniMap) (keyOrSection : jsstring) (valueOrKey value : IniValue) :
  sublist (lines m) (lines (set m keyOrSection valueOrKey value))
  ∧ length (lines (set m keyOrSection valueOrKey value)) ≤ length (lines m) + 2.
Proof.
  rewrite set_branch. destruct (section_key valueOrKey value) as [key|].
  - unfold set_section.
    pose proof (lines_getOrCreateSection m keyOrSection) as [Hsub Hlen].
    destruct (getOrCreateSection m keyOrSection) as [m1 section]. cbn [fst] in *.
    destruct (heap m1 !! section) as [[| n sec map e|]|]; try (split; [exact Hsub|lia]).
    destruct (map_get map key) as [r|].
    { change (lines (update m1 r (set_val value))) with (lines m1). split; [exact Hsub|lia]. }
    cbn [alloc].
    set (m3 := with_heap (update m1 section (add_end 1)) _).
    pose proof (lines_appendValue m3 (length (heap (update m1 section (add_end 1)))))
      as [Hsub' Hlen'].
    change (lines m3) with (lines m1) in *.
    split; [now transitivity (lines m1)|].
    apply (Nat.le_trans _ _ _ Hlen'). lia.
  - unfold set_global. cbn [alloc].
    set (m1 := with_heap m _).
    pose proof (lines_appendValue m1 (length (heap m))) as [Hsub Hlen].
    change (lines m1) with (lines m) in *. cbn. split; [exact Hsub|lia].
Qed.

End SetKeepsLines.

(** ** The last value set for a key of a section *)

Section LastWriteWins.

Lemma alter_alter_commute (f g : Line → Line) x r (h : list Line) :
  (∀ l, f (g l) = g (f l)) →
  alter f x (alter g r h) = alter g r (alter f x h).
Proof.
  intros Hfg. destruct (decide (x = r)) as [->|Hne].
  - rewrite !list_alter_alter_eq. apply alter_ext_at. intros l _. apply Hfg.
  - now apply list_alter_alter_ne.
Qed.

Lemma lookup_alter_set_val v r (h : list Line) x line :
  h !! x = Some line →
  ∃ line', alter (set_val v) r h !! x = Some line'
           ∧ (line' = line ∨ line' = set_val v line).
Proof.
  intros Hx. destruct (decide (x = r)) as [->|Hne].
  - rewrite list_lookup_alter_eq, Hx. cbn. eauto.
  - rewrite list_lookup_alter_ne by congruence. eauto.
Qed.

Lemma lookup_alter_set_val_None v r (h : list Line) x :
  h !! x = None → alter (set_val v) r h !! x = None.
Proof.
  intros Hx. apply lookup_ge_None. rewrite length_alter. now apply lookup_ge_None.
Qed.

Lemma set_val_add_num v op l : add_num op (set_val v l) = set_val v (add_num op l).
Proof. now destruct l. Qed.

Lemma set_val_add_end v op l : add_end op (set_val v l) = set_val v (add_end op l).
Proof. now destruct l. Qed.

Lemma set_val_set_num v n l : set_num n (set_val v l) = set_val v (set_num n l).
Proof. now destruct l. Qed.

Lemma set_val_set_key v k r l : set_key k r (set_val v l) = set_val v (set_key k r l).
Proof. now destruct l. Qed.

Lemma set_val_set_val v v' l : set_val v' (set_val v l) = set_val v' l.
Proof. now destruct l. Qed.

(** The renumbering does not look at the values. *)
Lemma shift_step_set_val secs op v r h u x :
  shift_step secs op (alter (set_val v) r h, u) x
  = (alter (set_val v) r (shift_step secs op (h, u) x).1,
     (shift_step secs op (h, u) x).2).
Proof.
  unfold shift_step. destruct (h !! x) as [line|] eqn:Hx.
  - destruct (lookup_alter_set_val v r h x line Hx) as (line' & -> & Hline').
    assert (Hsec : isSectionLine line' = isSectionLine line)
      by (destruct Hline' as [-> | ->]; [reflexivity|now destruct line]).
    rewrite Hsec.
    rewrite !(alter_alter_commute (add_num op) (set_val v))
      by (intros; apply set_val_add_num).
    destruct (isSectionLine line).
    + cbn. now rewrite (alter_alter_commute (add_end op) (set_val v))
        by (intros; apply set_val_add_end).
    + destruct u; [|reflexivity].
      assert (Hcase :
        match line' with
        | LineValue _ (Some (c :: s)) _ _ => Some (c :: s)
        | _ => None
        end
        = match line with
          | LineValue _ (Some (c :: s)) _ _ => Some (c :: s)
          | _ => None
          end)
        by (destruct Hline' as [-> | ->]; [reflexivity|now destruct line]).
      destruct line as [| |n [[|c s]|] k w];
        destruct line' as [| |n' [[|c' s']|] k' w']; try discriminate Hcase;
        try reflexivity.
      injection Hcase as -> ->.
      destruct (map_get secs (c :: s)); [|reflexivity].
      cbn. now rewrite (alter_alter_commute (add_end op) (set_val v))
        by (intros; apply set_val_add_end).
  - rewrite lookup_alter_set_val_None by exact Hx. reflexivity.
Qed.

Lemma fold_shift_set_val secs op v r rs : ∀ h u,
  fold_left (shift_step secs op) rs (alter (set_val v) r h, u)
  = (alter (set_val v) r (fold_left (shift_step secs op) rs (h, u)).1,
     (fold_left (shift_step secs op) rs (h, u)).2).
Proof.
  induction rs as [|x rs IH]; intros h u; [reflexivity|].
  cbn [fold_left]. rewrite shift_step_set_val.
  destruct (shift_step secs op (h, u) x) as [h1 u1]. cbn [fst snd]. apply IH.
Qed.

Lemma appendOrDeleteLine_set_val m r v input op :
  appendOrDeleteLine (update m r (set_val v)) input op
  = update (appendOrDeleteLine m input op) r (set_val v).
Proof.
  unfold appendOrDeleteLine. cbn [update heap with_heap lines sections].
  destruct (heap m !! input) as [inp|] eqn:Hin.
  - destruct (lookup_alter_set_val v r (heap m) input inp Hin) as (inp' & -> & Hinp').
    assert (Hnum : line_num inp' = line_num inp)
      by (destruct Hinp' as [-> | ->]; [reflexivity|now destruct inp]).
    assert (Hcomment : isCommentLine inp' = isCommentLine inp)
      by (destruct Hinp' as [-> | ->]; [reflexivity|now destruct inp]).
    cbn zeta. rewrite Hnum, Hcomment, fold_shift_set_val.
    destruct (fold_left _ _ (heap m, _)) as [h u]. reflexivity.
  - rewrite lookup_alter_set_val_None by exact Hin. reflexivity.
Qed.

Lemma first_section_set_val v r h rs : ∀ i,
  first_section (alter (set_val v) r h) rs i = first_section h rs i.
Proof.
  induction rs as [|x rs IH]; intros i; [reflexivity|]. cbn [first_section].
  destruct (h !! x) as [line|] eqn:Hx.
  - destruct (lookup_alter_set_val v r h x line Hx) as (line' & -> & [-> | ->]).
    + destruct line; auto.
    + destruct line; cbn; auto.
  - rewrite lookup_alter_set_val_None by exact Hx. apply IH.
Qed.

Lemma appendValue_set_val m r v lineValue :
  appendValue (update m r (set_val v)) lineValue
  = update (appendValue m lineValue) r (set_val v).
Proof.
  unfold appendValue. cbn [update heap with_heap lines].
  destruct (bool_decide (length (lines m) = 0)).
  { unfold update, with_lines, with_heap. cbn. f_equal.
    apply alter_alter_commute. intros; apply set_val_set_num. }
  assert (Hsec : alter (set_val v) r (heap m) !! lineValue ≫= line_sec
                 = heap m !! lineValue ≫= line_sec).
  { destruct (heap m !! lineValue) as [line|] eqn:Hl.
    - destruct (lookup_alter_set_val v r _ _ _ Hl) as (line' & -> & [-> | ->]);
        [reflexivity|now destruct line].
    - now rewrite lookup_alter_set_val_None. }
  rewrite Hsec. destruct (truthy _).
  { apply (appendOrDeleteLine_set_val m). }
  rewrite first_section_set_val.
  change (lines_length (with_heap m (alter (set_val v) r (heap m))))
    with (lines_length m).
  set (num := match first_section _ _ _ with Some _ => _ | None => _ end).
  rewrite <- (appendOrDeleteLine_set_val (update m lineValue (set_num num))).
  f_equal. unfold update. cbn.
  now rewrite (alter_alter_commute (set_num num) (set_val v))
    by (intros; apply set_val_set_num).
Qed.

Lemma getOrCreateSection_get m name :
  map_get (sections (getOrCreateSection m name).1) name
  = Some (getOrCreateSection m name).2.
Proof.
  unfold getOrCreateSection.
  destruct (map_get (sections m) name) eqn:E; [exact E|]. cbn.
  apply map_get_set_eq.
Qed.

Lemma getOrCreateSection_known m name s :
  map_get (sections m) name = Some s → getOrCreateSection m name = (m, s).
Proof. intros H. unfold getOrCreateSection. now rewrite H. Qed.

(** X5.  When a key of a section is set twice, the model is the one the second
    call alone gives: the first call has made the line, the second only
    replaces its value.  So is setting a key to the value it has no change
    at all. *)
Theorem set_section_last_write_wins
    (m : IniMap) (section key : jsstring) (v v' : IniValue) :
  v ≠ VUndefined → v' ≠ VUndefined →
  set (set m section (VString key) v) section (VString key) v'
  = set m section (VString key) v'.
Proof.
  intros Hv Hv'. rewrite !set_section_branch by assumption.
  unfold set_section at 2 3.
  pose proof (getOrCreateSection_get m section) as Hs.
  destruct (getOrCreateSection m section) as [m1 s]. cbn [fst snd] in Hs.
  destruct (heap m1 !! s) as [[| n sec map e|]|] eqn:Hrec;
    try (unfold set_section; rewrite (getOrCreateSection_known m1 section s Hs), Hrec;
         reflexivity).
  destruct (map_get map key) as [r|] eqn:Hkey.
  - unfold set_section.
    rewrite (getOrCreateSection_known (update m1 r (set_val v)) section s Hs).
    destruct (lookup_alter_set_val v r (heap m1) s _ Hrec) as (l' & Hl' & Hcase).
    assert (l' = LineSection n sec map e) as -> by (destruct Hcase; subst; reflexivity).
    cbn [update heap with_heap]. rewrite Hl', Hkey.
    unfold update, with_heap. cbn. f_equal.
    rewrite list_alter_alter_eq.
    apply alter_ext_at. intros l _. apply set_val_set_val.
  - cbn [alloc].
    set (m2 := update m1 s (add_end 1)).
    set (len := length (heap m2)).
    set (lv := fun w => LineValue (e + 1) (Some sec) key w).
    set (m3 := fun w => with_heap m2 (heap m2 ++ [lv w])).
    (* the second call alone is the first one with the value replaced *)
    assert (H3 : m3 v' = update (m3 v) len (set_val v')).
    { unfold m3, update. cbn [heap with_heap]. f_equal.
      unfold len. now rewrite alter_snoc. }
    assert (Hright : update (appendValue (m3 v') len) s (set_key key len)
                     = update (update (appendValue (m3 v) len) s (set_key key len))
                         len (set_val v')).
    { rewrite H3, appendValue_set_val. unfold update. cbn [heap with_heap].
      change (with_heap (with_heap ?a ?h) ?h') with (with_heap a h').
      f_equal. apply alter_alter_commute. intros; apply set_val_set_key. }
    change (set_section (update (appendValue (m3 v) len) s (set_key key len))
              section key v'
            = update (appendValue (m3 v') len) s (set_key key len)).
    rewrite Hright.
    (* the second call after the first finds the key *)
    set (m5 := update (appendValue (m3 v) len) s (set_key key len)).
    assert (Hsome : is_Some (heap (m3 v) !! len)).
    { exists (lv v). cbn. now apply list_lookup_middle. }
    destruct (appendValue_frame (m3 v) len Hsome) as (Hshape & _ & _ & Hsec & _).
    cbn zeta in Hshape, Hsec.
    assert (Hs5 : map_get (sections m5) section = Some s).
    { change (map_get (sections (appendValue (m3 v) len)) section = Some s).
      rewrite Hsec. exact Hs. }
    assert (Hrec3 : heap (m3 v) !! s = Some (LineSection n sec map (e + 1))).
    { cbn. apply lookup_app_l_Some. rewrite list_lookup_alter_eq, Hrec. reflexivity. }
    destruct (lookup_shape _ _ _ _ Hshape Hrec3) as (l4 & Hl4 & Hshape4).
    apply shape_section in Hshape4 as (n4 & e4 & ->).
    assert (Hrec5 : heap m5 !! s = Some (LineSection n4 sec (map_set map key len) e4)).
    { change (alter (set_key key len) s (heap (appendValue (m3 v) len)) !! s
              = Some (LineSection n4 sec (map_set map key len) e4)).
      rewrite list_lookup_alter_eq, Hl4. reflexivity. }
    unfold set_section. rewrite (getOrCreateSection_known m5 section s Hs5), Hrec5.
    now rewrite map_get_set_eq.
Qed.

Lemma set_section_last_write_wins_witness :
  set (set doc_two_sections (js "s") (VString (js "b")) VNull)
    (js "s") (VString (js "b")) one
  = set doc_two_sections (js "s") (VString (js "b")) one.
Proof. apply set_section_last_write_wins; discriminate. Defined.

End LastWriteWins.

(** ** The maps and the records they refer to *)

Section Faithful.

(** *** Maps *)

Lemma map_get_keys {V} (map : JsMap V) k v : map_get map k = Some v → k ∈ keys map.
Proof.
  induction map as [|[k' v'] map IH]; cbn; [discriminate|].
  unfold str_eqb. destruct (bool_decide_reflect (k' = k)) as [->|Hne].
  - intros _. apply elem_of_cons. now left.
  - intros H. apply elem_of_cons. right. now apply IH.
Qed.

Lemma keys_map_set {V} (map : JsMap V) k v :
  keys (map_set map k v) = if bool_decide (k ∈ keys map) then keys map else keys map ++ [k].
Proof.
  induction map as [|[k' v'] map IH]; cbn; [reflexivity|].
  unfold str_eqb. destruct (bool_decide_reflect (k' = k)) as [->|Hne]; cbn.
  - rewrite bool_decide_eq_true_2; [reflexivity|]. apply elem_of_cons. now left.
  - unfold keys in IH. rewrite IH.
    destruct (bool_decide_reflect (k ∈ map.*1)) as [Hin|Hnin].
    + rewrite bool_decide_eq_true_2; [reflexivity|]. apply elem_of_cons. now right.
    + rewrite bool_decide_eq_false_2; [reflexivity|].
      intros [->|Hin]%elem_of_cons; [now apply Hne|now apply Hnin].
Qed.

Lemma NoDup_map_set {V} (map : JsMap V) k v :
  NoDup (keys map) → NoDup (keys (map_set map k v)).
Proof.
  intros Hnd. rewrite keys_map_set.
  destruct (bool_decide_reflect (k ∈ keys map)) as [Hin|Hnin]; [exact Hnd|].
  apply NoDup_app. split; [exact Hnd|]. split; [|apply NoDup_singleton].
  intros x Hx ->%list_elem_of_singleton. now apply Hnin.
Qed.

Lemma map_get_set {V} (map : JsMap V) k k' v :
  map_get (map_set map k v) k' = if bool_decide (k = k') then Some v else map_get map k'.
Proof.
  destruct (bool_decide_reflect (k = k')) as [->|Hne].
  - apply map_get_set_eq.
  - now apply map_get_set_ne.
Qed.

(** *** Heaps *)

Lemma skeleton_value l n sec key val :
  skeleton l = skeleton (LineValue n sec key val) →
  ∃ n' v', l = LineValue n' sec key v'.
Proof. destruct l; cbn; intros [=]; subst; eauto. Qed.

Lemma skeleton_section l n sec map e :
  skeleton l = skeleton (LineSection n sec map e) →
  ∃ n' e', l = LineSection n' sec map e'.
Proof. destruct l; cbn; intros [=]; subst; eauto. Qed.

Lemma skeleton_shape l l' : shape l' = shape l → skeleton l' = skeleton l.
Proof. unfold skeleton. now intros ->. Qed.

Lemma keeps_refl h : keeps h h.
Proof. intros r l Hl. eauto. Qed.

Lemma keeps_trans h1 h2 h3 : keeps h1 h2 → keeps h2 h3 → keeps h1 h3.
Proof.
  intros H12 H23 r l Hl. destruct (H12 r l Hl) as (l2 & Hl2 & E2).
  destruct (H23 r l2 Hl2) as (l3 & Hl3 & E3). exists l3. split; [exact Hl3|congruence].
Qed.

Lemma keeps_app h x : keeps h (h ++ [x]).
Proof. intros r l Hl. exists l. split; [now apply lookup_app_l_Some|reflexivity]. Qed.

Lemma keeps_alter (f : Line → Line) r h :
  (∀ l, skeleton (f l) = skeleton l) → keeps h (alter f r h).
Proof.
  intros Hf x l Hl. destruct (decide (r = x)) as [->|Hne].
  - exists (f l). rewrite list_lookup_alter_eq, Hl. split; [reflexivity|apply Hf].
  - exists l. rewrite list_lookup_alter_ne by exact Hne. split; [exact Hl|reflexivity].
Qed.

Lemma keeps_shapes h h' : shape <$> h' = shape <$> h → keeps h h'.
Proof.
  intros Heq r l Hl. destruct (lookup_shape h h' r l Heq Hl) as (l' & Hl' & E).
  exists l'. split; [exact Hl'|now apply skeleton_shape].
Qed.

Lemma keyed_keeps h h' sec map : keeps h h' → keyed h sec map → keyed h' sec map.
Proof.
  intros Hk [Hnd Hrec]. split; [exact Hnd|]. intros k r Hr.
  destruct (Hrec k r Hr) as (n & v & Hl). destruct (Hk r _ Hl) as (l' & Hl' & E).
  apply skeleton_value in E as (n' & v' & ->). eauto.
Qed.

Lemma keyed_nil h sec : keyed h sec [].
Proof. split; [constructor|]. intros k r; discriminate. Qed.

Lemma keyed_map_set h sec map k r n v :
  keyed h sec map → h !! r = Some (LineValue n sec k v) →
  keyed h sec (map_set map k r).
Proof.
  intros [Hnd Hrec] Hr. split; [now apply NoDup_map_set|]. intros k' r'.
  rewrite map_get_set. destruct (bool_decide_reflect (k = k')) as [->|Hne].
  - intros [= <-]. eauto.
  - apply Hrec.
Qed.

(** *** The invariant *)

Lemma faithful_new f : faithful (new_IniMap f).
Proof.
  split; [apply keyed_nil|]. split; [constructor|]. intros name r; discriminate.
Qed.

Lemma faithful_keeps m h' :
  faithful m → keeps (heap m) h' → faithful (with_heap m h').
Proof.
  intros (Hg & Hnd & Hs) Hk. split; [exact (keyed_keeps _ _ _ _ Hk Hg)|].
  split; [exact Hnd|]. intros name r Hr.
  destruct (Hs name r Hr) as (n & map & e & Hl & Hmap).
  destruct (Hk r _ Hl) as (l' & Hl' & E).
  apply skeleton_section in E as (n' & e' & ->).
  exists n', map, e'. split; [exact Hl'|exact (keyed_keeps _ _ _ _ Hk Hmap)].
Qed.

Lemma faithful_ext m m' :
  faithful m → global m' = global m → sections m' = sections m →
  keeps (heap m) (heap m') → faithful m'.
Proof.
  intros Hm Hg Hs Hk. pose proof (faithful_keeps m (heap m') Hm Hk) as H.
  unfold faithful in *. rewrite Hg, Hs. exact H.
Qed.

Lemma skeleton_set_num n l : skeleton (set_num n l) = skeleton l.
Proof. now destruct l. Qed.

Lemma skeleton_set_end e l : skeleton (set_end e l) = skeleton l.
Proof. now destruct l. Qed.

Lemma skeleton_add_end op l : skeleton (add_end op l) = skeleton l.
Proof. now destruct l. Qed.

Lemma skeleton_set_val v l : skeleton (set_val v l) = skeleton l.
Proof. now destruct l. Qed.

Lemma faithful_update m r f :
  (∀ l, skeleton (f l) = skeleton l) → faithful m → faithful (update m r f).
Proof. intros Hf Hm. apply faithful_keeps; [exact Hm|now apply keeps_alter]. Qed.

Lemma faithful_alloc m l : faithful m → faithful (with_heap m (heap m ++ [l])).
Proof. intros Hm. apply faithful_keeps; [exact Hm|apply keeps_app]. Qed.

Lemma faithful_global_set m k r n v :
  faithful m → heap m !! r = Some (LineValue n None k v) →
  faithful (with_global m (map_set (global m) k r)).
Proof.
  intros (Hg & Hnd & Hs) Hr. split; [|split; [exact Hnd|exact Hs]].
  exact (keyed_map_set _ _ _ _ _ _ _ Hg Hr).
Qed.

Lemma faithful_section_set m name r n e :
  faithful m → heap m !! r = Some (LineSection n name [] e) →
  faithful (with_sections m (map_set (sections m) name r)).
Proof.
  intros (Hg & Hnd & Hs) Hr. split; [exact Hg|]. split; [now apply NoDup_map_set|].
  intros name' r'. cbn. rewrite map_get_set.
  destruct (bool_decide_reflect (name = name')) as [->|Hne]; [|apply Hs].
  intros [= <-]. exists n, [], e. split; [exact Hr|apply keyed_nil].
Qed.

(** The key [k] put into the map of the section [name]. *)
Lemma faithful_set_key m name s k r n v :
  faithful m → map_get (sections m) name = Some s →
  heap m !! r = Some (LineValue n (Some name) k v) →
  faithful (update m s (set_key k r)).
Proof.
  intros (Hg & Hnd & Hs) Hname Hr.
  assert (Hk : ∀ sec map, keyed (heap m) sec map
                          → keyed (alter (set_key k r) s (heap m)) sec map).
  { intros sec map [Hnd' Hrec]. split; [exact Hnd'|]. intros k' r' Hr'.
    destruct (Hrec k' r' Hr') as (n' & v' & Hl). exists n', v'.
    destruct (decide (s = r')) as [->|Hne].
    - rewrite list_lookup_alter_eq, Hl. reflexivity.
    - now rewrite list_lookup_alter_ne. }
  split; [exact (Hk _ _ Hg)|]. split; [exact Hnd|]. intros name' r' Hr'.
  destruct (Hs name' r' Hr') as (n' & map & e & Hl & Hmap). cbn.
  destruct (decide (s = r')) as [->|Hne].
  - destruct (Hs name r' Hname) as (n0 & map0 & e0 & Hl0 & _).
    assert (name' = name) as -> by congruence.
    exists n', (map_set map k r), e. rewrite list_lookup_alter_eq, Hl.
    split; [reflexivity|]. apply Hk in Hmap.
    apply (keyed_map_set _ _ _ _ _ n v Hmap).
    destruct (decide (r' = r)) as [->|Hne']; [congruence|].
    now rewrite list_lookup_alter_ne.
  - exists n', map, e. rewrite list_lookup_alter_ne by exact Hne.
    split; [exact Hl|exact (Hk _ _ Hmap)].
Qed.

End Faithful.

(** ** What [set] does, up to the numbering *)

Section SetShape.

Lemma shape_set_key k r l : shape (set_key k r l) = set_key k r (shape l).
Proof. now destruct l. Qed.

Lemma shapes_alter_set_key k r s (h1 h2 : list Line) :
  shape <$> h1 = shape <$> h2 →
  shape <$> alter (set_key k r) s h1 = shape <$> alter (set_key k r) s h2.
Proof.
  intros H.
  rewrite !(list_fmap_alter shape (set_key k r) (set_key k r))
    by (apply Forall_forall; intros; apply shape_set_key).
  now rewrite H.
Qed.

(** The record [getOrCreateSection] returns is a section of the name asked
    for when the map refers to such records only. *)
Lemma faithful_getOrCreateSection m name :
  faithful m → faithful (getOrCreateSection m name).1.
Proof.
  intros Hm. unfold getOrCreateSection.
  destruct (map_get (sections m) name); [exact Hm|]. cbn [alloc fst].
  set (l := LineSection _ name [] _).
  apply (faithful_section_set (with_lines (with_heap m (heap m ++ [l])) _) name _
           (lines_length m + 1) (lines_length m + 1)).
  - apply (faithful_alloc m l Hm).
  - cbn. now apply list_lookup_middle.
Qed.

(** The two ways of [set(section, key, value)]: the key is there and the
    value of its record is replaced; or a record is made for it, put in
    the section's map and among the lines. *)
Lemma set_section_cases m name key v n sec map e :
  heap (getOrCreateSection m name).1 !! (getOrCreateSection m name).2
  = Some (LineSection n sec map e) →
  let m1 := (getOrCreateSection m name).1 in
  let s := (getOrCreateSection m name).2 in
  let m' := set_section m name key v in
  match map_get map key with
  | Some r => m' = update m1 r (set_val v)
  | None =>
      global m' = global m1 ∧ sections m' = sections m1
      ∧ shape <$> heap m'
        = shape <$> alter (set_key key (length (heap m1))) s
                      (heap m1 ++ [LineValue 0 (Some sec) key v])
  end.
Proof.
  intros Hrec m1 s m'. unfold m', set_section.
  destruct (getOrCreateSection m name) as [m1' s'] eqn:E. cbn [fst snd] in *.
  subst m1 s. rewrite Hrec.
  destruct (map_get map key) as [r|]; [reflexivity|]. cbn [alloc].
  set (m2 := update m1' s' (add_end 1)).
  set (lv := LineValue (e + 1) (Some sec) key v).
  set (m3 := with_heap m2 (heap m2 ++ [lv])).
  assert (Hsome : is_Some (heap m3 !! length (heap m2)))
    by (exists lv; cbn; now apply list_lookup_middle).
  destruct (appendValue_frame m3 _ Hsome) as (Hshape & _ & Hg & Hs & _).
  cbn zeta in *.
  assert (Hlen : length (heap m2) = length (heap m1'))
    by (cbn; now rewrite length_alter).
  split; [exact Hg|]. split; [exact Hs|].
  change (shape <$> alter (set_key key (length (heap m2))) s'
                      (heap (appendValue m3 (length (heap m2))))
          = shape <$> alter (set_key key (length (heap m1'))) s'
                        (heap m1' ++ [LineValue 0 (Some sec) key v])).
  rewrite <- Hlen. apply shapes_alter_set_key. rewrite Hshape. cbn.
  rewrite !fmap_app. f_equal. apply shapes_alter, shape_add_end.
Qed.

End SetShape.

(** ** The maps agree with the records *)

Section FaithfulOperations.

Lemma faithful_set_global m key value : faithful m → faithful (set_global m key value).
Proof.
  intros Hm.
  destruct (set_global_frame m key value) as (_ & Hs & _ & Hg & Hshape).
  cbn zeta in *.
  set (lv := LineValue 0 None key value) in *.
  apply (faithful_ext
           (with_global (with_heap m (heap m ++ [lv]))
              (map_set (global m) key (length (heap m))))).
  - eapply (faithful_global_set (with_heap m (heap m ++ [lv]))).
    + now apply faithful_alloc.
    + cbn. now apply list_lookup_middle.
  - exact Hg.
  - exact Hs.
  - apply keeps_shapes. exact Hshape.
Qed.

Lemma faithful_set_section m name key value :
  faithful m → faithful (set_section m name key value).
Proof.
  intros Hm.
  pose proof (faithful_getOrCreateSection m name Hm) as Hm1.
  pose proof (getOrCreateSection_get m name) as Hs.
  destruct (proj2 (proj2 Hm1) _ _ Hs) as (n & map & e & Hrec & Hmap).
  pose proof (set_section_cases m name key value n name map e Hrec) as H.
  cbn zeta in H.
  set (m1 := (getOrCreateSection m name).1) in *.
  set (s := (getOrCreateSection m name).2) in *.
  destruct (map_get map key) as [r|].
  - rewrite H. apply faithful_update; [apply skeleton_set_val|exact Hm1].
  - destruct H as (Hg & Hsec & Hshape).
    set (lv := LineValue 0 (Some name) key value) in *.
    apply (faithful_ext
             (update (with_heap m1 (heap m1 ++ [lv])) s (set_key key (length (heap m1))))).
    + apply (faithful_set_key _ name s key _ 0 value).
      * now apply faithful_alloc.
      * exact Hs.
      * cbn. now apply list_lookup_middle.
    + exact Hg.
    + exact Hsec.
    + apply keeps_shapes. exact Hshape.
Qed.

Lemma faithful_set m keyOrSection valueOrKey value :
  faithful m → faithful (set m keyOrSection valueOrKey value).
Proof.
  intros Hm. rewrite set_branch. destruct (section_key valueOrKey value).
  - now apply faithful_set_section.
  - now apply faithful_set_global.
Qed.

Lemma faithful_push_value reviver m cs n key value :
  faithful m → cursor_known m cs →
  faithful (push_value reviver m cs n key value).
Proof.
  intros Hm Hcs. destruct cs as [s|]; cbn [push_value].
  - destruct Hcs as (name & Hname).
    destruct (proj2 (proj2 Hm) _ _ Hname) as (n0 & map & e & Hrec & _).
    rewrite Hrec. cbn [mbind option_bind line_sec default]. change (id name) with name.
    set (lv := LineValue n (Some name) key _).
    apply faithful_update; [apply skeleton_set_end|].
    apply (faithful_set_key (with_heap m (heap m ++ [lv])) name s key _ n
             (reviver key value (Some name))).
    + now apply faithful_alloc.
    + exact Hname.
    + cbn. now apply list_lookup_middle.
  - set (lv := LineValue n None key _).
    apply (faithful_global_set (with_heap m (heap m ++ [lv])) key _ n
             (reviver key value None)).
    + now apply faithful_alloc.
    + cbn. now apply list_lookup_middle.
Qed.

Lemma faithful_parseLine reviver m cs n line m' cs' :
  faithful m → cursor_known m cs →
  parseLine reviver m cs n line = inr (m', cs') →
  faithful m' ∧ cursor_known m' cs'.
Proof.
  intros Hm Hcs H. apply parseLine_returns in H. cbn zeta in H.
  destruct H as [(_ & -> & ->)|[(_ & _ & _ & -> & ->)|(_ & -> & ->)]].
  - split; [|exact Hcs]. apply (faithful_alloc m _ Hm).
  - split.
    + apply (faithful_section_set (with_lines (with_heap m (heap m ++ [_])) _) _ _ n n).
      * apply (faithful_alloc m _ Hm).
      * cbn. now apply list_lookup_middle.
    + cbn. eexists. apply map_get_set_eq.
  - assert (Hm' : faithful (infer_pretty m (padded (trim line))))
      by (unfold infer_pretty; now destruct (pretty (formatting m))).
    assert (Hcs' : cursor_known (infer_pretty m (padded (trim line))) cs)
      by (unfold infer_pretty; now destruct (pretty (formatting m))).
    split; [now apply faithful_push_value|].
    destruct cs as [s|]; [|exact I]. exact Hcs'.
Qed.

Lemma faithful_resume m lb : faithful m → faithful (resume m lb).
Proof. destruct lb as [b|]; cbn; [|auto]. now destruct (truthy _). Qed.

Lemma cursor_known_resume m lb cs : cursor_known m cs → cursor_known (resume m lb) cs.
Proof. destruct lb as [b|]; cbn; [|auto]. now destruct (truthy _). Qed.

Lemma faithful_parseLines reviver tokens : ∀ m cs n,
  faithful m → cursor_known m cs →
  match parseLines reviver m cs n tokens with
  | inl (_, m') => faithful m'
  | inr (m', _) => faithful m'
  end.
Proof.
  induction tokens as [|[line lb] tokens IH]; intros m cs n Hm Hcs; [exact Hm|].
  cbn [parseLines].
  destruct (parseLine reviver m cs n line) as [e|[m1 cs1]] eqn:E; [exact Hm|].
  destruct (faithful_parseLine _ _ _ _ _ _ _ Hm Hcs E) as [Hm1 Hcs1].
  apply IH; [now apply faithful_resume|now apply cursor_known_resume].
Qed.

Lemma faithful_parse m text reviver :
  faithful m →
  match parse m text reviver with
  | Return m' => faithful m'
  | Throw _ m' => faithful m'
  end.
Proof.
  intros Hm. destruct text as [s| | | | |]; cbn [parse];
    try (destruct (template_text _); exact Hm).
  pose proof (faithful_parseLines (default defaultReviver reviver)
                (readTextLines s) m None 1 Hm I) as H.
  now destruct (parseLines _ m None 1 _) as [[e m']|[m' cs']].
Qed.

Lemma constructed_faithful m : constructed m → faithful m.
Proof.
  induction 1 as [f|m text reviver m' _ IH Hp|m text reviver e m' _ IH Hp
                 |m a b c _ IH].
  - apply faithful_new.
  - pose proof (faithful_parse m text reviver IH) as H. now rewrite Hp in H.
  - pose proof (faithful_parse m text reviver IH) as H. now rewrite Hp in H.
  - now apply faithful_set.
Qed.

End FaithfulOperations.

(** ** What [toObject] reports *)

Section ToObject.

(** The properties defined from the entries of a map, one per entry. *)
Lemma fold_define_get {V} (f : JsMap V → jsstring * loc → JsMap V)
    (g : loc → option (jsstring * V)) (entries : JsMap loc) : ∀ obj name,
  (∀ obj e, f obj e = match g e.2 with
                      | Some (k, v) => map_set obj k v
                      | None => obj
                      end) →
  NoDup (keys entries) →
  (∀ k r, map_get entries k = Some r → fst <$> g r = Some k) →
  map_get (fold_left f entries obj) name
  = match map_get entries name with
    | Some r => snd <$> g r
    | None => map_get obj name
    end.
Proof.
  intros obj name Hf. revert obj.
  induction entries as [|[k r] entries IH]; intros obj Hnd Hg; [reflexivity|].
  apply NoDup_cons in Hnd as [Hk Hnd]. cbn [fold_left].
  assert (Hr : fst <$> g r = Some k).
  { apply Hg. cbn. unfold str_eqb. now rewrite bool_decide_eq_true_2. }
  rewrite IH; [|exact Hnd|].
  - rewrite Hf. cbn [snd map_get]. destruct (g r) as [[k0 v]|] eqn:Egr; [|discriminate].
    injection Hr as ->. unfold str_eqb.
    destruct (bool_decide_reflect (k = name)) as [->|Hne].
    + destruct (map_get entries name) as [r'|] eqn:E.
      * exfalso. apply Hk. exact (map_get_keys _ _ _ E).
      * rewrite map_get_set_eq, Egr. reflexivity.
    + destruct (map_get entries name); [reflexivity|]. now apply map_get_set_ne.
  - intros k' r' Hr'. apply Hg. cbn. unfold str_eqb.
    destruct (bool_decide_reflect (k = k')) as [->|Hne]; [|exact Hr'].
    exfalso. apply Hk. exact (map_get_keys _ _ _ Hr').
Qed.

Lemma define_value_get h sec map k :
  keyed h sec map →
  map_get (fold_left (define_value h) map []) k
  = map_get map k ≫= fun r => h !! r ≫= line_val.
Proof.
  intros [Hnd Hrec].
  rewrite (fold_define_get (define_value h)
             (fun r => match h !! r with
                       | Some (LineValue _ _ key val) => Some (key, val)
                       | _ => None
                       end)).
  - destruct (map_get map k) as [r|] eqn:E; [|reflexivity].
    destruct (Hrec k r E) as (n & v & Hl). cbn. rewrite Hl. reflexivity.
  - intros obj e. unfold define_value, defineProperty.
    now destruct (h !! e.2) as [[| |]|].
  - exact Hnd.
  - intros k' r Hr. destruct (Hrec k' r Hr) as (n & v & ->). reflexivity.
Qed.

Lemma define_global_get h map obj k :
  keyed h None map →
  map_get (fold_left (define_global h) map obj) k
  = match map_get map k with
    | Some r => PValue <$> (h !! r ≫= line_val)
    | None => map_get obj k
    end.
Proof.
  intros [Hnd Hrec].
  rewrite (fold_define_get (define_global h)
             (fun r => match h !! r with
                       | Some (LineValue _ _ key val) => Some (key, PValue val)
                       | _ => None
                       end)).
  - destruct (map_get map k) as [r|] eqn:E; [|reflexivity].
    destruct (Hrec k r E) as (n & v & Hl). cbn. rewrite Hl. reflexivity.
  - intros obj' e. unfold define_global, defineProperty.
    now destruct (h !! e.2) as [[| |]|].
  - exact Hnd.
  - intros k' r Hr. destruct (Hrec k' r Hr) as (n & v & ->). reflexivity.
Qed.

Lemma toObject_get m name :
  faithful m →
  map_get (toObject m) name
  = match map_get (sections m) name with
    | Some r =>
        (fun map => PSection (fold_left (define_value (heap m)) map []))
        <$> (heap m !! r ≫= line_map)
    | None =>
        match map_get (global m) name with
        | Some r => PValue <$> (heap m !! r ≫= line_val)
        | None => None
        end
    end.
Proof.
  intros (Hg & Hnd & Hs). unfold toObject.
  rewrite (fold_define_get (define_section (heap m))
             (fun r => match heap m !! r with
                       | Some (LineSection _ sec map _) =>
                           Some (sec, PSection (fold_left (define_value (heap m)) map []))
                       | _ => None
                       end)).
  - destruct (map_get (sections m) name) as [r|] eqn:E.
    + destruct (Hs name r E) as (n & map & e & -> & _). reflexivity.
    + now rewrite define_global_get by exact Hg.
  - intros obj e. unfold define_section, defineProperty.
    now destruct (heap m !! e.2) as [[| |]|].
  - exact Hnd.
  - intros k r Hr. destruct (Hs k r Hr) as (n & map & e & -> & _). reflexivity.
Qed.

(** The three readings of the object, from the maps of the model. *)
Lemma toObject_value m name k :
  faithful m → object_value (toObject m) name k = section_value m name k.
Proof.
  intros Hm. unfold object_value, section_value, section_map.
  rewrite toObject_get by exact Hm.
  destruct (map_get (sections m) name) as [r|] eqn:E.
  - destruct (proj2 (proj2 Hm) name r E) as (n & map & e & Hl & Hmap). cbn.
    rewrite Hl. cbn. exact (define_value_get _ _ _ k Hmap).
  - cbn. destruct (map_get (global m) name) as [r|]; [|reflexivity].
    now destruct (heap m !! r ≫= line_val).
Qed.

Lemma toObject_global m name :
  faithful m →
  object_global (toObject m) name
  = match map_get (sections m) name with
    | Some _ => None
    | None => global_value m name
    end.
Proof.
  intros Hm. unfold object_global, global_value.
  rewrite toObject_get by exact Hm.
  destruct (map_get (sections m) name) as [r|] eqn:E.
  - destruct (proj2 (proj2 Hm) name r E) as (n & map & e & Hl & _). cbn.
    rewrite Hl. reflexivity.
  - destruct (map_get (global m) name) as [r|]; [|reflexivity]. cbn.
    now destruct (heap m !! r ≫= line_val).
Qed.

Lemma toObject_is_section m name :
  faithful m → is_section (toObject m) name ↔ is_Some (map_get (sections m) name).
Proof.
  intros Hm. unfold is_section. rewrite toObject_get by exact Hm.
  destruct (map_get (sections m) name) as [r|] eqn:E.
  - destruct (proj2 (proj2 Hm) name r E) as (n & map & e & Hl & _). cbn.
    rewrite Hl. cbn. split; eauto.
  - split; [|intros [? [=]]]. intros [props H].
    destruct (map_get (global m) name) as [r|]; [|discriminate].
    destruct (heap m !! r ≫= line_val); discriminate.
Qed.

(** [toObject] does not look at the numbers of the records. *)
Lemma define_value_shape h obj e :
  define_value (shape <$> h) obj e = define_value h obj e.
Proof.
  unfold define_value. rewrite list_lookup_fmap.
  now destruct (h !! e.2) as [[| |]|].
Qed.

Lemma fold_left_ext_eq {A B} (f g : A → B → A) (l : list B) : ∀ a,
  (∀ a b, f a b = g a b) → fold_left f l a = fold_left g l a.
Proof.
  induction l as [|b l IH]; intros a H; [reflexivity|]. cbn. rewrite H. now apply IH.
Qed.

Lemma define_global_shape h obj e :
  define_global (shape <$> h) obj e = define_global h obj e.
Proof.
  unfold define_global. rewrite list_lookup_fmap.
  now destruct (h !! e.2) as [[| |]|].
Qed.

Lemma define_section_shape h obj e :
  define_section (shape <$> h) obj e = define_section h obj e.
Proof.
  unfold define_section. rewrite list_lookup_fmap.
  destruct (h !! e.2) as [[| n sec map en|]|]; try reflexivity. cbn.
  do 2 f_equal. apply fold_left_ext_eq. intros; apply define_value_shape.
Qed.

Lemma toObject_shape m : toObject (with_heap m (shape <$> heap m)) = toObject m.
Proof.
  unfold toObject. cbn [heap with_heap global sections].
  rewrite (fold_left_ext_eq (define_global (shape <$> heap m)) (define_global (heap m)))
    by (intros; apply define_global_shape).
  apply fold_left_ext_eq. intros; apply define_section_shape.
Qed.

Lemma toObject_ext m m' :
  global m' = global m → sections m' = sections m →
  shape <$> heap m' = shape <$> heap m → toObject m' = toObject m.
Proof.
  intros Hg Hs Hh. rewrite <- (toObject_shape m), <- (toObject_shape m').
  unfold toObject. cbn [heap with_heap global sections]. now rewrite Hg, Hs, Hh.
Qed.

End ToObject.

(** ** [set] and then [toObject] *)

Section SetToObject.

Lemma section_value_at m s k rs n name map e :
  map_get (sections m) s = Some rs →
  heap m !! rs = Some (LineSection n name map e) →
  section_value m s k = map_get map k ≫= fun r => heap m !! r ≫= line_val.
Proof.
  intros Hs Hrec. unfold section_value, section_map. rewrite Hs. cbn.
  rewrite Hrec. reflexivity.
Qed.

Lemma section_value_none m s k :
  map_get (sections m) s = None → section_value m s k = None.
Proof. intros Hs. unfold section_value, section_map. now rewrite Hs. Qed.

Lemma global_value_at m k r :
  map_get (global m) k = Some r → global_value m k = heap m !! r ≫= line_val.
Proof. intros Hk. unfold global_value. now rewrite Hk. Qed.

Lemma global_value_none m k : map_get (global m) k = None → global_value m k = None.
Proof. intros Hk. unfold global_value. now rewrite Hk. Qed.

(** The values of a model whose records are those of [m] but for what
    [F] does to them, with the same maps. *)
Lemma values_transfer m m' (F : loc → Line → Line) :
  faithful m →
  global m' = global m → sections m' = sections m →
  (∀ r l, heap m !! r = Some l → heap m' !! r = Some (F r l)) →
  (∀ r l, line_map (F r l) = line_map l) →
  (∀ k, global_value m' k
        = map_get (global m) k ≫= fun r => heap m !! r ≫= fun l => line_val (F r l))
  ∧ (∀ s k, section_value m' s k
            = section_map m s ≫= fun map => map_get map k ≫= fun r =>
              heap m !! r ≫= fun l => line_val (F r l)).
Proof.
  intros (Hg & _ & Hs) Hg' Hs' HF Hmap. split.
  - intros k. unfold global_value. rewrite Hg'.
    destruct (map_get (global m) k) as [r|] eqn:E; [|reflexivity]. cbn.
    destruct (proj2 Hg k r E) as (n & v & Hl). rewrite (HF _ _ Hl), Hl. reflexivity.
  - intros s k. unfold section_value, section_map. rewrite Hs'.
    destruct (map_get (sections m) s) as [rs|] eqn:E; [|reflexivity]. cbn.
    destruct (Hs s rs E) as (n & map & e & Hl & Hkeyed).
    rewrite (HF _ _ Hl), Hl. cbn. rewrite Hmap. cbn.
    destruct (map_get map k) as [r|] eqn:Ek; [|reflexivity]. cbn.
    destruct (proj2 Hkeyed k r Ek) as (n' & v & Hl'). rewrite (HF _ _ Hl'), Hl'.
    reflexivity.
Qed.

(** [getOrCreateSection] changes no value. *)
Lemma getOrCreateSection_values m name :
  faithful m →
  let m1 := (getOrCreateSection m name).1 in
  (∀ k, global_value m1 k = global_value m k)
  ∧ (∀ s k, section_value m1 s k = section_value m s k)
  ∧ (∀ s, s ≠ name → map_get (sections m1) s = map_get (sections m) s).
Proof.
  intros Hm. unfold getOrCreateSection.
  destruct (map_get (sections m) name) as [r|] eqn:E; [cbn; auto|].
  cbn [alloc fst]. set (l := LineSection _ name [] _).
  set (m0 := with_lines (with_heap m (heap m ++ [l])) (lines m ++ [length (heap m)])).
  cbn zeta.
  destruct (values_transfer m m0 (fun _ l => l) Hm eq_refl eq_refl) as [Hg Hs].
  { intros r0 l0 H0. cbn. now apply lookup_app_l_Some. }
  { reflexivity. }
  split; [|split].
  - intros k. transitivity (global_value m0 k); [reflexivity|].
    rewrite Hg. unfold global_value.
    destruct (map_get (global m) k) as [r|]; [|reflexivity]. cbn.
    now destruct (heap m !! r).
  - intros s k. destruct (decide (s = name)) as [->|Hne].
    + rewrite (section_value_none m name k E).
      erewrite section_value_at;
        [|cbn; apply map_get_set_eq|cbn; now apply list_lookup_middle].
      reflexivity.
    + transitivity (section_value m0 s k).
      * unfold section_value, section_map. cbn [sections with_sections heap].
        now rewrite map_get_set_ne by congruence.
      * rewrite Hs. unfold section_value.
        destruct (section_map m s) as [map|]; [|reflexivity]. cbn.
        destruct (map_get map k) as [r|]; [|reflexivity]. cbn.
        now destruct (heap m !! r).
  - intros s Hne. cbn. now rewrite map_get_set_ne by congruence.
Qed.

(** The values after [set(section, key, value)]. *)
Lemma set_section_values m name key v :
  faithful m →
  ∃ M, faithful M
       ∧ toObject (set_section m name key v) = toObject M
       ∧ is_Some (map_get (sections M) name)
       ∧ (∀ s, s ≠ name → map_get (sections M) s = map_get (sections m) s)
       ∧ (∀ k, global_value M k = global_value m k)
       ∧ section_value M name key = Some v
       ∧ (∀ s k, (s, k) ≠ (name, key) → section_value M s k = section_value m s k).
Proof.
  intros Hm.
  pose proof (faithful_getOrCreateSection m name Hm) as Hm1.
  pose proof (getOrCreateSection_get m name) as Hs.
  destruct (getOrCreateSection_values m name Hm) as (Hg1 & Hv1 & Hs1).
  destruct (proj2 (proj2 Hm1) _ _ Hs) as (n & map & e & Hrec & Hmap).
  pose proof (set_section_cases m name key v n name map e Hrec) as H.
  cbn zeta in *.
  set (m1 := (getOrCreateSection m name).1) in *.
  set (s := (getOrCreateSection m name).2) in *.
  destruct (map_get map key) as [r0|] eqn:Ekey.
  - (* the key is there *)
    destruct (proj2 Hmap key r0 Ekey) as (n0 & v0 & Hr0).
    exists (update m1 r0 (set_val v)).
    split; [apply faithful_update; [apply skeleton_set_val|exact Hm1]|].
    split; [now rewrite H|]. split; [cbn; eauto|]. split; [exact Hs1|].
    destruct (values_transfer m1 (update m1 r0 (set_val v))
                (fun r l => if decide (r = r0) then set_val v l else l)
                Hm1 eq_refl eq_refl) as [Hg Hv].
    { intros r l Hl. cbn. destruct (decide (r = r0)) as [->|Hne].
      - now rewrite list_lookup_alter_eq, Hl.
      - now rewrite list_lookup_alter_ne by congruence. }
    { intros r l. destruct (decide (r = r0)); [now destruct l|reflexivity]. }
    split; [|split].
    + intros k. rewrite Hg, <- Hg1. unfold global_value.
      destruct (map_get (global m1) k) as [r|] eqn:Ek; [|reflexivity]. cbn.
      destruct (proj2 (proj1 Hm1) k r Ek) as (n' & v' & Hl). rewrite Hl. cbn.
      destruct (decide (r = r0)) as [->|Hne]; [congruence|reflexivity].
    + rewrite Hv. unfold section_map. rewrite Hs. cbn. rewrite Hrec. cbn.
      rewrite Ekey. cbn. rewrite Hr0. cbn. now rewrite decide_True.
    + intros s' k' Hne. rewrite Hv, <- Hv1. unfold section_value, section_map.
      destruct (map_get (sections m1) s') as [rs|] eqn:Es; [|reflexivity]. cbn.
      destruct (proj2 (proj2 Hm1) _ _ Es) as (n' & map' & e' & Hrs & Hmap').
      rewrite Hrs. cbn. destruct (map_get map' k') as [r|] eqn:Ek; [|reflexivity]. cbn.
      destruct (proj2 Hmap' k' r Ek) as (n'' & v'' & Hl). rewrite Hl. cbn.
      destruct (decide (r = r0)) as [->|Hne']; [|reflexivity].
      exfalso. apply Hne. congruence.
  - (* a record is made for the key *)
    destruct H as (Hg & Hsec & Hshape).
    set (lv := LineValue 0 (Some name) key v) in *.
    set (len := length (heap m1)) in *.
    set (c := update (with_heap m1 (heap m1 ++ [lv])) s (set_key key len)).
    assert (Hc : faithful c).
    { apply (faithful_set_key _ name s key _ 0 v).
      - now apply faithful_alloc.
      - exact Hs.
      - cbn. now apply list_lookup_middle. }
    exists c. split; [exact Hc|].
    split; [now apply toObject_ext|]. split; [cbn; eauto|]. split; [exact Hs1|].
    assert (Hold : ∀ r l, heap m1 !! r = Some l →
              heap c !! r = Some (if decide (r = s) then set_key key len l else l)).
    { intros r l Hl. cbn. destruct (decide (r = s)) as [->|Hne].
      - rewrite list_lookup_alter_eq. erewrite lookup_app_l_Some by exact Hl. reflexivity.
      - rewrite list_lookup_alter_ne by congruence. now apply lookup_app_l_Some. }
    assert (Hnew : heap c !! len = Some lv).
    { cbn. rewrite list_lookup_alter_ne.
      - now apply list_lookup_middle.
      - apply lookup_lt_Some in Hrec. unfold len. lia. }
    split; [|split].
    + intros k. rewrite <- Hg1.
      destruct (map_get (global m1) k) as [r|] eqn:Ek;
        [|rewrite !global_value_none by exact Ek; reflexivity].
      rewrite (global_value_at c k r Ek), (global_value_at m1 k r Ek).
      destruct (proj2 (proj1 Hm1) k r Ek) as (n' & v' & Hl).
      rewrite (Hold _ _ Hl), Hl. destruct (decide (r = s)); reflexivity.
    + erewrite (section_value_at c name key s); [|exact Hs|].
      2:{ rewrite (Hold _ _ Hrec), decide_True by reflexivity. reflexivity. }
      rewrite map_get_set_eq.
      change (heap c !! len ≫= line_val = Some v). now rewrite Hnew.
    + intros s' k' Hne. rewrite <- Hv1.
      destruct (map_get (sections m1) s') as [rs|] eqn:Es;
        [|rewrite !section_value_none by exact Es; reflexivity].
      destruct (proj2 (proj2 Hm1) _ _ Es) as (n' & map' & e' & Hrs & Hmap').
      rewrite (section_value_at m1 s' k' rs _ _ _ _ Es Hrs).
      assert (Hcase : (rs = s ∧ s' = name ∧ map' = map) ∨ rs ≠ s).
      { destruct (decide (rs = s)) as [->|]; [left|now right].
        rewrite Hrec in Hrs. injection Hrs as _ <- <- _. auto. }
      destruct Hcase as [(-> & -> & ->)|Hrs'].
      * erewrite (section_value_at c name k' s); [|exact Hs|].
        2:{ rewrite (Hold _ _ Hrec), decide_True by reflexivity. reflexivity. }
        rewrite map_get_set_ne by congruence.
        destruct (map_get map k') as [r|] eqn:Ek; [|reflexivity].
        change (heap c !! r ≫= line_val = heap m1 !! r ≫= line_val).
        destruct (proj2 Hmap k' r Ek) as (n'' & v'' & Hl).
        rewrite (Hold _ _ Hl), Hl. destruct (decide (r = s)); reflexivity.
      * erewrite (section_value_at c s' k' rs); [|exact Es|].
        2:{ rewrite (Hold _ _ Hrs), decide_False by exact Hrs'. reflexivity. }
        destruct (map_get map' k') as [r|] eqn:Ek; [|reflexivity].
        change (heap c !! r ≫= line_val = heap m1 !! r ≫= line_val).
        destruct (proj2 Hmap' k' r Ek) as (n'' & v'' & Hl).
        rewrite (Hold _ _ Hl), Hl. destruct (decide (r = s)); reflexivity.
Qed.

(** The values after [set(key, value)]. *)
Lemma set_global_values m key v :
  faithful m →
  ∃ M, faithful M
       ∧ toObject (set_global m key v) = toObject M
       ∧ sections M = sections m
       ∧ global_value M key = Some v
       ∧ (∀ k, k ≠ key → global_value M k = global_value m k)
       ∧ (∀ s k, section_value M s k = section_value m s k).
Proof.
  intros Hm.
  destruct (set_global_frame m key v) as (_ & Hs & _ & Hg & Hshape). cbn zeta in *.
  set (lv := LineValue 0 None key v) in *.
  set (c := with_global (with_heap m (heap m ++ [lv]))
              (map_set (global m) key (length (heap m)))).
  assert (Hc : faithful c).
  { eapply (faithful_global_set (with_heap m (heap m ++ [lv]))).
    - now apply faithful_alloc.
    - cbn. now apply list_lookup_middle. }
  exists c. split; [exact Hc|]. split; [now apply toObject_ext|].
  split; [reflexivity|].
  assert (Hold : ∀ r l, heap m !! r = Some l → heap c !! r = Some l)
    by (intros r l Hl; cbn; now apply lookup_app_l_Some).
  split; [|split].
  - erewrite global_value_at by (cbn; apply map_get_set_eq).
    cbn. now rewrite list_lookup_middle.
  - intros k Hne. unfold global_value. cbn [global c with_global].
    rewrite map_get_set_ne by congruence.
    destruct (map_get (global m) k) as [r|] eqn:Ek; [|reflexivity]. cbn.
    destruct (proj2 (proj1 Hm) k r Ek) as (n & v' & Hl).
    now rewrite (lookup_app_l_Some _ _ _ _ Hl), Hl.
  - intros s k. unfold section_value, section_map. cbn [sections c with_global with_heap].
    destruct (map_get (sections m) s) as [rs|] eqn:Es; [|reflexivity]. cbn.
    destruct (proj2 (proj2 Hm) _ _ Es) as (n & map & e & Hrs & Hmap).
    rewrite (lookup_app_l_Some _ _ _ _ Hrs), Hrs. cbn.
    destruct (map_get map k) as [r|] eqn:Ek; [|reflexivity]. cbn.
    destruct (proj2 Hmap k r Ek) as (n' & v' & Hl).
    now rewrite (lookup_app_l_Some _ _ _ _ Hl), Hl.
Qed.

(** X6.  What [toObject] reports of a model built by [parse] and [set]: under
    [obj[s][k]] the value the map of the section [s] holds for [k]; under a
    name that is no section the value of the global key; and under the
    name of a section the section's object, which hides a global key of
    the same name. *)
Theorem toObject_reports_maps (m : IniMap) :
  constructed m →
  (∀ s k, object_value (toObject m) s k = section_value m s k)
  ∧ (∀ name, map_get (sections m) name = None →
       object_global (toObject m) name = global_value m name)
  ∧ (∀ name, is_Some (map_get (sections m) name) →
       is_section (toObject m) name ∧ object_global (toObject m) name = None).
Proof.
  intros Hm%constructed_faithful. split; [|split].
  - intros s k. now apply toObject_value.
  - intros name Hname. rewrite toObject_global by exact Hm. now rewrite Hname.
  - intros name Hname. split; [now apply toObject_is_section|].
    rewrite toObject_global by exact Hm. now destruct Hname as [r ->].
Qed.

Lemma toObject_reports_maps_witness :
  let m := set (set (new_IniMap noFormatting) (js "a") one VUndefined)
             (js "a") (VString (js "b")) one in
  global_value m (js "a") = Some one
  ∧ is_section (toObject m) (js "a")
  ∧ object_global (toObject m) (js "a") = None.
Proof.
  intros m. split; [vm_compute; reflexivity|].
  refine (proj2 (proj2 (toObject_reports_maps m _)) (js "a") _).
  - do 2 apply constructed_set. apply constructed_new.
  - eexists. vm_compute. reflexivity.
Defined.

(** X7.  A key set in a section is read back from the object: after
    [set(section, key, value)], [toObject()[section][key]] is the value,
    every other key of every section reads as before, and so does every
    global key but one named like the section, which the section hides. *)
Theorem set_section_then_toObject
    (m : IniMap) (section key : jsstring) (v : IniValue) :
  constructed m → v ≠ VUndefined →
  let obj := toObject m in
  let obj' := toObject (set m section (VString key) v) in
  object_value obj' section key = Some v
  ∧ (∀ s k, (s, k) ≠ (section, key) → object_value obj' s k = object_value obj s k)
  ∧ (∀ name, name ≠ section → object_global obj' name = object_global obj name)
  ∧ is_section obj' section
  ∧ object_global obj' section = None.
Proof.
  intros Hm%constructed_faithful Hv obj obj'. unfold obj, obj'.
  rewrite set_section_branch by exact Hv.
  destruct (set_section_values m section key v Hm)
    as (M & HM & -> & Hsec & Hother & Hg & Hkey & Hframe).
  split; [|split; [|split; [|split]]].
  - now rewrite toObject_value.
  - intros s k Hne. rewrite !toObject_value by assumption. now apply Hframe.
  - intros name Hne. rewrite !toObject_global by assumption.
    now rewrite Hother, Hg by exact Hne.
  - now apply toObject_is_section.
  - rewrite toObject_global by exact HM. now destruct Hsec as [r ->].
Qed.

Lemma set_section_then_toObject_witness :
  object_value
    (toObject (set doc_two_sections (js "s") (VString (js "b")) VNull))
    (js "s") (js "b")
  = Some VNull.
Proof.
  refine (proj1 (set_section_then_toObject doc_two_sections (js "s") (js "b") VNull _ _)).
  - apply (constructed_parse (new_IniMap noFormatting) (JString text_three_lines) None).
    + apply constructed_new.
    + vm_compute. reflexivity.
  - discriminate.
Defined.

(** X8.  A global key is read back from the object unless a section has its
    name: after [set(key, value)], [toObject()[key]] is the value when no
    section is named [key], and the section's object as before otherwise;
    every other global key and every key of every section reads as
    before. *)
Theorem set_global_then_toObject (m : IniMap) (key : jsstring) (v : IniValue) :
  constructed m →
  let obj := toObject m in
  let obj' := toObject (set m key v VUndefined) in
  (¬ is_section obj key → object_global obj' key = Some v)
  ∧ (is_section obj key → is_section obj' key ∧ object_global obj' key = None)
  ∧ (∀ name, name ≠ key → object_global obj' name = object_global obj name)
  ∧ (∀ s k, object_value obj' s k = object_value obj s k).
Proof.
  intros Hm%constructed_faithful obj obj'. unfold obj, obj'.
  assert (E : set m key v VUndefined = set_global m key v) by now destruct v.
  rewrite E.
  destruct (set_global_values m key v Hm) as (M & HM & -> & Hsec & Hkey & Hg & Hs).
  split; [|split; [|split]].
  - intros Hno. rewrite toObject_global by exact HM. rewrite Hsec.
    destruct (map_get (sections m) key) as [r|] eqn:Er; [|exact Hkey].
    exfalso. apply Hno. apply toObject_is_section; eauto.
  - intros Hyes. apply toObject_is_section in Hyes; [|exact Hm].
    split; [apply toObject_is_section; [exact HM|now rewrite Hsec]|].
    rewrite toObject_global by exact HM. rewrite Hsec. now destruct Hyes as [r ->].
  - intros name Hne. rewrite !toObject_global by assumption.
    now rewrite Hsec, Hg by exact Hne.
  - intros s k. rewrite !toObject_value by assumption. apply Hs.
Qed.

Lemma set_global_then_toObject_witness :
  is_section (toObject (set doc_two_sections (js "s") one VUndefined)) (js "s")
  ∧ object_global (toObject (set doc_two_sections (js "s") one VUndefined)) (js "s")
    = None.
Proof.
  refine (proj1 (proj2 (set_global_then_toObject doc_two_sections (js "s") one _)) _).
  - apply (constructed_parse (new_IniMap noFormatting) (JString text_three_lines) None).
    + apply constructed_new.
    + vm_compute. reflexivity.
  - eexists. vm_compute. reflexivity.
Defined.

End SetToObject.

(** ** What a parse stores *)

Section StoredText.

Lemma trimStart_head s :
  match trimStart s with [] => true | c :: _ => negb (isWhiteSpace c) end = true.
Proof.
  induction s as [|c s IH]; [reflexivity|]. cbn.
  destruct (isWhiteSpace c) eqn:E; [exact IH|]. cbn. now rewrite E.
Qed.

Lemma trimStart_snoc s c :
  isWhiteSpace c = false → trimStart (s ++ [c]) = trimStart s ++ [c].
Proof.
  intros Hc. induction s as [|d s IH]; cbn; [now rewrite Hc|].
  destruct (isWhiteSpace d); [exact IH|reflexivity].
Qed.

Lemma trimStart_suffix s : ∃ ws, s = ws ++ trimStart s.
Proof.
  induction s as [|c s [ws IH]]; [now exists []|]. cbn.
  destruct (isWhiteSpace c); [|now exists []].
  exists (c :: ws). cbn. now f_equal.
Qed.

(** A string that starts with a character that is no white space keeps it
    when it is trimmed. *)
Lemma trim_cons c s :
  isWhiteSpace c = false → ∃ s', trim (c :: s) = c :: s' ∧ ∃ ws, s = s' ++ ws.
Proof.
  intros Hc. unfold trim, trimEnd. cbn [trimStart]. rewrite Hc. cbn [rev].
  rewrite trimStart_snoc by exact Hc. rewrite rev_unit.
  exists (rev (trimStart (rev s))). split; [reflexivity|].
  destruct (trimStart_suffix (rev s)) as [ws Hws]. exists (rev ws).
  rewrite <- rev_app_distr, <- Hws. now rewrite rev_involutive.
Qed.

Lemma is_trimmed_trim s : is_trimmed (trim s) = true.
Proof.
  unfold is_trimmed. apply andb_true_intro. split.
  - pose proof (trimStart_head s) as H. unfold trim.
    destruct (trimStart s) as [|c u] eqn:E; [reflexivity|].
    apply negb_true_iff in H.
    destruct (trim_cons c u H) as (s' & Hs' & _).
    unfold trim in Hs'. cbn [trimStart] in Hs'. rewrite H in Hs'.
    rewrite Hs'. now rewrite H.
  - unfold trim, trimEnd.
    pose proof (trimStart_head (rev (trimStart s))) as H.
    destruct (trimStart (rev (trimStart s))) as [|c u]; [reflexivity|].
    cbn [rev]. now rewrite last_snoc.
Qed.

Lemma leftOf_free c s : existsb (fun d => (d =? c)%N) (leftOf c s) = false.
Proof.
  induction s as [|d s IH]; [reflexivity|]. cbn.
  destruct (d =? c)%N eqn:E; [reflexivity|]. cbn. now rewrite E.
Qed.

Lemma existsb_app_false {A} (p : A → bool) a b :
  existsb p (a ++ b) = false → existsb p a = false.
Proof. rewrite existsb_app. now intros [H _]%orb_false_iff. Qed.

(** The key of a key/value line that [parse] accepts. *)
Lemma stored_key c t :
  isWhiteSpace c = false → (c =? EQUALS)%N = false →
  let key := trim (leftOf EQUALS (c :: t)) in
  nonEmpty key && is_trimmed key
  && negb (existsb (fun d => (d =? EQUALS)%N) key) = true.
Proof.
  intros Hw He key. unfold key. cbn [leftOf]. rewrite He.
  rewrite is_trimmed_trim.
  destruct (trim_cons c (leftOf EQUALS t) Hw) as (s' & Hs' & ws & Hws).
  rewrite Hs'. cbn. rewrite He. cbn.
  apply negb_true_iff. apply (existsb_app_false _ s' ws).
  rewrite <- Hws. apply leftOf_free.
Qed.

Lemma stores_well_refl m : stores_well m m.
Proof. intros r l Hr Hl. apply lookup_lt_Some in Hl. lia. Qed.

Lemma stores_well_push m0 m l :
  stores_well m0 m → stored_well l = true →
  ∀ m', heap m' = heap m ++ [l] → stores_well m0 m'.
Proof.
  intros Hm Hl m' Hh r l' Hr Hl'. rewrite Hh in Hl'.
  apply lookup_app_Some in Hl' as [Hl'|[_ Hl']]; [exact (Hm r l' Hr Hl')|].
  destruct (r - length (heap m)); cbn in Hl'; [|discriminate]. congruence.
Qed.

Lemma stores_well_update m0 m s f :
  (∀ l, stored_well (f l) = stored_well l) →
  stores_well m0 m → stores_well m0 (update m s f).
Proof.
  intros Hf Hm r l Hr Hl. cbn in Hl.
  destruct (decide (s = r)) as [->|Hne].
  - rewrite list_lookup_alter_eq in Hl.
    destruct (heap m !! r) as [l0|] eqn:E; [|discriminate].
    injection Hl as <-. rewrite Hf. exact (Hm r l0 Hr E).
  - rewrite list_lookup_alter_ne in Hl by exact Hne. exact (Hm r l Hr Hl).
Qed.

Lemma stores_well_heap m0 m m' :
  heap m' = heap m → stores_well m0 m → stores_well m0 m'.
Proof. unfold stores_well. now intros ->. Qed.

Lemma stored_well_set_key k r l : stored_well (set_key k r l) = stored_well l.
Proof. now destruct l. Qed.

Lemma stored_well_set_end e l : stored_well (set_end e l) = stored_well l.
Proof. now destruct l. Qed.

Lemma stores_well_parseLine reviver m0 m cs n line m' cs' :
  stores_well m0 m →
  parseLine reviver m cs n line = inr (m', cs') → stores_well m0 m'.
Proof.
  intros Hm H.
  pose proof (parseLine_malformation reviver m cs n line) as Hmal.
  destruct (malformation (trim line)) as [k|] eqn:Ek; [congruence|]. clear Hmal.
  apply parseLine_returns in H. cbn zeta in H.
  pose proof (is_trimmed_trim line) as Htrim.
  destruct H as [(Hc & -> & _)|[(_ & _ & Hname & -> & _)|(Hkv & -> & _)]].
  - apply (stores_well_push m0 m (LineComment n (trim line)) Hm);
      [cbn; now rewrite Hc, Htrim|reflexivity].
  - apply (stores_well_push m0 m (LineSection n (inner (trim line)) [] n) Hm);
      [exact Hname|reflexivity].
  - unfold isKeyValueLine in Hkv. apply andb_prop in Hkv as [Hc Hb].
    apply negb_true_iff in Hc, Hb. unfold malformation in Ek. rewrite Hc in Ek.
    destruct (trim line) as [|c t] eqn:Et; [discriminate Hc|].
    cbn [first_is] in Hb. rewrite Hb in Ek.
    destruct (existsb _ (c :: t)); [|discriminate]. cbn [negb] in Ek.
    destruct (c =? EQUALS)%N eqn:He; [discriminate|].
    assert (Hw : isWhiteSpace c = false).
    { unfold is_trimmed in Htrim. apply andb_prop in Htrim as [Hf _].
      now apply negb_true_iff in Hf. }
    pose proof (stored_key c t Hw He) as Hkey. cbn zeta in Hkey.
    assert (Hm' : stores_well m0 (infer_pretty m (padded (c :: t))))
      by (unfold infer_pretty; now destruct (pretty (formatting m))).
    set (m1 := infer_pretty m (padded (c :: t))) in *.
    destruct cs as [s|]; cbn [push_value].
    + apply stores_well_update; [apply stored_well_set_end|].
      set (lv := LineValue _ _ _ _).
      eapply (stores_well_heap m0
                (update (with_heap m1 (heap m1 ++ [lv])) s (set_key _ (length (heap m1)))));
        [reflexivity|].
      apply stores_well_update; [apply stored_well_set_key|].
      apply (stores_well_push m0 m1 lv Hm'); [exact Hkey|reflexivity].
    + set (lv := LineValue _ _ _ _).
      apply (stores_well_push m0 m1 lv Hm'); [exact Hkey|reflexivity].
Qed.

Lemma stores_well_resume m0 m lb : stores_well m0 m → stores_well m0 (resume m lb).
Proof. destruct lb as [b|]; cbn; [|auto]. now destruct (truthy _). Qed.

Lemma stores_well_parseLines reviver tokens : ∀ m0 m cs n,
  stores_well m0 m →
  match parseLines reviver m cs n tokens with
  | inl (_, m') => stores_well m0 m'
  | inr (m', _) => stores_well m0 m'
  end.
Proof.
  induction tokens as [|[line lb] tokens IH]; intros m0 m cs n Hm; [exact Hm|].
  cbn [parseLines].
  destruct (parseLine reviver m cs n line) as [e|[m1 cs1]] eqn:E; [exact Hm|].
  apply IH, stores_well_resume. exact (stores_well_parseLine _ _ _ _ _ _ _ _ Hm E).
Qed.

(** X9.  Whatever the text and the reviver, and whether the parse returns or
    throws: of every record [parse] adds, a comment is stored trimmed, a
    section name has a character that is no white space (it is stored
    untrimmed), and a key is not empty, is trimmed and holds no [=]. *)
Theorem parse_stores_trimmed_keys
    (m : IniMap) (text : JsValue) (reviver : option ReviverFunction) :
  match parse m text reviver with
  | Return m' => stores_well m m'
  | Throw _ m' => stores_well m m'
  end.
Proof.
  destruct text as [s| | | | |]; cbn [parse];
    try (destruct (template_text _); apply stores_well_refl).
  pose proof (stores_well_parseLines (default defaultReviver reviver)
                (readTextLines s) m m None 1 (stores_well_refl m)) as H.
  now destruct (parseLines _ m None 1 _) as [[e m']|[m' cs']].
Qed.

End StoredText.

(** ** Deleting the line that was added *)

Section DeleteAdded.

Lemma bump_bump a b l : bump a (bump b l) = bump b (bump a l).
Proof. destruct l; cbn; f_equal; lia. Qed.

Lemma bump_cancel l : bump (-1) (bump 1 l) = l.
Proof. destruct l; cbn; f_equal; lia. Qed.

Lemma shifted_cons op r rs h :
  shifted op (r :: rs) h = shifted op rs (alter (bump op) r h).
Proof. reflexivity. Qed.

Lemma alter_bump_shifted a b r rs : ∀ h,
  alter (bump a) r (shifted b rs h) = shifted b rs (alter (bump a) r h).
Proof.
  induction rs as [|x rs IH]; intros h; [reflexivity|]. rewrite !shifted_cons.
  rewrite IH. f_equal. apply alter_alter_commute. intros; apply bump_bump.
Qed.

Lemma shifted_cancel rs : ∀ h, shifted (-1) rs (shifted 1 rs h) = h.
Proof.
  induction rs as [|r rs IH]; intros h; [reflexivity|]. rewrite !shifted_cons.
  rewrite alter_bump_shifted, list_alter_alter_eq, IH.
  apply list_alter_id. intros l. apply bump_cancel.
Qed.

(** X10.  [#appendOrDeleteLine] is its own inverse on a new line: when a record
    that is no comment and not yet a line is added at its number, a number
    within the document or right after it, deleting it again gives the
    document back, the numbers and section ends included. *)
Theorem appendOrDeleteLine_delete_undoes_add
    (m : IniMap) (input : loc) (inp : Line) (i : nat) :
  heap m !! input = Some inp →
  isCommentLine inp = false →
  line_num inp = (Z.of_nat i + 1)%Z →
  i ≤ length (lines m) →
  input ∉ lines m →
  appendOrDeleteLine (appendOrDeleteLine m input Add) input Del = m.
Proof.
  intros Hin Hcomment Hnum Hi Hfresh.
  assert (Hadd : appendOrDeleteLine m input Add
                 = with_lines (with_heap m (shifted 1 (drop i (lines m)) (heap m)))
                     (inserted i input (lines m))).
  { unfold appendOrDeleteLine. rewrite Hin. cbn zeta. rewrite Hcomment, Hnum.
    cbn [op_value].
    replace (Z.of_nat i + 1 - 1)%Z with (Z.of_nat i) by lia.
    unfold splice_insert, slice_from. rewrite relative_in_range by exact Hi.
    fold (inserted i input (lines m)).
    rewrite length_inserted.
    replace (Z.of_nat i + 1)%Z with (Z.of_nat (S i)) by lia.
    rewrite relative_in_range by lia.
    assert (Hdrop : drop (S i) (inserted i input (lines m)) = drop i (lines m)).
    { unfold inserted.
      rewrite drop_app_ge by (rewrite length_take; lia).
      rewrite length_take, Nat.min_l by lia.
      replace (S i - i) with 1 by lia. reflexivity. }
    rewrite Hdrop, fold_shift_value. reflexivity. }
  rewrite Hadd. unfold appendOrDeleteLine at 1. cbn [heap with_heap with_lines lines sections].
  rewrite shifted_lookup_notin, Hin.
  2:{ intros Hd. apply Hfresh. eapply elem_of_drop. exact Hd. }
  cbn zeta. rewrite Hcomment, Hnum. cbn [op_value].
  replace (Z.of_nat i + 1 - 1)%Z with (Z.of_nat i) by lia.
  unfold splice_delete, slice_from.
  rewrite length_inserted.
  rewrite (relative_in_range (S (length (lines m))) i) by lia.
  assert (Hdel : take i (inserted i input (lines m))
                 ++ drop (S i) (inserted i input (lines m)) = lines m).
  { unfold inserted.
    rewrite take_app_le by (rewrite length_take; lia).
    rewrite take_take, Nat.min_id.
    rewrite drop_app_ge by (rewrite length_take; lia).
    rewrite length_take, Nat.min_l by lia.
    replace (S i - i) with 1 by lia. cbn [drop]. rewrite drop_0. apply take_drop. }
  rewrite Hdel. rewrite (relative_in_range (length (lines m)) i) by exact Hi.
  rewrite fold_shift_value, shifted_cancel. now destruct m.
Qed.

Lemma appendOrDeleteLine_delete_undoes_add_witness :
  let m := with_heap doc_two_sections
             (heap doc_two_sections ++ [LineValue 3 (Some (js "s")) (js "b") VNull]) in
  lines (appendOrDeleteLine m 3 Add) = [0; 1; 3; 2]
  ∧ appendOrDeleteLine (appendOrDeleteLine m 3 Add) 3 Del = m.
Proof.
  intros m. split; [vm_compute; reflexivity|].
  apply (appendOrDeleteLine_delete_undoes_add m 3
           (LineValue 3 (Some (js "s")) (js "b") VNull) 2).
  - reflexivity.
  - reflexivity.
  - reflexivity.
  - cbn. lia.
  - cbn. intros H. repeat (apply elem_of_cons in H as [H|H]; [discriminate|]).
    now apply elem_of_nil in H.
Defined.

End DeleteAdded.

(** ** Every key stands under the header of its section *)

Section Scoped.

Lemma scope_from_app cur h a b :
  scope_from cur h (a ++ b) = scope_from (scope_from cur h a) h b.
Proof. apply fold_left_app. Qed.

Lemma scope_from_plain cur h rs :
  (∀ r, r ∈ rs → h !! r ≫= header = None) → scope_from cur h rs = cur.
Proof.
  revert cur. induction rs as [|r rs IH]; intros cur H; [reflexivity|].
  cbn. rewrite (H r) by (apply elem_of_cons; now left).
  apply IH. intros r' Hr'. apply H. apply elem_of_cons. now right.
Qed.

Lemma scope_from_ext cur h h' rs :
  (∀ r, r ∈ rs → h' !! r ≫= header = h !! r ≫= header) →
  scope_from cur h' rs = scope_from cur h rs.
Proof.
  revert cur. induction rs as [|r rs IH]; intros cur H; [reflexivity|].
  cbn. rewrite (H r) by (apply elem_of_cons; now left).
  apply IH. intros r' Hr'. apply H. apply elem_of_cons. now right.
Qed.

Lemma header_section l : isSectionLine l = false → header l = None.
Proof. now destruct l. Qed.

Lemma header_bump op l : header (bump op l) = header l.
Proof. now destruct l. Qed.

Lemma header_renumbered i p l : header (renumbered i p l) = header l.
Proof. unfold renumbered. destruct (decide (i ≤ p)); [apply header_bump|reflexivity]. Qed.

Lemma scoped_ext m m' :
  heap m' = heap m → lines m' = lines m → scoped m → scoped m'.
Proof. unfold scoped. now intros -> ->. Qed.

Lemma cursor_scope_ext m m' cs :
  heap m' = heap m → lines m' = lines m → cursor_scope m cs → cursor_scope m' cs.
Proof. unfold cursor_scope. now intros -> ->. Qed.

(** *** A record put after the last line *)

Lemma scope_from_alloc cur m l rs :
  numbered m → rs ⊆ lines m →
  scope_from cur (heap m ++ [l]) rs = scope_from cur (heap m) rs.
Proof.
  intros Hm Hrs. apply scope_from_ext. intros r Hr.
  apply Hrs, list_elem_of_lookup in Hr as [i Hi].
  destruct (numbered_nums _ Hm i r Hi) as (l0 & Hl0 & _).
  now rewrite (lookup_app_l_Some _ _ _ _ Hl0), Hl0.
Qed.

Lemma take_subseteq {A} (l : list A) n : take n l ⊆ l.
Proof. intros x Hx. rewrite <- (take_drop n l). apply elem_of_app. now left. Qed.

Lemma scoped_pushed m l :
  numbered m → scoped m →
  (∀ n sec k v, l = LineValue n sec k v → scope (heap m) (lines m) = sec) →
  scoped (pushed m l)
  ∧ scope (heap (pushed m l)) (lines (pushed m l))
    = match header l with
      | Some s => Some s
      | None => scope (heap m) (lines m)
      end.
Proof.
  intros Hm Hsc Hl. split.
  - intros p r n sec k v Hp Hr. cbn [pushed lines heap with_lines with_heap] in *.
    apply lookup_app_Some in Hp as [Hp|[Hlen Hp]].
    + destruct (numbered_nums _ Hm p r Hp) as (l0 & Hl0 & _).
      rewrite (lookup_app_l_Some _ _ _ _ Hl0) in Hr. injection Hr as ->.
      rewrite take_app_le by (apply lookup_lt_Some in Hp; lia).
      unfold scope. rewrite scope_from_alloc by (exact Hm || apply take_subseteq).
      exact (Hsc p r n sec k v Hp Hl0).
    + destruct (p - length (lines m)) as [|d] eqn:Ed; [|discriminate].
      injection Hp as <-. rewrite list_lookup_middle in Hr by reflexivity.
      injection Hr as ->.
      assert (p = length (lines m)) as -> by lia.
      rewrite take_app_length. unfold scope.
      rewrite scope_from_alloc by (exact Hm || reflexivity).
      exact (Hl n sec k v eq_refl).
  - cbn [pushed lines heap with_lines with_heap]. unfold scope.
    rewrite scope_from_app. cbn. rewrite list_lookup_middle by reflexivity. cbn.
    now rewrite scope_from_alloc by (exact Hm || reflexivity).
Qed.

(** *** A record changed in place *)

Lemma scope_from_alter cur h s f rs :
  (∀ l, header (f l) = header l) →
  scope_from cur (alter f s h) rs = scope_from cur h rs.
Proof.
  intros Hf. apply scope_from_ext. intros r _.
  destruct (decide (s = r)) as [->|Hne].
  - rewrite list_lookup_alter_eq. destruct (h !! r); cbn; [apply Hf|reflexivity].
  - now rewrite list_lookup_alter_ne.
Qed.

Lemma scoped_update m s f :
  (∀ l, header (f l) = header l) →
  (∀ l n sec k v, f l = LineValue n sec k v → ∃ n' v', l = LineValue n' sec k v') →
  scoped m → scoped (update m s f).
Proof.
  intros Hh Hv Hsc p r n sec k v Hp Hr. cbn [update lines heap with_heap] in *.
  unfold scope. rewrite scope_from_alter by exact Hh.
  destruct (decide (s = r)) as [->|Hne].
  - rewrite list_lookup_alter_eq in Hr.
    destruct (heap m !! r) as [l|] eqn:El; [|discriminate]. injection Hr as Hr.
    destruct (Hv _ _ _ _ _ Hr) as (n' & v' & ->). exact (Hsc p r n' sec k v' Hp El).
  - rewrite list_lookup_alter_ne in Hr by exact Hne. exact (Hsc p r n sec k v Hp Hr).
Qed.

Lemma cursor_scope_update m s f cs :
  (∀ l, header (f l) = header l) →
  (∀ n name map e, ∃ n' map' e', f (LineSection n name map e)
                                 = LineSection n' name map' e') →
  cursor_scope m cs → cursor_scope (update m s f) cs.
Proof.
  intros Hh Hs Hcs. destruct cs as [c|]; cbn [cursor_scope update heap lines with_heap] in *.
  - destruct Hcs as (n & name & map & e & Hc & Hscope).
    unfold scope. rewrite scope_from_alter by exact Hh.
    destruct (decide (s = c)) as [->|Hne].
    + destruct (Hs n name map e) as (n' & map' & e' & Hf).
      exists n', name, map', e'. rewrite list_lookup_alter_eq, Hc. cbn. now rewrite Hf.
    + exists n, name, map, e. now rewrite list_lookup_alter_ne.
  - unfold scope. now rewrite scope_from_alter.
Qed.

Lemma set_val_value v l n sec k w :
  set_val v l = LineValue n sec k w → ∃ n' v', l = LineValue n' sec k v'.
Proof. destruct l; cbn; intros [=]; subst; eauto. Qed.

Lemma set_end_value e l n sec k w :
  set_end e l = LineValue n sec k w → ∃ n' v', l = LineValue n' sec k v'.
Proof. destruct l; cbn; intros [=]; subst; eauto. Qed.

Lemma set_key_value key r l n sec k w :
  set_key key r l = LineValue n sec k w → ∃ n' v', l = LineValue n' sec k v'.
Proof. destruct l; cbn; intros [=]; subst; eauto. Qed.

Lemma header_set_val v l : header (set_val v l) = header l.
Proof. now destruct l. Qed.

Lemma header_set_end e l : header (set_end e l) = header l.
Proof. now destruct l. Qed.

Lemma header_set_key k r l : header (set_key k r l) = header l.
Proof. now destruct l. Qed.

(** *** A line put in *)

Lemma scope_from_insert_line cur m i lv rs :
  numbered m → i ≤ length (lines m) → rs ⊆ lines m →
  scope_from cur (heap (insert_line m i lv)) rs = scope_from cur (heap m) rs.
Proof.
  intros Hm Hi Hrs. apply scope_from_ext. intros r Hr.
  apply Hrs, list_elem_of_lookup in Hr as [p Hp].
  destruct (numbered_nums _ Hm p r Hp) as (l0 & Hl0 & _).
  rewrite (insert_line_old_record m i lv p r l0 Hm Hi Hp Hl0), Hl0. cbn.
  apply header_renumbered.
Qed.

Lemma scoped_insert_line m i n sec k v :
  numbered m → scoped m → i ≤ length (lines m) →
  scope (heap m) (take i (lines m)) = sec →
  scoped (insert_line m i (LineValue n sec k v)).
Proof.
  intros Hm Hsc Hi Hscope p' r n' sec' k' v' Hp Hr.
  set (lv := LineValue n sec k v) in *.
  assert (Hlines : lines (insert_line m i lv)
                   = take i (lines m) ++ length (heap m) :: drop i (lines m))
    by reflexivity.
  destruct (insert_line_lookup m i lv p' r _ Hm Hi Hp Hr)
    as [(Hlt & Hp0 & Hr0)|[(-> & -> & Hlv)|(p & l & -> & Hle & Hp0 & Hr0 & Hbump)]].
  - rewrite Hlines, take_app_le by (rewrite length_take; lia).
    rewrite take_take, Nat.min_l by lia. unfold scope.
    rewrite scope_from_insert_line by (assumption || apply take_subseteq).
    exact (Hsc p' r n' sec' k' v' Hp0 Hr0).
  - rewrite Hlines, take_app_le by (rewrite length_take; lia).
    rewrite take_take, Nat.min_id. unfold scope.
    rewrite scope_from_insert_line by (assumption || apply take_subseteq).
    unfold lv in Hlv. injection Hlv as _ <- _ _. exact Hscope.
  - assert (∃ n0, l = LineValue n0 sec' k' v') as [n0 ->]
      by (destruct l; cbn in Hbump; try discriminate; injection Hbump as _ <- <- <-; eauto).
    rewrite Hlines, take_app_ge by (rewrite length_take; lia).
    rewrite length_take, Nat.min_l by lia.
    replace (S p - i) with (S (p - i)) by lia. cbn [take].
    unfold scope. rewrite scope_from_app. cbn [scope_from fold_left].
    rewrite (insert_line_new_record m i lv Hm). cbn [mbind option_bind header lv].
    fold (scope_from (scope_from None (heap (insert_line m i lv)) (take i (lines m)))
            (heap (insert_line m i lv)) (take (p - i) (drop i (lines m)))).
    rewrite <- scope_from_app.
    assert (Htake : take i (lines m) ++ take (p - i) (drop i (lines m))
                    = take p (lines m)).
    { rewrite <- (take_drop i (lines m)) at 3.
      rewrite take_app_ge by (rewrite length_take; lia).
      now rewrite length_take, Nat.min_l by lia. }
    rewrite Htake. rewrite scope_from_insert_line by (assumption || apply take_subseteq).
    exact (Hsc p r n0 sec' k' v' Hp0 Hr0).
Qed.

End Scoped.

Section ScopedOperations.

Lemma scope_nil h : scope h [] = None.
Proof. reflexivity. Qed.

Lemma scoped_new f : scoped (new_IniMap f).
Proof. intros p r n sec k v Hp. discriminate. Qed.

Lemma cursor_scope_pushed m l cs :
  numbered m → header l = None → cursor_scope m cs → cursor_scope (pushed m l) cs.
Proof.
  intros Hm Hl Hcs.
  assert (Hscope : scope (heap (pushed m l)) (lines (pushed m l))
                   = scope (heap m) (lines m)).
  { cbn [pushed lines heap with_lines with_heap]. unfold scope.
    rewrite scope_from_app. cbn. rewrite list_lookup_middle by reflexivity. cbn.
    rewrite Hl. now rewrite scope_from_alloc by (exact Hm || reflexivity). }
  destruct cs as [s|]; cbn [cursor_scope] in *.
  - destruct Hcs as (n & name & map & e & Hs & Hsc). exists n, name, map, e.
    split; [cbn; now apply lookup_app_l_Some|]. now rewrite Hscope.
  - now rewrite Hscope.
Qed.

Lemma set_key_section k r n name map e :
  ∃ n' map' e', set_key k r (LineSection n name map e) = LineSection n' name map' e'.
Proof. cbn. eauto. Qed.

Lemma set_end_section x n name map e :
  ∃ n' map' e', set_end x (LineSection n name map e) = LineSection n' name map' e'.
Proof. cbn. eauto. Qed.

Lemma scoped_parseLine reviver m cs n line m' cs' :
  numbered m → scoped m → cursor_scope m cs →
  parseLine reviver m cs n line = inr (m', cs') →
  scoped m' ∧ cursor_scope m' cs'.
Proof.
  intros Hm Hsc Hcs H. apply parseLine_returns in H. cbn zeta in H.
  destruct H as [(_ & -> & ->)|[(_ & _ & _ & -> & ->)|(_ & -> & ->)]].
  - split.
    + apply (scoped_pushed m (LineComment n (trim line)) Hm Hsc). discriminate.
    + now apply (cursor_scope_pushed m (LineComment n (trim line))).
  - destruct (scoped_pushed m (LineSection n (inner (trim line)) [] n) Hm Hsc)
      as [Hsc' Hscope]; [discriminate|].
    split; [exact Hsc'|].
    exists n, (inner (trim line)), [], n.
    split; [cbn; now apply list_lookup_middle|exact Hscope].
  - assert (Hm1 : numbered (infer_pretty m (padded (trim line))))
      by now apply numbered_infer_pretty.
    assert (Hsc1 : scoped (infer_pretty m (padded (trim line))))
      by (unfold infer_pretty; now destruct (pretty (formatting m))).
    assert (Hcs1 : cursor_scope (infer_pretty m (padded (trim line))) cs)
      by (unfold infer_pretty; now destruct (pretty (formatting m))).
    set (m1 := infer_pretty m (padded (trim line))) in *.
    destruct cs as [s|]; cbn [push_value].
    + destruct Hcs1 as (n0 & name & map & e & Hs & Hscope).
      rewrite Hs. cbn [mbind option_bind line_sec default]. change (id name) with name.
      set (lv := LineValue n (Some name) _ _).
      destruct (scoped_pushed m1 lv Hm1 Hsc1) as [Hsc2 _].
      { intros ? ? ? ? [= _ <- _ _]. exact Hscope. }
      assert (Hcs2 : cursor_scope (pushed m1 lv) (Some s)).
      { apply cursor_scope_pushed; [exact Hm1|reflexivity|]. cbn. eauto 6. }
      split.
      * apply scoped_update; [apply header_set_end|apply set_end_value|].
        eapply (scoped_ext (update (pushed m1 lv) s (set_key _ (length (heap m1)))));
          [reflexivity..|].
        apply scoped_update; [apply header_set_key|apply set_key_value|exact Hsc2].
      * apply cursor_scope_update; [apply header_set_end|apply set_end_section|].
        eapply (cursor_scope_ext (update (pushed m1 lv) s (set_key _ (length (heap m1)))));
          [reflexivity..|].
        apply cursor_scope_update; [apply header_set_key|apply set_key_section|exact Hcs2].
    + set (lv := LineValue n None _ _).
      destruct (scoped_pushed m1 lv Hm1 Hsc1) as [Hsc2 _].
      { intros ? ? ? ? [= _ <- _ _]. exact Hcs1. }
      split.
      * eapply (scoped_ext (pushed m1 lv)); [reflexivity..|exact Hsc2].
      * eapply (cursor_scope_ext (pushed m1 lv)); [reflexivity..|].
        now apply (cursor_scope_pushed m1 lv None).
Qed.

Lemma scoped_parseLines reviver tokens : ∀ m cs n m' cs',
  numbered m → n = (lines_length m + 1)%Z → scoped m → cursor_scope m cs →
  parseLines reviver m cs n tokens = inr (m', cs') → scoped m'.
Proof.
  induction tokens as [|[line lb] tokens IH]; intros m cs n m' cs' Hm Hn Hsc Hcs H.
  - cbn in H. now injection H as <- <-.
  - cbn [parseLines] in H.
    destruct (parseLine reviver m cs n line) as [e|[m1 cs1]] eqn:E; [discriminate|].
    destruct (numbered_parseLine reviver _ _ _ _ _ _ Hm Hn E) as [Hm1 Hn1].
    destruct (scoped_parseLine _ _ _ _ _ _ _ Hm Hsc Hcs E) as [Hsc1 Hcs1].
    apply (IH (resume m1 lb) cs1 (n + 1)%Z m' cs').
    + now apply numbered_resume.
    + rewrite Hn. rewrite <- Hn1. destruct lb as [b|]; cbn; [|reflexivity].
      now destruct (truthy _).
    + destruct lb as [b|]; cbn; [|exact Hsc1]. now destruct (truthy _).
    + destruct lb as [b|]; cbn; [|exact Hcs1]. now destruct (truthy _).
    + exact H.
Qed.

Lemma scoped_set_global m key value :
  numbered m → scoped m → scoped (set_global m key value).
Proof.
  intros Hm Hsc. rewrite set_global_eq by exact Hm.
  eapply (scoped_ext (insert_line m _ _)); [reflexivity..|].
  apply scoped_insert_line; [exact Hm|exact Hsc|apply global_position_le|].
  apply scope_from_plain. intros r Hr.
  apply list_elem_of_lookup in Hr as [p Hp].
  pose proof (lookup_lt_Some _ _ _ Hp) as Hlt. rewrite length_take in Hlt.
  rewrite lookup_take_lt in Hp by lia.
  destruct (numbered_nums _ Hm p r Hp) as (l & Hl & _). rewrite Hl. cbn.
  apply header_section.
  apply (proj1 (global_position_spec (heap m) (lines m)) p r l); [lia|assumption..].
Qed.

Lemma scoped_getOrCreateSection m name :
  numbered m → scoped m → scoped (getOrCreateSection m name).1.
Proof.
  intros Hm Hsc. unfold getOrCreateSection.
  destruct (map_get (sections m) name); [exact Hsc|]. cbn [alloc fst].
  set (l := LineSection _ name [] _).
  eapply (scoped_ext (pushed m l)); [reflexivity..|].
  apply (scoped_pushed m l Hm Hsc). discriminate.
Qed.

Lemma scoped_set_section m name key value :
  well_formed m → name ≠ [] → scoped m → scoped (set_section m name key value).
Proof.
  intros [Hm Hord] Hname Hsc.
  rewrite set_section_getOrCreate by exact Hm.
  pose proof (numbered_getOrCreateSection m name Hm) as Hm1.
  pose proof (ordered_getOrCreateSection m name (conj Hm Hord)) as Hord1.
  pose proof (scoped_getOrCreateSection m name Hm Hsc) as Hsc1.
  pose proof (getOrCreateSection_get m name) as Hs.
  set (m1 := (getOrCreateSection m name).1) in *.
  set (ls := (getOrCreateSection m name).2) in *.
  destruct (numbered_sections _ Hm1 name ls Hs) as (l & Hl & Hnamed & Hpos).
  destruct (section_named_inv _ _ Hnamed) as (n & map & e & ->).
  destruct (Hpos Hname) as (i0 & Hi0 & Hlo & Hhi). cbn [line_end] in Hlo, Hhi.
  destruct (map_get map key) as [r|] eqn:Ekey.
  - unfold set_section. rewrite (getOrCreateSection_known m1 name ls Hs), Hl, Ekey.
    apply scoped_update; [apply header_set_val|apply set_val_value|exact Hsc1].
  - destruct (set_section_new_key_eq m1 name key value ls n map e Hm1 Hname Hs Hl Ekey)
      as (He0 & He & ->).
    apply scoped_update; [apply header_set_key|apply set_key_value|].
    apply scoped_update; [apply header_set_end|apply set_end_value|].
    apply scoped_insert_line; [exact Hm1|exact Hsc1|exact He|].
    (* the header of the section is the last one above the line [e + 1] *)
    assert (Hi0e : S i0 ≤ Z.to_nat e) by lia.
    rewrite <- (take_drop (S i0) (take (Z.to_nat e) (lines m1))).
    rewrite take_take, Nat.min_l by lia.
    rewrite (take_S_r _ _ _ Hi0). unfold scope.
    rewrite !scope_from_app. cbn [scope_from fold_left]. rewrite Hl.
    cbn [mbind option_bind header].
    apply scope_from_plain. intros r Hr.
    apply list_elem_of_lookup in Hr as [q Hq].
    rewrite lookup_drop in Hq.
    pose proof (lookup_lt_Some _ _ _ Hq) as Hlt. rewrite length_take in Hlt.
    rewrite lookup_take_lt in Hq by lia.
    destruct (numbered_nums _ Hm1 _ r Hq) as (l' & Hl' & _). rewrite Hl'. cbn.
    apply header_section.
    apply (ordered_section_body m1 i0 ls (LineSection n name map e) Hord1 Hi0 Hl
             eq_refl (S i0 + q) r l'); [lia|cbn; lia|exact Hq|exact Hl'].
Qed.

(** X11.  In a document built by a parse and by [set] calls that name no section
    by the empty string, every key/value line stands in the section its
    record names: the nearest section header above the line is the header
    of that section, and a global key has no header above it. *)
Theorem built_keys_under_their_header (m : IniMap) : built m → scoped m.
Proof.
  induction 1 as [f|f text reviver m H|m a b c Hb IH Hname].
  - apply scoped_new.
  - cbn [parse] in H.
    destruct (parseLines _ _ None 1 _) as [[e m']|[m' cs']] eqn:E; [discriminate|].
    injection H as <-.
    eapply (scoped_parseLines _ _ (new_IniMap f) None 1%Z m' cs');
      [apply numbered_new|reflexivity|apply scoped_new|reflexivity|exact E].
  - pose proof (built_well_formed m Hb) as Hm.
    rewrite set_branch. destruct (section_key b c) as [key|] eqn:Ekey.
    + apply scoped_set_section; [exact Hm| |exact IH]. apply Hname. eauto.
    + apply scoped_set_global; [exact (proj1 Hm)|exact IH].
Qed.

Lemma built_keys_under_their_header_witness :
  let m := set doc_two_sections (js "s") (VString (js "b")) VNull in
  lines m !! 2 = Some 3
  ∧ heap m !! 3 = Some (LineValue 3 (Some (js "s")) (js "b") VNull)
  ∧ scope (heap m) (take 2 (lines m)) = Some (js "s").
Proof.
  intros m. split; [vm_compute; reflexivity|]. split; [vm_compute; reflexivity|].
  apply (built_keys_under_their_header m) with (p := 2) (r := 3) (n := 3%Z)
    (k := js "b") (v := VNull); [|vm_compute; reflexivity..].
  apply built_set; [|discriminate].
  apply (built_parse noFormatting text_three_lines None). vm_compute. reflexivity.
Defined.

End ScopedOperations.

(** ** The line terminators and the content *)

Section TerminatorStyle.

Lemma content_with_lineBreak m lb : content (with_lineBreak m lb) = content m.
Proof. reflexivity. Qed.

Lemma content_eq m1 m2 :
  content m1 = content m2 → m2 = with_lineBreak m1 (lineBreak (formatting m2)).
Proof.
  destruct m1 as [h1 g1 s1 l1 [b1 p1]], m2 as [h2 g2 s2 l2 [b2 p2]].
  unfold content, with_lineBreak, with_formatting. cbn. now intros [= -> -> -> -> ->].
Qed.

Lemma content_resume m lb : content (resume m lb) = content m.
Proof. destruct lb as [b|]; cbn; [|reflexivity]. now destruct (truthy _). Qed.

(** One turn of the loop does not read the line break. *)
Lemma parseLine_with_lineBreak reviver m lb cs n line :
  parseLine reviver (with_lineBreak m lb) cs n line
  = match parseLine reviver m cs n line with
    | inl e => inl e
    | inr (m', cs') => inr (with_lineBreak m' lb, cs')
    end.
Proof.
  unfold parseLine. cbn zeta.
  destruct (isComment (trim line)); [reflexivity|].
  destruct (isSection (trim line) n) as [e|[|]]; [reflexivity| |].
  - destruct (negb (hasNonWhiteSpace _)); reflexivity.
  - destruct (indexOf (trim line) (js "=") =? -1)%Z; [reflexivity|].
    destruct (indexOf (trim line) (js "=") =? 0)%Z; [reflexivity|].
    change (pretty (formatting (with_lineBreak m lb))) with (pretty (formatting m)).
    destruct (pretty (formatting m)); destruct cs; reflexivity.
Qed.

Lemma parseLines_content reviver tokens1 : ∀ tokens2 m1 m2 cs n,
  tokens1.*1 = tokens2.*1 → content m1 = content m2 →
  match parseLines reviver m1 cs n tokens1, parseLines reviver m2 cs n tokens2 with
  | inl (e1, m1'), inl (e2, m2') => e1 = e2 ∧ content m1' = content m2'
  | inr (m1', cs1), inr (m2', cs2) => cs1 = cs2 ∧ content m1' = content m2'
  | _, _ => False
  end.
Proof.
  induction tokens1 as [|[line lb1] tokens1 IH];
    intros [|[line2 lb2] tokens2] m1 m2 cs n Hlines Hc; try discriminate Hlines.
  - cbn. auto.
  - cbn in Hlines. injection Hlines as <- Hlines. cbn [parseLines].
    rewrite (content_eq m1 m2 Hc), parseLine_with_lineBreak.
    destruct (parseLine reviver m1 cs n line) as [e|[m1' cs1]]; [now split|].
    apply IH; [exact Hlines|]. now rewrite !content_resume.
Qed.

(** X12.  The content of the model after a parse does not depend on how the
    lines of the text are terminated: two texts with the same lines give
    the same records, maps and lines and the same pretty flag, or throw
    the same error; only the recorded line break can differ. *)
Theorem parse_ignores_terminator_style
    (m : IniMap) (text1 text2 : jsstring) (reviver : option ReviverFunction) :
  (readTextLines text1).*1 = (readTextLines text2).*1 →
  same_outcome (parse m (JString text1) reviver) (parse m (JString text2) reviver).
Proof.
  intros Hlines. cbn [parse].
  pose proof (parseLines_content (default defaultReviver reviver)
                (readTextLines text1) (readTextLines text2) m m None 1
                Hlines eq_refl) as H.
  destruct (parseLines _ m None 1 (readTextLines text1)) as [[e1 m1]|[m1 cs1]];
    destruct (parseLines _ m None 1 (readTextLines text2)) as [[e2 m2]|[m2 cs2]];
    cbn; try contradiction; [exact H|exact (proj2 H)].
Qed.

Lemma parse_ignores_terminator_style_witness :
  same_outcome
    (parse (new_IniMap noFormatting)
       (JString (js "a=1" ++ [LF] ++ js "[s]" ++ [LF] ++ js "b = 2")) None)
    (parse (new_IniMap noFormatting)
       (JString (js "a=1" ++ [CR; LF] ++ js "[s]" ++ [CR] ++ js "b = 2")) None).
Proof. apply parse_ignores_terminator_style. vm_compute. reflexivity. Defined.

End TerminatorStyle.

(** ** A section named by the empty string *)

Section EmptySectionName.

Lemma first_section_ext h h' rs : ∀ k,
  (∀ r, r ∈ rs → h' !! r = h !! r) →
  first_section h' rs k = first_section h rs k.
Proof.
  induction rs as [|r rs IH]; intros k H; [reflexivity|]. cbn.
  rewrite (H r) by (apply elem_of_cons; now left).
  rewrite IH; [reflexivity|]. intros r' Hr'. apply H, elem_of_cons. now right.
Qed.

Lemma first_section_snoc h rs r : ∀ k,
  first_section h (rs ++ [r]) k
  = match first_section h rs k with
    | Some i => Some i
    | None => match h !! r with
              | Some (LineSection _ _ _ _) => Some (k + length rs)
              | _ => None
              end
    end.
Proof.
  induction rs as [|x rs IH]; intros k; cbn.
  - rewrite Nat.add_0_r. now destruct (h !! r) as [[| |]|].
  - destruct (h !! x) as [[| |]|]; try reflexivity;
      rewrite IH; replace (S k + length rs) with (k + S (length rs)) by lia;
      reflexivity.
Qed.

(** X13.  The key of a section named [""] is filed as a global key.  When
    [set("", key, value)] has to create the section, its header is put
    after the last line, but the key's line goes where a global key goes,
    before the first header, so above its own header; and the section is
    left with an end one beyond the last line. *)
Theorem set_empty_section_name_files_key_as_global
    (m : IniMap) (key : jsstring) (value : IniValue) :
  built m → value ≠ VUndefined → map_get (sections m) [] = None →
  let m' := set m [] (VString key) value in
  let ls := length (heap m) in
  let lv := S (length (heap m)) in
  let i := global_position (heap m) (lines m) in
  i ≤ length (lines m)
  ∧ lines m' = take i (lines m) ++ lv :: drop i (lines m) ++ [ls]
  ∧ heap m' !! lv = Some (LineValue (Z.of_nat i + 1) (Some []) key value)
  ∧ heap m' !! ls
    = Some (LineSection (lines_length m + 2) [] [(key, lv)] (lines_length m + 3))
  ∧ lines_length m' = (lines_length m + 2)%Z.
Proof.
  intros Hm%built_well_formed%proj1 Hv Hnone. cbn zeta.
  rewrite set_section_branch by exact Hv.
  pose proof (global_position_le (heap m) (lines m)) as Hi.
  set (i := global_position (heap m) (lines m)) in *.
  set (n0 := (lines_length m + 1)%Z).
  set (hdr := LineSection n0 [] [] n0).
  set (ls := length (heap m)).
  (* the model with the header, its end moved on *)
  set (m2 := update (getOrCreateSection m []).1 ls (add_end 1)).
  assert (Hgoc : getOrCreateSection m []
                 = (with_sections (pushed m hdr) (map_set (sections m) [] ls), ls)).
  { unfold getOrCreateSection. now rewrite Hnone. }
  assert (Hh2 : heap m2 = heap m ++ [LineSection n0 [] [] (n0 + 1)]).
  { unfold m2. rewrite Hgoc. cbn. unfold ls. now rewrite alter_snoc. }
  assert (Hl2 : lines m2 = lines m ++ [ls]) by (unfold m2; now rewrite Hgoc).
  assert (Hm2 : numbered m2).
  { unfold m2. apply numbered_update.
    - exact (numbered_getOrCreateSection m [] Hm).
    - intros l. now destruct l.
    - intros name l. now destruct l.
    - intros name l p Hname Hnamed Hl _ _. exfalso. apply Hname.
      rewrite Hgoc in Hl. cbn in Hl. unfold ls in Hl.
      rewrite list_lookup_middle in Hl by reflexivity. injection Hl as <-.
      now cbn in Hnamed. }
  assert (Hlen2 : length (heap m2) = S (length (heap m)))
    by (rewrite Hh2, length_app; cbn; lia).
  (* the key's line goes to the place of a global key *)
  set (lv0 := LineValue (n0 + 1) (Some []) key value).
  assert (Hgp : global_position (heap m2 ++ [lv0]) (lines m2) = i).
  { unfold global_position. rewrite Hl2, first_section_snoc.
    assert (Hext : first_section (heap m2 ++ [lv0]) (lines m) 0
                   = first_section (heap m) (lines m) 0).
    { apply first_section_ext. intros r Hr.
      apply list_elem_of_lookup in Hr as [p Hp].
      destruct (numbered_nums _ Hm p r Hp) as (l & Hl & _).
      rewrite Hh2, <- app_assoc. now rewrite (lookup_app_l_Some _ _ _ _ Hl). }
    rewrite Hext. unfold i, global_position.
    destruct (first_section (heap m) (lines m) 0); [reflexivity|].
    assert (Hls2 : (heap m2 ++ [lv0]) !! ls = Some (LineSection n0 [] [] (n0 + 1))).
    { apply lookup_app_l_Some. rewrite Hh2. now apply list_lookup_middle. }
    now rewrite Hls2. }
  assert (Hset : set_section m [] key value
                 = update (insert_line m2 i (LineValue (Z.of_nat i + 1) (Some []) key value))
                     ls (set_key key (S (length (heap m))))).
  { unfold set_section. rewrite Hgoc.
    assert (Hhdr : heap (with_sections (pushed m hdr) (map_set (sections m) [] ls)) !! ls
                   = Some hdr) by (cbn; now apply list_lookup_middle).
    rewrite Hhdr. unfold hdr at 1. cbn [map_get].
    assert (Hm2' : update (with_sections (pushed m hdr) (map_set (sections m) [] ls))
                     ls (add_end 1) = m2) by (unfold m2; now rewrite Hgoc).
    rewrite Hm2'.
    change (alloc m2 (LineValue (n0 + 1) (Some []) key value))
      with ((alloc m2 lv0).1, length (heap m2)).
    cbn beta iota zeta. unfold lv0 in *. rewrite (appendValue_alloc m2).
    rewrite bool_decide_eq_false_2
      by (rewrite Hl2, length_app; cbn; lia).
    cbn [truthy]. cbn zeta. rewrite Hgp, Hlen2. reflexivity. }
  rewrite Hset.
  assert (Hi2 : i ≤ length (lines m2)) by (rewrite Hl2, length_app; cbn; lia).
  split; [exact Hi|]. split; [|split; [|split]].
  - cbn [update lines with_heap insert_line with_lines]. rewrite Hl2, Hlen2.
    unfold inserted. rewrite take_app_le, drop_app_le by exact Hi. reflexivity.
  - cbn [update heap with_heap]. rewrite list_lookup_alter_ne by (unfold ls; lia).
    change (S ls) with (S (length (heap m))).
    rewrite <- Hlen2. now apply insert_line_new_record.
  - cbn [update heap with_heap]. rewrite list_lookup_alter_eq.
    rewrite (insert_line_old_record m2 i _ (length (lines m)) ls
               (LineSection n0 [] [] (n0 + 1)) Hm2 Hi2).
    + cbn. unfold renumbered. rewrite decide_True by exact Hi. cbn.
      unfold n0. do 2 f_equal; lia.
    + rewrite Hl2. now apply list_lookup_middle.
    + rewrite Hh2. unfold ls. now apply list_lookup_middle.
  - unfold lines_length. cbn [update lines with_heap insert_line with_lines].
    rewrite length_inserted, Hl2, length_app. cbn. lia.
Qed.

Lemma set_empty_section_name_files_key_as_global_witness :
  let m' := set doc_two_sections [] (VString (js "k")) one in
  lines m' = [4; 0; 1; 2; 3]
  ∧ heap m' !! 4 = Some (LineValue 1 (Some []) (js "k") one)
  ∧ heap m' !! 3 = Some (LineSection 5 [] [(js "k", 4)] 6)
  ∧ lines_length m' = 5%Z.
Proof.
  destruct (set_empty_section_name_files_key_as_global doc_two_sections (js "k") one)
    as (_ & Hlines & Hlv & Hls & Hlen).
  - apply (built_parse noFormatting text_three_lines None). vm_compute. reflexivity.
  - discriminate.
  - reflexivity.
  - cbn zeta in *. split; [exact Hlines|]. split; [exact Hlv|]. split; [exact Hls|].
    exact Hlen.
Defined.

End EmptySectionName.

(** ** The ranges of the sections *)

Section SectionRanges.

(** X14.  In a document built by a parse and by [set] calls that name no section
    by the empty string, the sections do not overlap: every section ends
    between its header and the last line, and before the header of every
    section further down. *)
Theorem built_sections_do_not_overlap (m : IniMap) (p q : nat) (r r' : loc) (l l' : Line) :
  built m →
  lines m !! p = Some r → heap m !! r = Some l → isSectionLine l = true →
  (Z.of_nat p + 1 ≤ line_end l ≤ lines_length m)%Z
  ∧ (p < q → lines m !! q = Some r' → heap m !! r' = Some l' →
     isSectionLine l' = true → (line_end l < line_num l')%Z).
Proof.
  intros Hwf%built_well_formed Hp Hl Hsec. destruct Hwf as [Hm Hord].
  destruct (Hord p r l Hp Hl Hsec) as [Hrange Hnext]. split; [exact Hrange|].
  intros Hpq Hq Hl' Hsec'.
  pose proof (Hnext q r' l' Hpq Hq Hl' Hsec') as Hle.
  destruct (numbered_nums _ Hm q r' Hq) as (l0 & Hl0 & Hnum).
  assert (l0 = l') as -> by congruence. lia.
Qed.

Lemma built_sections_do_not_overlap_witness :
  let m := set doc_two_sections (js "s") (VString (js "b")) VNull in
  (1 ≤ 3 ≤ lines_length m)%Z ∧ (3 < 4)%Z.
Proof.
  intros m.
  destruct (built_sections_do_not_overlap m 0 3 0 2
              (LineSection 1 (js "s") [(js "a", 1); (js "b", 3)] 3)
              (LineSection 4 (js "t") [] 4)) as [Hrange Hnext].
  - apply built_set; [|discriminate].
    apply (built_parse noFormatting text_three_lines None). vm_compute. reflexivity.
  - vm_compute. reflexivity.
  - vm_compute. reflexivity.
  - reflexivity.
  - split; [exact Hrange|]. apply Hnext; [lia|vm_compute; reflexivity..].
Defined.

End SectionRanges.

(** ** The reviver and the structure *)

Section ReviverStructure.

Lemma structure_fields m1 m2 :
  structure m1 = structure m2 ↔
  set_val VUndefined <$> heap m1 = set_val VUndefined <$> heap m2
  ∧ global m1 = global m2 ∧ sections m1 = sections m2
  ∧ lines m1 = lines m2 ∧ formatting m1 = formatting m2.
Proof.
  unfold structure. split.
  - intros [= -> -> -> -> ->]. auto.
  - intros (-> & -> & -> & -> & ->). reflexivity.
Qed.

Lemma unvalued_alter (f : Line → Line) s (h1 h2 : list Line) :
  (∀ l, set_val VUndefined (f l) = f (set_val VUndefined l)) →
  set_val VUndefined <$> h1 = set_val VUndefined <$> h2 →
  set_val VUndefined <$> alter f s h1 = set_val VUndefined <$> alter f s h2.
Proof.
  intros Hf H.
  rewrite !(list_fmap_alter (set_val VUndefined) f f)
    by (apply Forall_forall; intros; apply Hf).
  now rewrite H.
Qed.

Lemma unvalued_set_key k r l :
  set_val VUndefined (set_key k r l) = set_key k r (set_val VUndefined l).
Proof. now destruct l. Qed.

Lemma unvalued_set_end e l :
  set_val VUndefined (set_end e l) = set_end e (set_val VUndefined l).
Proof. now destruct l. Qed.

Lemma unvalued_length (h1 h2 : list Line) :
  set_val VUndefined <$> h1 = set_val VUndefined <$> h2 → length h1 = length h2.
Proof. intros H. apply (f_equal length) in H. now rewrite !length_fmap in H. Qed.

Lemma unvalued_line_sec (h1 h2 : list Line) r :
  set_val VUndefined <$> h1 = set_val VUndefined <$> h2 →
  h1 !! r ≫= line_sec = h2 !! r ≫= line_sec.
Proof.
  intros H. apply (f_equal (fun h => h !! r)) in H. rewrite !list_lookup_fmap in H.
  destruct (h1 !! r) as [[]|], (h2 !! r) as [[]|]; cbn in *; congruence.
Qed.

(** One turn of the loop: the reviver decides the value of the record and
    nothing else. *)
Lemma parseLine_structure rv1 rv2 m1 m2 cs n line :
  structure m1 = structure m2 →
  match parseLine rv1 m1 cs n line, parseLine rv2 m2 cs n line with
  | inl e1, inl e2 => e1 = e2
  | inr (m1', cs1), inr (m2', cs2) => cs1 = cs2 ∧ structure m1' = structure m2'
  | _, _ => False
  end.
Proof.
  intros (Hh & Hg & Hs & Hl & Hf)%structure_fields.
  pose proof (unvalued_length _ _ Hh) as Hlen.
  unfold parseLine. cbn zeta.
  destruct (isComment (trim line)).
  { cbn. rewrite Hlen. split; [reflexivity|]. apply structure_fields. cbn.
    rewrite !fmap_app, Hh, Hg, Hs, Hl, Hf. auto. }
  destruct (isSection (trim line) n) as [e|[|]]; [reflexivity| |].
  - destruct (negb (hasNonWhiteSpace _)); [reflexivity|]. cbn.
    rewrite Hlen. split; [reflexivity|]. apply structure_fields. cbn.
    rewrite !fmap_app, Hh, Hg, Hs, Hl, Hf. auto.
  - destruct (indexOf (trim line) (js "=") =? -1)%Z; [reflexivity|].
    destruct (indexOf (trim line) (js "=") =? 0)%Z; [reflexivity|].
    rewrite Hf.
    set (b := endsWith _ _ && startsWith _ _).
    set (key := trim (substring _ _ _)).
    set (value := trim (substring_from _ _)).
    destruct cs as [s|].
    + destruct (pretty (formatting m2)); cbn;
        (split; [reflexivity|]); apply structure_fields; cbn;
        rewrite Hlen, Hl, Hg, Hs, ?Hf;
        (split; [|auto]);
        (apply unvalued_alter; [apply unvalued_set_end|]);
        (apply unvalued_alter; [apply unvalued_set_key|]);
        rewrite !fmap_app, Hh; cbn;
        now rewrite (unvalued_line_sec _ _ s Hh).
    + destruct (pretty (formatting m2)); cbn;
        (split; [reflexivity|]); apply structure_fields; cbn;
        rewrite !fmap_app, Hh, Hlen, Hl, Hg, Hs, ?Hf; auto.
Qed.

Lemma structure_resume m1 m2 lb :
  structure m1 = structure m2 → structure (resume m1 lb) = structure (resume m2 lb).
Proof.
  intros (Hh & Hg & Hs & Hl & Hf)%structure_fields.
  destruct lb as [b|]; cbn; [|now apply structure_fields]. rewrite Hf.
  destruct (truthy _); apply structure_fields; cbn; rewrite ?Hf; auto.
Qed.

Lemma parseLines_structure rv1 rv2 tokens : ∀ m1 m2 cs n,
  structure m1 = structure m2 →
  match parseLines rv1 m1 cs n tokens, parseLines rv2 m2 cs n tokens with
  | inl (e1, m1'), inl (e2, m2') => e1 = e2 ∧ structure m1' = structure m2'
  | inr (m1', cs1), inr (m2', cs2) => cs1 = cs2 ∧ structure m1' = structure m2'
  | _, _ => False
  end.
Proof.
  induction tokens as [|[line lb] tokens IH]; intros m1 m2 cs n Hm; [cbn; auto|].
  cbn [parseLines].
  pose proof (parseLine_structure rv1 rv2 m1 m2 cs n line Hm) as H.
  destruct (parseLine rv1 m1 cs n line) as [e1|[m1' cs1]],
           (parseLine rv2 m2 cs n line) as [e2|[m2' cs2]]; try contradiction.
  - auto.
  - destruct H as [<- H]. apply IH. now apply structure_resume.
Qed.

(** X15.  The reviver decides the values and nothing else: whatever two revivers
    a text is parsed with, the lines, the keys, the sections, the maps and
    the formatting of the result are the same, and so is the error when
    the parse throws. *)
Theorem parse_structure_ignores_reviver
    (m : IniMap) (text : JsValue) (reviver1 reviver2 : option ReviverFunction) :
  same_structure (parse m text reviver1) (parse m text reviver2).
Proof.
  destruct text as [s| | | | |]; cbn [parse];
    try (destruct (template_text _); cbn; auto).
  pose proof (parseLines_structure (default defaultReviver reviver1)
                (default defaultReviver reviver2) (readTextLines s) m m None 1
                eq_refl) as H.
  destruct (parseLines (default defaultReviver reviver1) m None 1 _)
    as [[e1 m1]|[m1 cs1]];
    destruct (parseLines (default defaultReviver reviver2) m None 1 _)
      as [[e2 m2]|[m2 cs2]];
    cbn; try contradiction; [exact H|exact (proj2 H)].
Qed.

End ReviverStructure.
